(** * CREBMRetro: the route search and rerank engine of [Transformer/rerank_star.py]

    A shallow embedding of [get_beam] (the single-step beam decoder) and of
    [get_route_result] (the multi-step search, the deduplication and rerank
    stage, and the evaluation against the ground truth), with the properties
    the specification states about them; and of the functions around them:
    the inputs of the two transformers, the fingerprint and the layers of the
    value model, the canonical forms, the data set and the report of the
    results.

    Conventions.
    - Python [int] is [Z]; [str] is [string]; a Python [set] of strings is a
      [gset string]; a list is a [list].
    - Scores are torch or Python floats.  Their arithmetic is kept abstract in
      the class [Score]: the model only fixes which operations are applied, and
      in which order.
    - The neural models, RDKit and the stock table are module-level globals of
      the script; they are the fields of the classes [DecoderEnv] and
      [SearchEnv].
    - A raised exception is the outcome [Raise]; the [while True] loop of the
      search runs on fuel and yields [None] when the fuel is used up, which is
      shown never to happen when the fuel is large enough. *)

From Stdlib Require Import ZArith String Ascii Sorted.
From stdpp Require Import base list gmap strings sorting pretty.

Open Scope Z_scope.

(** ** Python run-time helpers *)

Module Py.

Section by_key.
Context {A K : Type} (key : A → K) (lt : K → K → bool).

(** [sorted(l, key=key)] is a stable sort that only uses [<] on the keys.  It is
    modelled by the stable insertion sort: an element is put before the first
    element of the sorted rest that is not smaller than it. *)
Fixpoint insert_sorted (x : A) (l : list A) : list A :=
  match l with
  | [] => [x]
  | y :: l' => if lt (key y) (key x) then y :: insert_sorted x l' else x :: y :: l'
  end.

Fixpoint sorted (l : list A) : list A :=
  match l with
  | [] => []
  | x :: l' => insert_sorted x (sorted l')
  end.

(** [a] may stand before [b] in ascending order: [b]'s key is not smaller. *)
Definition ascending (a b : A) : Prop := lt (key b) (key a) = false.

End by_key.

(** [sorted(l)] on a list of strings: code point order, which on the byte
    strings used here is [String.ltb]. *)
Definition sorted_str (l : list string) : list string := sorted id String.ltb l.

(** [l[:n]]: the first [n] elements, and all but the last [-n] when [n < 0]. *)
Definition slice_to {A} (n : Z) (l : list A) : list A :=
  if n <? 0 then take (length l - Z.to_nat (- n)) l else take (Z.to_nat n) l.

(** [sep.join(l)] *)
Fixpoint join (sep : string) (l : list string) : string :=
  match l with
  | [] => ""
  | [x] => x
  | x :: l' => x +:+ sep +:+ join sep l'
  end.

(** [s.split(c)] for a one-character separator: never empty, [""] splits to [[""]]. *)
Fixpoint split (c : ascii) (s : string) : list string :=
  match s with
  | EmptyString => [EmptyString]
  | String a s' =>
      if decide (a = c) then EmptyString :: split c s'
      else match split c s' with
           | [] => [String a EmptyString]
           | w :: ws => String a w :: ws
           end
  end.

(** [s.replace(c, "")] for a one-character [c]. *)
Fixpoint remove_char (c : ascii) (s : string) : string :=
  match s with
  | EmptyString => EmptyString
  | String a s' => if decide (a = c) then remove_char c s' else String a (remove_char c s')
  end.

(** [range(n)] *)
Definition range (n : Z) : list Z := Z.of_nat <$> seq 0 (Z.to_nat n).

End Py.

(** ** Outcomes: a value or a raised exception *)

Inductive exn := IndexError.

Inductive res (A : Type) :=
| Ok (a : A)
| Raise (e : exn).
Arguments Ok {A} a.
Arguments Raise {A} e.

Definition res_bind {A B} (m : res A) (k : A → res B) : res B :=
  match m with
  | Ok a => k a
  | Raise e => Raise e
  end.

Notation "'try' x <- m ; k" := (res_bind m (fun x => k))
  (at level 10, x name, m at level 100, k at level 200).

(** A [for] loop whose body may raise. *)
Fixpoint for_each {A S} (body : S → A → res S) (l : list A) (s : S) : res S :=
  match l with
  | [] => Ok s
  | x :: l' => try s' <- body s x; for_each body l' s'
  end.

(** ** Scores *)

Class Score := {
  score : Type;
  s0 : score;                          (* 0 and 0.0 *)
  sadd : score → score → score;        (* x + y *)
  ssub : score → score → score;        (* x - y *)
  smul : score → score → score;        (* x * y *)
  sneg : score → score;                (* -x *)
  sdiv_len : score → nat → score;      (* x / n, n a length *)
  neg_log10 : score → score;           (* -torch.log10(x) *)
  slt : score → score → bool;          (* x < y, as the sorts use it *)
}.

(** What the statements about "ascending" and "lowest" need of [<]: it is a
    strict weak order (as [<] on floats is, away from NaN). *)
Class ScoreOrder `{Score} : Prop := {
  slt_asym : ∀ x y, slt x y = true → slt y x = false;
  slt_negtrans : ∀ x y z, slt x y = false → slt y z = false → slt x z = false;
}.

(** [x <= y] read as "not [y < x]". *)
Definition sle `{Score} (x y : score) : Prop := slt y x = false.

(** ** The single-step beam decoder: [get_beam] *)

Module Decoder.

(** The globals [get_beam] reads: [args.max_length], [vocab_size],
    [ix_to_char] (a dict with the keys [0 .. vocab_size-1]; line 164 only asks
    it for keys below 100 that are symbol indices, so it is a total function
    here), the step predictor behind [get_output_probs] (entry [j] of the
    distribution it returns for a product and a partial string), and RDKit's
    parser ([None] when the string does not parse) and printer. *)
Class DecoderEnv `{Score} := {
  mol : Type;
  max_length : Z;
  vocab_size : Z;
  ix_to_char : Z → string;
  get_output_probs : string → string → Z → score;
  MolFromSmiles : string → option mol;
  MolToSmiles : mol → string;
}.

(** Line 153 packs the beam index [i] and the symbol index [j] into the second
    column of [result]; lines 164 and 165 take them apart again.  [result] is
    a tensor of 32-bit floats, which hold an integer exactly when it is below
    2^24; the column is kept here as the integers themselves.  That is what the
    tensor holds in every run with at most 100 symbols: a beam wider than the
    vocabulary raises at step 0 ([decoder_wide_beam_raises]), a narrower one
    never has more lines than the vocabulary has symbols ([live_ok],
    [beam_step_ok]), so the packed values stay below 10100. *)
Definition pack (i j : Z) : Z := i * 100 + j.
Definition symbol_index (v : Z) : Z := v mod 100.
Definition beam_index (v : Z) : Z := v / 100.

Section decoder.
Context `{DecoderEnv}.

(** The live beam: [lines] and [scores] are parallel lists, kept as one list of
    pairs. *)
Definition beam := list (string * score).

(** Lines 141-145: the table of step 0. *)
Definition first_rows (product : string) : list (score * Z) :=
  (λ i, (neg_log10 (get_output_probs product "" i), i)) <$> Py.range vocab_size.

(** Lines 147-153: row [i*vocab_size + j] of the table of a later step. *)
Definition rows_of_line (product : string) (i : nat) (b : string * score) : list (score * Z) :=
  (λ j, (sadd (neg_log10 (get_output_probs product b.1 j)) b.2, pack (Z.of_nat i) j))
    <$> Py.range vocab_size.

Definition beam_rows (product : string) (lines : beam) : list (score * Z) :=
  mjoin (imap (rows_of_line product) lines).

(** Line 155: the rows in ascending order of the first column.  [argsort]
    does not promise an order among rows of equal score; the stable order is
    taken here, and no statement below depends on that choice: they use that
    the ranked table is a reordering of the table. *)
Definition ranked (result : list (score * Z)) : list (score * Z) := Py.sorted fst slt result.

(** The accumulators of the loop of lines 163-174. *)
Record selection := {
  new_beams : beam;
  final_beams : list (string * score);
  object_size : Z;
}.

(** Lines 164-174, for one row of [ranked_result]. *)
Definition select_row (lines : beam) (acc : selection) (row : score * Z) : res selection :=
  let symbol := ix_to_char (symbol_index row.2) in
  match lines !! Z.to_nat (beam_index row.2) with
  | None => Raise IndexError
  | Some line =>
      if decide (symbol = "$") then
        let added := line.1 +:+ symbol in
        Ok {| new_beams := new_beams acc;
              final_beams := if decide (added = "$") then final_beams acc
                             else final_beams acc ++ [(added, row.1)];
              object_size := object_size acc - 1 |}
      else
        Ok {| new_beams := new_beams acc ++ [(line.1 +:+ symbol, row.1)];
              final_beams := final_beams acc;
              object_size := object_size acc |}
  end.

(** Line 163: [for i in range(object_size)], the bound read once. *)
Definition select (lines : beam) (ranked_result : list (score * Z))
    (finished : list (string * score)) (size : Z) : res selection :=
  for_each
    (λ acc i, match ranked_result !! Z.to_nat i with
              | None => Raise IndexError
              | Some row => select_row lines acc row
              end)
    (Py.range size)
    {| new_beams := []; final_beams := finished; object_size := size |}.

Record beam_state := {
  lines : beam;
  st_final_beams : list (string * score);
  st_object_size : Z;
}.

(** One pass of the body of [for step in range(args.max_length)]; the boolean
    says whether the loop is left by a [break]. *)
Definition beam_step (product : string) (step : Z) (st : beam_state) : res (beam_state * bool) :=
  let result := if decide (step = 0) then first_rows product else beam_rows product (lines st) in
  let ranked_result := ranked result in
  if decide (length (lines st) = 0%nat) then Ok (st, true)
  else
    try acc <- select (lines st) ranked_result (st_final_beams st) (st_object_size st);
    Ok ({| lines := new_beams acc; st_final_beams := final_beams acc;
           st_object_size := object_size acc |},
        bool_decide (length (new_beams acc) = 0%nat)).

Fixpoint beam_loop (product : string) (steps : list Z) (st : beam_state) : res beam_state :=
  match steps with
  | [] => Ok st
  | step :: steps' =>
      try r <- beam_step product step st;
      if r.2 then Ok r.1 else beam_loop product steps' r.1
  end.

(** Lines 130-137. *)
Definition initial (beam_size : Z) : beam_state :=
  {| lines := replicate (Z.to_nat beam_size) (""%string, s0);
     st_final_beams := []; st_object_size := beam_size |}.

(** Lines 182-185: length normalisation, then the sort.  The length is that
    of the finished string with its end symbol; the symbols are single bytes,
    so [String.length] is Python's [len]. *)
Definition normalize (fb : string * score) : string * score :=
  (fb.1, sdiv_len fb.2 (String.length fb.1)).

Definition ranked_finished (finished : list (string * score)) : list (string * score) :=
  Py.sorted snd slt (normalize <$> finished).

(** Line 191: the set of fragments of a finished string. *)
Definition fragments (s : string) : gset string := list_to_set (Py.split "."%char s).

(** Lines 194-199: the molecules of the fragments that parse. *)
Definition parse_fragment (r : string) : option mol := MolFromSmiles (Py.remove_char "$"%char r).

Definition parsed (reactants : gset string) : list mol := omap parse_fragment (elements reactants).

Definition canonical (reactants : gset string) : gset string :=
  list_to_set (MolToSmiles <$> parsed reactants).

(** Lines 188-204.  The [break] of line 190 ends the loop with the answer so
    far. *)
Fixpoint collect (pool : list (string * score)) (answer : list (list string * score))
    (aim_size : Z) : list (list string * score) :=
  match pool with
  | [] => answer
  | fb :: pool' =>
      if decide (aim_size = 0) then answer
      else
        let reactants := fragments fb.1 in
        let sms := canonical reactants in
        if decide (length (parsed reactants) ≠ size reactants) then collect pool' answer aim_size
        else if decide (size sms ≠ 0%nat)
             then collect pool' (answer ++ [(Py.sorted_str (elements sms), fb.2)]) (aim_size - 1)
             else collect pool' answer aim_size
  end.

(** The finished pool, ranked: what the loop of lines 139-180 and the
    normalisation leave in [final_beams]. *)
Definition finished_pool (product : string) (beam_size : Z) : res (list (string * score)) :=
  try st <- beam_loop product (Py.range max_length) (initial beam_size);
  Ok (ranked_finished (st_final_beams st)).

Definition get_beam (product : string) (beam_size : Z) : res (list (list string * score)) :=
  try pool <- finished_pool product beam_size;
  Ok (collect pool [] beam_size).

(** *** Vocabulary of the statements about the decoder *)

(** Every fragment of a finished string parses. *)
Definition all_parse (s : string) : Prop :=
  Forall (λ r, is_Some (parse_fragment r)) (Py.split "."%char s).

(** A finished string that is not discarded, and the candidate made of it. *)
Definition usable (fb : string * score) : Prop :=
  all_parse fb.1 ∧ canonical (fragments fb.1) ≠ ∅.

#[global] Instance all_parse_dec (s : string) : Decision (all_parse s).
Proof. unfold all_parse. apply _. Defined.

#[global] Instance usable_dec (fb : string * score) : Decision (usable fb).
Proof. unfold usable. apply _. Defined.

Definition candidate_of (fb : string * score) : list string * score :=
  (Py.sorted_str (elements (canonical (fragments fb.1))), fb.2).

(** The live beam and the count of strings still wanted agree, and the beam
    is not wider than the vocabulary (or the beam is empty). *)
Definition live_ok (st : beam_state) : Prop :=
  lines st = [] ∨
  (Z.of_nat (length (lines st)) = st_object_size st ∧ st_object_size st ≤ vocab_size).

(** What [select_row] makes of the accumulators when the row stands for the
    string [s] with the symbol [symbol] at its end and the score [sc]. *)
Definition selected (acc : selection) (s symbol : string) (sc : score) : selection :=
  if decide (symbol = "$") then
    {| new_beams := new_beams acc;
       final_beams := if decide (s = "$") then final_beams acc else final_beams acc ++ [(s, sc)];
       object_size := object_size acc - 1 |}
  else
    {| new_beams := new_beams acc ++ [(s, sc)];
       final_beams := final_beams acc;
       object_size := object_size acc |}.

End decoder.
End Decoder.

(** ** The multi-step search, the rerank stage and the evaluation:
       [get_route_result] *)

(** The globals [get_route_result] and its helpers read.  [get_beam] is the
    decoder as the search sees it: a function of the open molecule and the
    beam width that returns candidates or raises; [script_env] below puts the
    decoder modelled above in its place.  [inchikey14 s] stands for
    [Chem.MolToInchiKey(Chem.MolFromSmiles(s))[:14]]; [cano_smiles s] for the
    second component of the source's [cano_smiles(s)]; [value_fn s] for the
    value model on the fingerprint of [s]; [reward_logps n p r] for the entry
    of [all_logps] that the reward model computes for the row [(p, r)] of a
    batch padded to length [n].  These are taken as total functions: the
    strings the search hands to RDKit are the target, the materials of the
    ground truth and canonical forms that RDKit itself printed, and a run in
    which RDKit fails on one of them is outside this model. *)
Class SearchEnv `{Score} := {
  beam_size : Z;
  alpha : score;
  get_beam : string → Z → res (list (list string * score));
  value_fn : string → score;
  inchikey14 : string → string;
  stock_inchikeys : gset string;
  cano_smiles : string → string;
  reward_logps : nat → string → string → score;
}.

Section records.
Context `{Score}.

(** [{"route": ..., "depth": ...}] *)
Record route_info := { route : list string; depth : Z }.

(** [{"score": ..., "routes_info": ..., "starting_materials": ...}] *)
Record item := {
  item_score : score;
  routes_info : list route_info;
  starting_materials : list string;
}.

(** A member of [answer_set]. *)
Record answer := { answer_score : score; answer_materials : list string }.

(** A member of [final_answer_set], before and after the rerank scores are
    written into it. *)
Record kept := { kept_score : score; kept_keys : list string }.

Record ranked_answer := {
  final_score : score;
  answer_keys : list string;
  rerank_score : score;
  total_score : score;
}.

(** [{"product": ..., "targets": ..., "depth": ...}] *)
Record task := { product : string; targets : list (list string); task_depth : Z }.

(** What the search does that an observer of its collaborators sees: a call
    of the decoder for the head of a node, and a route appended to
    [answer_set] while that head is expanded.  The log is ghost state: nothing
    reads it. *)
Inductive event :=
| Decode (head : route_info)
| Emit (head : route_info) (a : answer).

Record engine_state := {
  answer_set : list answer;
  nxt_queue : list item;
  log : list event;
}.

End records.

Section search.
Context `{SearchEnv}.

(** Lines 294-302. *)
Definition check_reactant_is_material (reactant : string) : bool :=
  bool_decide (inchikey14 reactant ∈ stock_inchikeys).

Fixpoint check_reactants_are_material (reactants : list string) : bool :=
  match reactants with
  | [] => true
  | reactant :: rest =>
      if bool_decide (inchikey14 reactant ∉ stock_inchikeys) then false
      else check_reactants_are_material rest
  end.

(** The accumulators of the loop of lines 341-346. *)
Record partition := {
  estimation_cost : score;
  iter_starting_materials : list string;
  iter_routes : list route_info;
}.

(** Lines 342-346. *)
Definition partition_step (first : route_info) (acc : partition) (reactant : string) : partition :=
  if check_reactant_is_material reactant then
    {| estimation_cost := estimation_cost acc;
       iter_starting_materials := iter_starting_materials acc ++ [reactant];
       iter_routes := iter_routes acc |}
  else
    {| estimation_cost := sadd (estimation_cost acc) (value_fn reactant);
       iter_starting_materials := iter_starting_materials acc;
       iter_routes := {| route := route first ++ [reactant]; depth := depth first + 1 |}
                      :: iter_routes acc |}.

(** Lines 329-351: the body of the loop over the decoder's candidates, for the
    node [it] whose head is [first] and whose open molecule is [expansion_mol].
    The copy of [routes_info] after [pop(0)] is its tail (the list is not empty
    here: line 323 has read its first element). *)
Definition expand_solution (it : item) (first : route_info) (expansion_mol : string)
    (st : engine_state) (solution : list string * score) : engine_state :=
  let rest := tail (routes_info it) in
  let reaction_cost := solution.2 in
  let expansion_reactants := Py.sorted_str solution.1 in
  if check_reactants_are_material expansion_reactants && bool_decide (length rest = 0%nat) then
    let a := {| answer_score := ssub (sadd (item_score it) reaction_cost) (value_fn expansion_mol);
                answer_materials := starting_materials it ++ expansion_reactants |} in
    {| answer_set := answer_set st ++ [a];
       nxt_queue := nxt_queue st;
       log := log st ++ [Emit first a] |}
  else
    let p := fold_left (partition_step first) expansion_reactants
               {| estimation_cost := s0;
                  iter_starting_materials := starting_materials it;
                  iter_routes := rest |} in
    {| answer_set := answer_set st;
       nxt_queue := nxt_queue st ++
         [{| item_score := ssub (sadd (sadd (item_score it) reaction_cost) (estimation_cost p))
                                (value_fn expansion_mol);
             routes_info := iter_routes p;
             starting_materials := iter_starting_materials p |}];
       log := log st |}.

(** Lines 320-351: the body of [for item in queue]. *)
Definition expand_item (max_depth : Z) (st : engine_state) (it : item) : res engine_state :=
  match routes_info it with
  | [] => Raise IndexError
  | first :: _ =>
      if max_depth <? depth first then Ok st
      else
        match last (route first) with
        | None => Raise IndexError
        | Some expansion_mol =>
            try solutions <- get_beam expansion_mol beam_size;
            Ok (fold_left (expand_solution it first expansion_mol) solutions
                  {| answer_set := answer_set st;
                     nxt_queue := nxt_queue st;
                     log := log st ++ [Decode first] |})
        end
  end.

(** Line 352. *)
Definition next_queue (pool : list item) : list item :=
  Py.slice_to beam_size (Py.sorted item_score slt pool).

(** Lines 318-352: one round of the [while] loop, from a queue and the answers
    and log so far to the next queue and the state after the round. *)
Definition round (max_depth : Z) (queue : list item) (st : engine_state)
    : res (list item * engine_state) :=
  try st' <- for_each (expand_item max_depth) queue
               {| answer_set := answer_set st; nxt_queue := []; log := log st |};
  Ok (next_queue (nxt_queue st'), st').

(** Lines 315-352. *)
Fixpoint search_loop (fuel : nat) (max_depth : Z) (queue : list item) (st : engine_state)
    : option (res engine_state) :=
  match queue with
  | [] => Some (Ok st)
  | _ :: _ =>
      match fuel with
      | O => None
      | S fuel' =>
          match round max_depth queue st with
          | Ok r => search_loop fuel' max_depth r.1 r.2
          | Raise e => Some (Raise e)
          end
      end
  end.

(** The first [n] rounds (fewer when the queue empties before). *)
Fixpoint rounds (n : nat) (max_depth : Z) (queue : list item) (st : engine_state)
    : res (list item * engine_state) :=
  match n with
  | O => Ok (queue, st)
  | S n' =>
      match queue with
      | [] => Ok (queue, st)
      | _ :: _ =>
          try r <- round max_depth queue st;
          rounds n' max_depth r.1 r.2
      end
  end.

(** Lines 308-314. *)
Definition root (t : task) : item :=
  {| item_score := value_fn (product t);
     routes_info := [{| route := [product t]; depth := 0 |}];
     starting_materials := [] |}.

Definition initial_state : engine_state := {| answer_set := []; nxt_queue := []; log := [] |}.

Definition search (fuel : nat) (t : task) : option (res engine_state) :=
  search_loop fuel (task_depth t) [root t] initial_state.

(** Lines 355-376: the accumulators of the deduplication loop and its body. *)
Record dedup_state := {
  record_answers : gset string;
  final_answer_set : list kept;
  rerank_input_list : list string;
  rerank_output_list : list string;
}.

Definition dedup_key (a : answer) : string :=
  Py.join "." (Py.sorted_str (inchikey14 <$> answer_materials a)).

Definition dedup_step (t : task) (d : dedup_state) (a : answer) : dedup_state :=
  let cano_starting_materials := cano_smiles <$> answer_materials a in
  let keys := inchikey14 <$> answer_materials a in
  if bool_decide (dedup_key a ∉ record_answers d) then
    {| record_answers := {[ dedup_key a ]} ∪ record_answers d;
       final_answer_set := final_answer_set d ++ [{| kept_score := answer_score a; kept_keys := keys |}];
       rerank_input_list := rerank_input_list d ++ [product t];
       rerank_output_list := rerank_output_list d ++ [Py.join "." (Py.sorted_str cano_starting_materials)] |}
  else d.

Definition dedup (t : task) (answers : list answer) : dedup_state :=
  fold_left (dedup_step t) (Py.sorted answer_score slt answers)
    {| record_answers := ∅; final_answer_set := []; rerank_input_list := []; rerank_output_list := [] |}.

(** Lines 260-292: the padded length of the batch, then one log-likelihood per
    row. *)
Definition longest (l : list string) : nat := foldr Nat.max 0%nat (String.length <$> l).

Definition get_rerank_scores (input_list output_list : list string) : list score :=
  let max_length_reward := (Nat.max (longest input_list) (longest output_list) + 2)%nat in
  zip_with (reward_logps max_length_reward) input_list output_list.

(** Lines 378-382. *)
Definition with_rerank (k : kept) (score_ : score) : ranked_answer :=
  {| final_score := kept_score k;
     answer_keys := kept_keys k;
     rerank_score := sneg score_;
     total_score := sadd (smul (sneg alpha) score_) (kept_score k) |}.

Definition rerank (d : dedup_state) : list ranked_answer :=
  let rerank_scores := get_rerank_scores (rerank_input_list d) (rerank_output_list d) in
  Py.slice_to beam_size
    (Py.sorted total_score slt (zip_with with_rerank (final_answer_set d) rerank_scores)).

(** Lines 385-396. *)
Definition ground_truth_keys_list (t : task) : list (gset string) :=
  (λ targets, list_to_set (inchikey14 <$> targets)) <$> targets t.

Definition matches (gts : list (gset string)) (a : ranked_answer) : bool :=
  existsb (λ ground_truth_keys, bool_decide (ground_truth_keys = list_to_set (answer_keys a))) gts.

Fixpoint first_match (gts : list (gset string)) (rank : nat) (l : list ranked_answer) : option nat :=
  match l with
  | [] => None
  | a :: l' => if matches gts a then Some rank else first_match gts (S rank) l'
  end.

Definition evaluate (t : task) (final : list ranked_answer) : Z * option nat :=
  (task_depth t, first_match (ground_truth_keys_list t) 0 final).

(** The candidates the deduplication and rerank stage makes of an answer
    set. *)
Definition ranked_candidates (t : task) (answers : list answer) : list ranked_answer :=
  rerank (dedup t answers).

(** Lines 305-396. *)
Definition get_route_result (fuel : nat) (t : task) : option (res (Z * option nat)) :=
  r ← search fuel t;
  Some (try st <- r; Ok (evaluate t (ranked_candidates t (answer_set st)))).

(** *** Vocabulary of the statements about the search *)

(** The two parts of a candidate's reactants. *)
Definition purchasable (reactants : list string) : list string :=
  filter (λ r, check_reactant_is_material r = true) reactants.

Definition non_purchasable (reactants : list string) : list string :=
  filter (λ r, check_reactant_is_material r = false) reactants.

(** The pending branch a non-purchasable reactant opens under the head
    [first]. *)
Definition branch (first : route_info) (reactant : string) : route_info :=
  {| route := route first ++ [reactant]; depth := depth first + 1 |}.

(** A sum, added up from [0] in the order of the list. *)
Definition total (l : list score) : score := fold_left sadd l s0.

(** The path of a pending branch holds the target and one molecule per step. *)
Definition wf_route_info (ri : route_info) : Prop :=
  0 ≤ depth ri ∧ Z.of_nat (length (route ri)) = depth ri + 1.

Definition wf_item (it : item) : Prop :=
  routes_info it ≠ [] ∧ Forall wf_route_info (routes_info it).

Definition event_head (e : event) : route_info :=
  match e with Decode h => h | Emit h _ => h end.

Definition emitted (l : list event) : list answer :=
  omap (λ e, match e with Emit _ a => Some a | Decode _ => None end) l.

(** The head of a logged event is a well-formed branch within the depth
    budget; a state is good when its pool, its log and its answers are. *)
Definition event_ok (max_depth : Z) (e : event) : Prop :=
  wf_route_info (event_head e) ∧ depth (event_head e) ≤ max_depth.

Definition good (max_depth : Z) (st : engine_state) : Prop :=
  Forall wf_item (nxt_queue st) ∧
  Forall (event_ok max_depth) (log st) ∧
  emitted (log st) = answer_set st.

(** A bound on the rounds a pending branch can still cause: the size of the
    tree of molecules that the decoder spans below the open molecule [m]
    within [n] more levels. *)
Fixpoint weight (n : nat) (m : string) : nat :=
  match n with
  | O => 1
  | S n' =>
      S (match get_beam m beam_size with
         | Ok solutions => sum_list_with (λ sol, sum_list_with (weight n') sol.1) solutions
         | Raise _ => 0
         end)
  end.

Definition levels (max_depth : Z) (ri : route_info) : nat := Z.to_nat (max_depth + 1 - depth ri).

Definition route_weight (max_depth : Z) (ri : route_info) : nat :=
  match last (route ri) with
  | Some m => weight (levels max_depth ri) m
  | None => 1
  end.

Definition item_weight (max_depth : Z) (it : item) : nat :=
  sum_list_with (route_weight max_depth) (routes_info it).

(** Every node of a queue weighs less than [n]. *)
Definition lighter (max_depth : Z) (n : nat) (queue : list item) : Prop :=
  Forall (λ it, (item_weight max_depth it < n)%nat) queue.

(** Fuel that is enough for the search of a task. *)
Definition enough_fuel (t : task) : nat := S (item_weight (task_depth t) (root t)).

(** The elements of a list whose key no earlier element has, none of them in
    [seen]. *)
Fixpoint firsts {A} (key : A → string) (seen : gset string) (l : list A) : list A :=
  match l with
  | [] => []
  | a :: l' =>
      if decide (key a ∈ seen) then firsts key seen l'
      else a :: firsts key ({[ key a ]} ∪ seen) l'
  end.

(** [a] stands at position [i] of [l], and no earlier element has its key. *)
Definition first_occurrence {A} (key : A → string) (l : list A) (i : nat) (a : A) : Prop :=
  l !! i = Some a ∧ ∀ j b, (j < i)%nat → l !! j = Some b → key b ≠ key a.

(** The entry of [final_answer_set] made of an answer (lines 371-374). *)
Definition to_kept (a : answer) : kept :=
  {| kept_score := answer_score a; kept_keys := inchikey14 <$> answer_materials a |}.

(** The deduplication key of a candidate, and its identity-key set as the
    evaluation reads it (line 391). *)
Definition ranked_key (a : ranked_answer) : string :=
  Py.join "." (Py.sorted_str (answer_keys a)).

Definition identity_key_set (a : ranked_answer) : gset string := list_to_set (answer_keys a).

(** C1 as the specification states it, with the identity-key set read as the
    evaluation reads it: no two ranked candidates have equal sets of identity
    keys. *)
Definition no_equal_key_sets (l : list ranked_answer) : Prop :=
  ∀ i j a b, i ≠ j → l !! i = Some a → l !! j = Some b →
             identity_key_set a ≠ identity_key_set b.

(** C2 as the specification states it: the target is in stock and the decoder
    answers the first expansion with one candidate that has no reactant and
    costs [0]; then round 1 emits exactly one route, whose materials are the
    target. *)
Definition scenario_one (t : task) : Prop :=
  check_reactant_is_material (product t) = true →
  get_beam (product t) beam_size = Ok [([], s0)] →
  ∃ queue st a,
    round (task_depth t) [root t] initial_state = Ok (queue, st) ∧
    answer_set st = [a] ∧
    (list_to_set (answer_materials a) : gset string) = {[ product t ]}.

End search.

(** The environment of the script itself: the search runs on the decoder
    modelled above; the other globals are as given. *)
Definition script_env `{Score} `{!Decoder.DecoderEnv} (width : Z) (weight_alpha : score)
    (value : string → score) (key canon : string → string) (stock : gset string)
    (reward : nat → string → string → score) : SearchEnv :=
  {| beam_size := width;
     alpha := weight_alpha;
     get_beam := Decoder.get_beam;
     value_fn := value;
     inchikey14 := key;
     stock_inchikeys := stock;
     cano_smiles := canon;
     reward_logps := reward |}.

(** ** The expansion of a node over a store of Python objects

    [get_route_result] works on lists and dicts that are mutable objects:
    [deepcopy] allocates, [pop] and [append] update in place, [+] on lists
    allocates.  This second model of lines 320-351 keeps the objects in a
    heap and the nodes as references into it, so that what the expansion of a
    node leaves untouched can be stated.  Strings, numbers, the node dicts
    themselves (which are only built and read) and the two result lists
    [answer_set] and [nxt_queue] (which are only appended to) are values. *)

Module Store.

Definition loc := nat.

Inductive obj :=
| StrList (l : list string)               (* a route or a list of materials *)
| RouteInfo (route_ref : loc) (d : Z)     (* {"route": ..., "depth": ...} *)
| RefList (l : list loc).                 (* routes_info: a list of such dicts *)

Abbreviation heap := (gmap loc obj).

(** A new object gets a location that is not in use. *)
Definition alloc (h : heap) (o : obj) : heap * loc :=
  let l := fresh (dom h) in (<[l := o]> h, l).

(** A read of a location that holds no object of the expected kind. *)
Definition ill_typed {A} : res A := Raise IndexError.

Definition read_strs (h : heap) (l : loc) : res (list string) :=
  match h !! l with Some (StrList xs) => Ok xs | _ => ill_typed end.

Definition read_refs (h : heap) (l : loc) : res (list loc) :=
  match h !! l with Some (RefList ds) => Ok ds | _ => ill_typed end.

Definition read_info (h : heap) (l : loc) : res (loc * Z) :=
  match h !! l with Some (RouteInfo r d) => Ok (r, d) | _ => ill_typed end.

(** [copy.deepcopy]: every list and dict reachable from the argument is
    copied once (the memo maps an original to its copy); strings and numbers
    are shared.  A copy is allocated empty, entered in the memo and then
    filled. *)
Definition copy_strs (memo : gmap loc loc) (h : heap) (l : loc)
    : res (gmap loc loc * heap * loc) :=
  match memo !! l with
  | Some y => Ok (memo, h, y)
  | None =>
      try xs <- read_strs h l;
      let a := alloc h (StrList []) in
      Ok (<[l := a.2]> memo, <[a.2 := StrList xs]> a.1, a.2)
  end.

Definition copy_info (memo : gmap loc loc) (h : heap) (l : loc)
    : res (gmap loc loc * heap * loc) :=
  match memo !! l with
  | Some y => Ok (memo, h, y)
  | None =>
      try rd <- read_info h l;
      let a := alloc h (RouteInfo rd.1 rd.2) in
      try c <- copy_strs (<[l := a.2]> memo) a.1 rd.1;
      Ok (c.1.1, <[a.2 := RouteInfo c.2 rd.2]> c.1.2, a.2)
  end.

Fixpoint copy_infos (memo : gmap loc loc) (h : heap) (ds : list loc)
    : res (gmap loc loc * heap * list loc) :=
  match ds with
  | [] => Ok (memo, h, [])
  | d :: ds' =>
      try c <- copy_info memo h d;
      try cs <- copy_infos c.1.1 c.1.2 ds';
      Ok (cs.1.1, cs.1.2, c.2 :: cs.2)
  end.

(** [deepcopy(routes_info)] *)
Definition deepcopy_routes (h : heap) (l : loc) : res (heap * loc) :=
  try ds <- read_refs h l;
  let a := alloc h (RefList []) in
  try cs <- copy_infos {[ l := a.2 ]} a.1 ds;
  Ok (<[a.2 := RefList cs.2]> cs.1.2, a.2).

(** [deepcopy(starting_materials)] *)
Definition deepcopy_strs (h : heap) (l : loc) : res (heap * loc) :=
  try c <- copy_strs ∅ h l;
  Ok (c.1.2, c.2).

(** [l.pop(0)] *)
Definition pop0 (h : heap) (l : loc) : res heap :=
  try ds <- read_refs h l;
  match ds with
  | [] => Raise IndexError
  | _ :: ds' => Ok (<[l := RefList ds']> h)
  end.

(** [l.append(x)] on a list of strings *)
Definition append (h : heap) (l : loc) (x : string) : res heap :=
  try xs <- read_strs h l;
  Ok (<[l := StrList (xs ++ [x])]> h).

(** What a reference stands for, as a relation: the list of strings, the
    pending branch and the pending list that are read through it. *)
Definition strs_at (h : heap) (l : loc) (xs : list string) : Prop :=
  h !! l = Some (StrList xs).

Definition info_at (h : heap) (l : loc) (ri : route_info) : Prop :=
  ∃ r, h !! l = Some (RouteInfo r (depth ri)) ∧ h !! r = Some (StrList (route ri)).

Definition routes_at (h : heap) (l : loc) (ris : list route_info) : Prop :=
  ∃ ds, h !! l = Some (RefList ds) ∧ Forall2 (info_at h) ds ris.

(** During a [deepcopy] that started in the heap [h0]: every copy in the memo
    reads, in the heap [h] of the moment, as its original did in [h0]. *)
Definition memo_ok (h0 : heap) (memo : gmap loc loc) (h : heap) : Prop :=
  ∀ k y, memo !! k = Some y →
    (∀ xs, strs_at h0 k xs → strs_at h y xs) ∧
    (∀ ri, info_at h0 k ri → info_at h y ri).

(** Every copy the memo of a [deepcopy] knows is an object that [h0] does not
    have. *)
Definition all_new (h0 : heap) (memo : gmap loc loc) : Prop :=
  map_Forall (λ _ y, h0 !! y = None) memo.

Section store.
Context `{SearchEnv}.

(** A node and an answer, their lists held by reference. *)
Record item_ref := {
  ref_score : score;
  ref_routes_info : loc;
  ref_starting_materials : loc;
}.

Record answer_ref := { ref_answer_score : score; ref_answer_materials : loc }.

Record store_state := {
  objects : heap;
  answers : list answer_ref;
  pool : list item_ref;
}.

(** The variables the loop of lines 341-346 assigns: the heap,
    [estimation_cost] and the reference held by [iter_routes]. *)
Record loop_vars := {
  lv_heap : heap;
  lv_estimation_cost : score;
  lv_iter_routes : loc;
}.

(** Lines 342-346.  [first_route + [reactant]], the new dict and
    [[...] + iter_routes] are three new objects. *)
Definition partition_step (first_route : loc) (depth : Z) (iter_starting_materials : loc)
    (v : loop_vars) (reactant : string) : res loop_vars :=
  if check_reactant_is_material reactant then
    try h <- append (lv_heap v) iter_starting_materials reactant;
    Ok {| lv_heap := h;
          lv_estimation_cost := lv_estimation_cost v;
          lv_iter_routes := lv_iter_routes v |}
  else
    try xs <- read_strs (lv_heap v) first_route;
    let r := alloc (lv_heap v) (StrList (xs ++ [reactant])) in
    let d := alloc r.1 (RouteInfo r.2 (depth + 1)) in
    try ds <- read_refs d.1 (lv_iter_routes v);
    let n := alloc d.1 (RefList (d.2 :: ds)) in
    Ok {| lv_heap := n.1;
          lv_estimation_cost := sadd (lv_estimation_cost v) (value_fn reactant);
          lv_iter_routes := n.2 |}.

(** Lines 329-351. *)
Definition expand_solution (it : item_ref) (first_route : loc) (depth : Z)
    (expansion_mol : string) (st : store_state) (solution : list string * score)
    : res store_state :=
  try c <- deepcopy_routes (objects st) (ref_routes_info it);
  try h1 <- pop0 c.1 c.2;
  try m <- deepcopy_strs h1 (ref_starting_materials it);
  let iter_starting_materials := m.2 in
  let reaction_cost := solution.2 in
  let expansion_reactants := Py.sorted_str solution.1 in
  try remaining <- read_refs m.1 c.2;
  if check_reactants_are_material expansion_reactants && bool_decide (length remaining = 0%nat) then
    try xs <- read_strs m.1 iter_starting_materials;
    let a := alloc m.1 (StrList (xs ++ expansion_reactants)) in
    Ok {| objects := a.1;
          answers := answers st ++
            [{| ref_answer_score := ssub (sadd (ref_score it) reaction_cost) (value_fn expansion_mol);
                ref_answer_materials := a.2 |}];
          pool := pool st |}
  else
    try v <- for_each (partition_step first_route depth iter_starting_materials)
               expansion_reactants
               {| lv_heap := m.1; lv_estimation_cost := s0; lv_iter_routes := c.2 |};
    Ok {| objects := lv_heap v;
          answers := answers st;
          pool := pool st ++
            [{| ref_score := ssub (sadd (sadd (ref_score it) reaction_cost) (lv_estimation_cost v))
                                  (value_fn expansion_mol);
                ref_routes_info := lv_iter_routes v;
                ref_starting_materials := iter_starting_materials |}] |}.

(** Lines 320-351. *)
Definition expand_item (max_depth : Z) (st : store_state) (it : item_ref) : res store_state :=
  try ds <- read_refs (objects st) (ref_routes_info it);
  match ds with
  | [] => Raise IndexError
  | first_route_info :: _ =>
      try rd <- read_info (objects st) first_route_info;
      if max_depth <? rd.2 then Ok st
      else
        try first_route <- read_strs (objects st) rd.1;
        match last first_route with
        | None => Raise IndexError
        | Some expansion_mol =>
            try solutions <- get_beam expansion_mol beam_size;
            for_each (expand_solution it rd.1 rd.2 expansion_mol) solutions st
        end
  end.

(** What a reference stands for: the value read through it. *)
Definition read_route_info (h : heap) (l : loc) : res route_info :=
  try rd <- read_info h l;
  try xs <- read_strs h rd.1;
  Ok {| route := xs; depth := rd.2 |}.

Fixpoint read_all {A} (rd : loc → res A) (ls : list loc) : res (list A) :=
  match ls with
  | [] => Ok []
  | l :: ls' => try x <- rd l; try xs <- read_all rd ls'; Ok (x :: xs)
  end.

Definition read_routes_info (h : heap) (l : loc) : res (list route_info) :=
  try ds <- read_refs h l;
  read_all (read_route_info h) ds.

Definition read_item (h : heap) (it : item_ref) : res item :=
  try ri <- read_routes_info h (ref_routes_info it);
  try sm <- read_strs h (ref_starting_materials it);
  Ok {| item_score := ref_score it; routes_info := ri; starting_materials := sm |}.

Definition read_answer (h : heap) (a : answer_ref) : res answer :=
  try sm <- read_strs h (ref_answer_materials a);
  Ok {| answer_score := ref_answer_score a; answer_materials := sm |}.

(** The locations an item reaches. *)
Definition item_locs (h : heap) (it : item_ref) : list loc :=
  ref_routes_info it :: ref_starting_materials it ::
  match h !! ref_routes_info it with
  | Some (RefList ds) =>
      ds ++ omap (λ d, match h !! d with Some (RouteInfo r _) => Some r | _ => None end) ds
  | _ => []
  end.

(** A node and an answer of the store stand for a node and an answer of the
    first model. *)
Definition item_at (h : heap) (it : item_ref) (v : item) : Prop :=
  item_score v = ref_score it ∧
  routes_at h (ref_routes_info it) (routes_info v) ∧
  strs_at h (ref_starting_materials it) (starting_materials v).

Definition answer_at (h : heap) (a : answer_ref) (v : answer) : Prop :=
  answer_score v = ref_answer_score a ∧
  strs_at h (ref_answer_materials a) (answer_materials v).

(** The variables of the loop of lines 341-346 stand for the accumulators
    [p] of the first model; no path of a pending branch is the object
    [materials] that the loop appends to. *)
Definition loop_at (materials : loc) (v : loop_vars) (p : partition) : Prop :=
  lv_estimation_cost v = estimation_cost p ∧
  strs_at (lv_heap v) materials (iter_starting_materials p) ∧
  ∃ ds, lv_heap v !! lv_iter_routes v = Some (RefList ds) ∧
        Forall2 (λ d ri, ∃ r, lv_heap v !! d = Some (RouteInfo r (depth ri)) ∧
                              lv_heap v !! r = Some (StrList (route ri)) ∧
                              r ≠ materials) ds (iter_routes p).

(** [st] comes from [st0] by allocations and by updates of objects that [st0]
    does not have: the objects of [st0] are as they were, and what was added
    to the pool and to the answers holds its lists in new objects. *)
Definition extends (st0 st : store_state) : Prop :=
  objects st0 ⊆ objects st ∧
  ∃ children routes,
    pool st = pool st0 ++ children ∧
    answers st = answers st0 ++ routes ∧
    Forall (λ c, objects st0 !! ref_routes_info c = None ∧
                 objects st0 !! ref_starting_materials c = None) children ∧
    Forall (λ a, objects st0 !! ref_answer_materials a = None) routes.

End store.
End Store.

(** ** Small instances, to run the model on *)

Module Example.

(** Integer scores: [-log10] is read as the identity, so that a "probability"
    is given directly as its cost. *)
Definition int_scores : Score :=
  {| score := Z; s0 := 0; sadd := Z.add; ssub := Z.sub; smul := Z.mul; sneg := Z.opp;
     sdiv_len := λ x n, x / Z.of_nat n; neg_log10 := λ x, x; slt := Z.ltb |}.

(** A search environment around a decoder stub: identity keys are the strings
    themselves, every value estimate is [1], the reward model returns [0]. *)
Definition stub_env (width : Z) (stock : gset string)
    (decoder : string → Z → res (list (list string * Z))) : @SearchEnv int_scores :=
  @Build_SearchEnv int_scores
    width              (* beam_size *)
    1                  (* alpha *)
    decoder            (* get_beam *)
    (λ _, 1)           (* value_fn *)
    (λ s, s)           (* inchikey14 *)
    stock              (* stock_inchikeys *)
    (λ s, s)           (* cano_smiles *)
    (λ _ _ _, 0).      (* reward_logps *)

(** A decoder stub with two routes to ["T"] from the stock [{A, B}]: in one
    step from ["A"] and ["B"], or from ["A"] and ["M"], where ["M"] is made of
    ["A"] and ["B"]; and the answer set the search builds with it: the second
    route uses ["A"] twice. *)
Definition twice_A_decoder : string → Z → res (list (list string * Z)) :=
  λ m _, if decide (m = "T") then Ok [(["A"; "M"], 2); (["A"; "B"], 9)]
         else if decide (m = "M") then Ok [(["A"; "B"], 1)]
         else Ok [].

Definition twice_A : list (@answer int_scores) :=
  [ @Build_answer int_scores 9 ["A"; "B"]%string;
    @Build_answer int_scores 3 ["A"; "A"; "B"]%string ].

Definition no_decoder : string → Z → res (list (list string * Z)) := λ _ _, Ok [].

Definition some_task (max_depth : Z) : task :=
  {| product := "T"; targets := [["A"; "B"]]; task_depth := max_depth |}%string.

(** The decoder stub of the first end-to-end scenario: the only candidate has
    no reactant and costs [0]. *)
Definition empty_candidate : string → Z → res (list (list string * Z)) :=
  λ _ _, Ok [([], 0)].

(** A decoder stub with a two-level tree: ["T"] is made of ["A"] and ["M"],
    ["M"] of ["B"]; ["A"] and ["B"] are in stock. *)
Definition two_steps : string → Z → res (list (list string * Z)) :=
  λ m _, if decide (m = "T") then Ok [(["M"; "A"], 2)]
         else if decide (m = "M") then Ok [(["B"], 3)]
         else Ok [].

Definition AB_stock : gset string := {[ "A"; "B" ]}%string.

(** The root node of the task ["T"] in a store: its path, its head, its
    pending list and its (empty) list of materials are four objects. *)
Definition root_heap : Store.heap :=
  {[ 0%nat := Store.StrList ["T"%string];
     1%nat := Store.RouteInfo 0%nat 0;
     2%nat := Store.RefList [1%nat];
     3%nat := Store.StrList [] ]}.

Definition root_ref : @Store.item_ref int_scores :=
  @Store.Build_item_ref int_scores 1 2%nat 3%nat.

Definition root_store : @Store.store_state int_scores :=
  @Store.Build_store_state int_scores root_heap [] [].

(** A decoder over the four symbols [C], [O], [.] and [$]: the end symbol
    costs 1 after a non-empty string and 5 at the start, [C] costs 2, [O]
    costs 3 and [.] costs 4; every non-empty string but ["OO"] parses, and is
    its own canonical form. *)
Definition toy_symbol (j : Z) : string :=
  if decide (j = 0) then "C" else if decide (j = 1) then "O"
  else if decide (j = 2) then "." else "$".

Definition toy_cost (product line : string) (j : Z) : Z :=
  if decide (j = 3) then (if decide (line = "") then 5 else 1) else j + 2.

Definition toy_parse (s : string) : option string :=
  if decide (s = "" ∨ s = "OO") then None else Some s.

Definition toy_decoder : @Decoder.DecoderEnv int_scores :=
  @Decoder.Build_DecoderEnv int_scores
    string             (* mol *)
    4                  (* max_length *)
    4                  (* vocab_size *)
    toy_symbol         (* ix_to_char *)
    toy_cost           (* get_output_probs, as costs *)
    toy_parse          (* MolFromSmiles *)
    (λ m, m).          (* MolToSmiles *)

End Example.

(** ** Outcomes with the other exceptions of the script *)

Module Outcome.

(** The exceptions that the tokenisation, the fingerprint and the report of
    the results raise: a key that a dict does not have, an index past the end
    of a list or of an array, an array asked for with a negative size
    ([torch.zeros] raises [RuntimeError], [np.zeros] raises [ValueError]), and
    [None] handed to an RDKit function ([ArgumentError]). *)
Inductive error :=
| KeyError (key : string)
| IndexError
| RuntimeError
| ValueError
| ArgumentError.

Inductive outcome (A : Type) :=
| Value (a : A)
| Error (e : error).
Arguments Value {A} a.
Arguments Error {A} e.

Definition outcome_bind {A B} (m : outcome A) (k : A → outcome B) : outcome B :=
  match m with
  | Value a => k a
  | Error e => Error e
  end.

Notation "'run' x <- m ; k" := (outcome_bind m (fun x => k))
  (at level 10, x name, m at level 100, k at level 200).

(** A [for] loop whose body may raise. *)
Fixpoint loop {A S} (body : S → A → outcome S) (l : list A) (s : S) : outcome S :=
  match l with
  | [] => Value s
  | x :: l' => run s' <- body s x; loop body l' s'
  end.

End Outcome.
(** ** The inputs of the two transformers: symbols, indices and masks *)

Module Inputs.

Import Outcome.

(** The global [char_to_ix], a dict from a symbol to its index. *)
Class Vocabulary := { char_to_ix : gmap ascii Z }.

(** A two-dimensional tensor or array.  The entries are numbers that the
    source keeps as 64-bit integers or as floats; they are indices of symbols,
    [0] and [1], which both hold exactly. *)
Abbreviation table := (list (list Z)).

(** [zeros((num_samples, max_length))] *)
Definition zeros (negative : error) (num_samples : nat) (max_length : Z) : outcome table :=
  if max_length <? 0 then Error negative
  else Value (replicate num_samples (replicate (Z.to_nat max_length) 0)).

(** [t[cnt, i] = v], for indices that are not negative. *)
Definition store (cnt i : nat) (v : Z) (t : table) : outcome table :=
  match t !! cnt with
  | None => Error IndexError
  | Some row =>
      if decide (i < length row)%nat then Value (<[cnt := <[i := v]> row]> t)
      else Error IndexError
  end.

(** [t[cnt, :n] = 1]: a slice ends where the row ends. *)
Definition fill_to (cnt n : nat) (t : table) : outcome table :=
  match t !! cnt with
  | None => Error IndexError
  | Some row => Value (<[cnt := replicate (Nat.min n (length row)) 1 ++ drop n row]> t)
  end.

Section inputs.
Context `{Vocabulary}.

(** [char_to_ix[symbol]] *)
Definition lookup_symbol (symbol : ascii) : outcome Z :=
  match char_to_ix !! symbol with
  | Some v => Value v
  | None => Error (KeyError (String symbol EmptyString))
  end.

(** Lines 92-93 and 248-249: [for i, symbol in enumerate(symbols)], from the
    index [i] on. *)
Fixpoint write_symbols (cnt i : nat) (symbols : list ascii) (t : table) : outcome table :=
  match symbols with
  | [] => Value t
  | symbol :: rest =>
      run v <- lookup_symbol symbol;
      run t' <- store cnt i v t;
      write_symbols cnt (S i) rest t'
  end.

(** The four tensors of [convert_symbols_to_inputs]. *)
Record inputs := {
  products_input_ids : table;
  products_input_mask : table;
  reactants_input_ids : table;
  reactants_input_mask : table;
}.

(** Lines 89-98: the body of [for cnt in range(num_samples)].  The loop of
    line 96 reads [reactants[i]] for [i] below [len(reactants)-1], which are
    the symbols of [reactants] but the last. *)
Definition convert_row (reactants_list : list string) (st : inputs) (cnt : nat)
    (product : string) : outcome inputs :=
  match reactants_list !! cnt with
  | None => Error IndexError
  | Some reactant =>
      let products := list_ascii_of_string ("^" +:+ product +:+ "$") in
      let reactants := list_ascii_of_string ("^" +:+ reactant +:+ "$") in
      run pids <- write_symbols cnt 0 products (products_input_ids st);
      run pmask <- fill_to cnt (length products) (products_input_mask st);
      run rids <- write_symbols cnt 0 (take (length reactants - 1) reactants)
                    (reactants_input_ids st);
      run rmask <- fill_to cnt (length reactants - 1) (reactants_input_mask st);
      Value {| products_input_ids := pids; products_input_mask := pmask;
               reactants_input_ids := rids; reactants_input_mask := rmask |}
  end.

Fixpoint convert_rows (reactants_list : list string) (cnt : nat) (products_list : list string)
    (st : inputs) : outcome inputs :=
  match products_list with
  | [] => Value st
  | product :: rest =>
      run st' <- convert_row reactants_list st cnt product;
      convert_rows reactants_list (S cnt) rest st'
  end.

(** Lines 78-99. *)
Definition convert_symbols_to_inputs (products_list reactants_list : list string)
    (max_length : Z) : outcome inputs :=
  let num_samples := length products_list in
  run z <- zeros RuntimeError num_samples max_length;
  convert_rows reactants_list 0 products_list
    {| products_input_ids := z; products_input_mask := z;
       reactants_input_ids := z; reactants_input_mask := z |}.

(** The six arrays of [convert_symbols_to_inputs_reward]. *)
Record reward_inputs := {
  input_ids : table;
  input_mask : table;
  output_ids : table;
  output_mask : table;
  token_ids : table;
  token_mask : table;
}.

(** The three arrays the loop of lines 252-256 writes. *)
Record output_tables := {
  out_ids : table;
  tok_ids : table;
  tok_mask : table;
}.

(** Lines 253-256, for one [i]. *)
Definition output_step (cnt : nat) (output_ : list ascii) (st : output_tables) (i : nat)
    : outcome output_tables :=
  match output_ !! i with
  | None => Error IndexError
  | Some symbol =>
      run v <- lookup_symbol symbol;
      run oids <- store cnt i v (out_ids st);
      match output_ !! S i with
      | None => Error IndexError
      | Some next =>
          run w <- lookup_symbol next;
          run tids <- store cnt i w (tok_ids st);
          run tmask <- (if decide (Z.of_nat i ≠ Z.of_nat (length output_) - 2)
                        then store cnt i 1 (tok_mask st) else Value (tok_mask st));
          Value {| out_ids := oids; tok_ids := tids; tok_mask := tmask |}
      end
  end.

(** Lines 245-257: the body of [for cnt in range(num_samples)]. *)
Definition convert_row_reward (output_list : list string) (st : reward_inputs) (cnt : nat)
    (input : string) : outcome reward_inputs :=
  match output_list !! cnt with
  | None => Error IndexError
  | Some output =>
      let input_ := list_ascii_of_string ("^" +:+ input +:+ "$") in
      let output_ := list_ascii_of_string ("^" +:+ output +:+ "$") in
      run iids <- write_symbols cnt 0 input_ (input_ids st);
      run imask <- fill_to cnt (length input_) (input_mask st);
      run o <- loop (output_step cnt output_) (seq 0 (length output_ - 1))
                 {| out_ids := output_ids st; tok_ids := token_ids st;
                    tok_mask := token_mask st |};
      run omask <- fill_to cnt (length output_ - 1) (output_mask st);
      Value {| input_ids := iids; input_mask := imask;
               output_ids := out_ids o; output_mask := omask;
               token_ids := tok_ids o; token_mask := tok_mask o |}
  end.

Fixpoint convert_rows_reward (output_list : list string) (cnt : nat) (input_list : list string)
    (st : reward_inputs) : outcome reward_inputs :=
  match input_list with
  | [] => Value st
  | input :: rest =>
      run st' <- convert_row_reward output_list st cnt input;
      convert_rows_reward output_list (S cnt) rest st'
  end.

(** Lines 230-258. *)
Definition convert_symbols_to_inputs_reward (input_list output_list : list string)
    (max_length : Z) : outcome reward_inputs :=
  let num_samples := length input_list in
  run z <- zeros ValueError num_samples max_length;
  convert_rows_reward output_list 0 input_list
    {| input_ids := z; input_mask := z; output_ids := z; output_mask := z;
       token_ids := z; token_mask := z |}.

(** Lines 261-277 of [get_rerank_scores]: the padded length, then the
    arrays. *)
Definition max_length_reward (input_list output_list : list string) : Z :=
  Z.of_nat (Nat.max (longest input_list) (longest output_list)) + 2.

Definition rerank_inputs (input_list output_list : list string) : outcome reward_inputs :=
  convert_symbols_to_inputs_reward input_list output_list
    (max_length_reward input_list output_list).

(** *** Vocabulary of the statements about the inputs *)

(** The index of a symbol, and the row of length [n] that starts with the
    indices of the symbols of [s] and goes on with zeros; the mask row with
    [k] ones. *)
Definition code (symbol : ascii) : Z := default 0 (char_to_ix !! symbol).

Definition known (s : string) : Prop :=
  Forall (λ symbol, is_Some (char_to_ix !! symbol)) (list_ascii_of_string s).

Definition encoded (n : nat) (s : string) : list Z :=
  (code <$> list_ascii_of_string s) ++ replicate (n - String.length s) 0.

Definition ones (n k : nat) : list Z := replicate k 1 ++ replicate (n - k) 0.

(** A product and a partial string of reactants fit a row of length [n]. *)
Definition fits (n : nat) (product reactant : string) : Prop :=
  known ("^" +:+ product +:+ "$") ∧ known ("^" +:+ reactant) ∧
  (String.length product + 2 ≤ n)%nat ∧ (String.length reactant + 1 ≤ n)%nat.

(** The rows of a pair, and the tensors made of the rows of the pairs. *)
Definition product_ids_row (n : nat) (pr : string * string) : list Z :=
  encoded n ("^" +:+ pr.1 +:+ "$").
Definition product_mask_row (n : nat) (pr : string * string) : list Z :=
  ones n (String.length pr.1 + 2).
Definition reactant_ids_row (n : nat) (pr : string * string) : list Z :=
  encoded n ("^" +:+ pr.2).
Definition reactant_mask_row (n : nat) (pr : string * string) : list Z :=
  ones n (String.length pr.2 + 1).

Definition rows_of (n : nat) (pairs : list (string * string)) : inputs :=
  {| products_input_ids := product_ids_row n <$> pairs;
     products_input_mask := product_mask_row n <$> pairs;
     reactants_input_ids := reactant_ids_row n <$> pairs;
     reactants_input_mask := reactant_mask_row n <$> pairs |}.

(** An input and an output of the reward model fit a row of length [n]. *)
Definition fits_reward (n : nat) (input output : string) : Prop :=
  known ("^" +:+ input +:+ "$") ∧ known ("^" +:+ output +:+ "$") ∧
  (String.length input + 2 ≤ n)%nat ∧ (String.length output + 1 ≤ n)%nat.

(** [row.sum()] *)
Definition row_sum (row : list Z) : Z := foldr Z.add 0 row.

Definition token_ids_row (n : nat) (io : string * string) : list Z :=
  encoded n (io.2 +:+ "$").
Definition token_mask_row (n : nat) (io : string * string) : list Z :=
  ones n (String.length io.2).

Definition reward_rows_of (n : nat) (pairs : list (string * string)) : reward_inputs :=
  {| input_ids := product_ids_row n <$> pairs;
     input_mask := product_mask_row n <$> pairs;
     output_ids := reactant_ids_row n <$> pairs;
     output_mask := reactant_mask_row n <$> pairs;
     token_ids := token_ids_row n <$> pairs;
     token_mask := token_mask_row n <$> pairs |}.

End inputs.

(** The globals of [get_output_probs]: [args.max_length]; the step model with
    the three mask functions of lines 119-121, from the four tensors to
    [logits[0]], one row per position; and lines 124-125, the division by the
    temperature and the softmax of one row. *)
Class Predictor `{Score} `{Vocabulary} := {
  max_length : Z;
  predict_model : inputs → list (list score);
  softmax : list score → list score;
}.

(** Lines 116-126. *)
Definition get_output_probs `{Predictor} (product res : string) : outcome (list score) :=
  run x <- convert_symbols_to_inputs [product] [res] max_length;
  match predict_model x !! String.length res with
  | None => Error IndexError
  | Some row => Value (softmax row)
  end.

End Inputs.

(** ** The report of the results: lines 472-484 *)

Module Report.

Import Outcome.

(** [overall_result] has [beam_size] rows of two counters, the hits and the
    tasks; [depth_hit] has two tables, of hits and of tasks, with 15 rows of
    [beam_size] counters.  The counters are floats that only ever hold whole
    numbers. *)
Record tally := {
  overall_result : list (list Z);
  depth_hit : list (list (list Z));
}.

(** The index [i] of an array axis of size [n]: a negative index counts from
    the end, an index outside [-n .. n-1] raises [IndexError]. *)
Definition axis_index (n : nat) (i : Z) : outcome nat :=
  if decide (0 ≤ i < Z.of_nat n) then Value (Z.to_nat i)
  else if decide (- Z.of_nat n ≤ i < 0) then Value (Z.to_nat (i + Z.of_nat n))
  else Error IndexError.

(** [row[start:] += 1] *)
Definition add_from (start : nat) (row : list Z) : list Z :=
  take start row ++ ((λ v, v + 1) <$> drop start row).

(** Lines 476-477. *)
Definition initial (beam_size : Z) : outcome tally :=
  if beam_size <? 0 then Error ValueError
  else Value {| overall_result := replicate (Z.to_nat beam_size) [0; 0];
                depth_hit := replicate 2 (replicate 15 (replicate (Z.to_nat beam_size) 0)) |}.

(** Lines 480-484, for the result [(max_depth, rank)] of a task. *)
Definition record (st : tally) (result : Z * option nat) : outcome tally :=
  let overall := alter (λ v, v + 1) 1%nat <$> overall_result st in
  run d <- axis_index 15 result.1;
  let hit := alter (alter (add_from 0) d) 1%nat (depth_hit st) in
  match result.2 with
  | None => Value {| overall_result := overall; depth_hit := hit |}
  | Some rank =>
      Value {| overall_result :=
                 take rank overall ++ (alter (λ v, v + 1) 0%nat <$> drop rank overall);
               depth_hit := alter (alter (add_from rank) d) 0%nat hit |}
  end.

(** Lines 476-484, for the results of the tasks in their order. *)
Definition report (beam_size : Z) (results : list (Z * option nat)) : outcome tally :=
  run st <- initial beam_size;
  loop record results st.

Section report.
Context `{SearchEnv}.

(** Lines 478-484: the loop over the tasks.  A task whose search raises ends
    the script. *)
Fixpoint main_loop (fuel : nat) (tasks : list task) (st : tally) : option (outcome tally) :=
  match tasks with
  | [] => Some (Value st)
  | t :: rest =>
      match get_route_result fuel t with
      | None => None
      | Some (Raise _) => Some (Error IndexError)
      | Some (Ok result) =>
          match record st result with
          | Value st' => main_loop fuel rest st'
          | Error e => Some (Error e)
          end
      end
  end.

(** The search of the task found a route that matches the ground truth. *)
Definition solved (fuel : nat) (t : task) : Prop :=
  match get_route_result fuel t with
  | Some (Ok result) => is_Some result.2
  | _ => False
  end.

#[global] Instance solved_dec (fuel : nat) (t : task) : Decision (solved fuel t).
Proof. unfold solved. destruct (get_route_result fuel t) as [[result|]|]; apply _. Defined.

End report.

(** *** Vocabulary of the statements about the report *)

(** The results with a rank of at most [k]; the results at the row [d] of
    [depth_hit]. *)
Definition within (k : nat) (result : Z * option nat) : Prop :=
  match result.2 with Some rank => (rank ≤ k)%nat | None => False end.

Definition at_depth (d : nat) (result : Z * option nat) : Prop :=
  axis_index 15 result.1 = Value d.

#[global] Instance within_dec (k : nat) (result : Z * option nat) : Decision (within k result).
Proof. unfold within. destruct result.2; apply _. Defined.

#[global] Instance error_eq_dec : EqDecision error.
Proof. solve_decision. Defined.

#[global] Instance outcome_nat_eq_dec : EqDecision (outcome nat).
Proof. solve_decision. Defined.

#[global] Instance at_depth_dec (d : nat) (result : Z * option nat)
  : Decision (at_depth d result).
Proof. unfold at_depth. apply _. Defined.

(** The counter [depth_hit[a, d, k]]. *)
Definition counter (st : tally) (a d k : nat) : option Z :=
  match depth_hit st !! a with
  | Some table => match table !! d with Some row => row !! k | None => None end
  | None => None
  end.

(** The number of elements of a list that have a property. *)
Definition count {A} (P : A → Prop) `{∀ x, Decision (P x)} (l : list A) : Z :=
  Z.of_nat (length (filter P l)).

End Report.

(** ** The functions around RDKit: fingerprints, canonical forms, the data set *)

Module Chem.

Import Outcome.

(** A bit vector of RDKit: [GetNumBits()] and [GetOnBits()]. *)
Record bitvect := { num_bits : nat; on_bits : list nat }.

(** RDKit as the script calls it.  A function of RDKit may raise; the parsers
    return [None] for a string that does not parse.  [clear_atom_maps] stands
    for the loop of line 110 over the atoms of a molecule. *)
Class RDKit := {
  mol : Type;
  MolFromSmiles : string → outcome (option mol);
  MolFromInchi : string → outcome (option mol);
  MolToInchi : mol → outcome string;
  MolToSmiles : mol → outcome string;
  RemoveHs : mol → outcome (option mol);
  clear_atom_maps : mol → outcome mol;
  GetMorganFingerprintAsBitVect : mol → Z → Z → outcome bitvect;
}.

(** [None] handed to a function of RDKit that wants a molecule. *)
Definition some_mol {A} (m : option A) : outcome A :=
  match m with
  | Some x => Value x
  | None => Error ArgumentError
  end.

(** [try: body except: handler] *)
Definition catch {A} (body handler : outcome A) : outcome A :=
  match body with
  | Value a => Value a
  | Error _ => handler
  end.

(** [arr[onbits] = 1]: every index is checked before anything is written. *)
Definition set_bits (arr : list bool) (onbits : list nat) : outcome (list bool) :=
  if decide (Forall (λ i, i < length arr)%nat onbits)
  then Value (foldl (λ a i, <[i := true]> a) arr onbits)
  else Error IndexError.

(** [np.packbits(arr)]: eight bits to a byte, the first bit the highest, the
    last byte filled up with zeros. *)
Definition byte_of (chunk : list bool) : Z :=
  foldl (λ acc b, 2 * acc + Z.b2z b) 0 (chunk ++ replicate (8 - length chunk) false).

Definition packbits (arr : list bool) : list Z :=
  (λ k, byte_of (take 8 (drop (8 * k) arr))) <$> seq 0 ((length arr + 7) / 8).

(** A tree of the data set and the entry of a target: the trees are under the
    keys ["1"], ["2"], ...; the other keys of the JSON objects are taken to be
    there, with values of the types the script expects. *)
Record tree := { retro_routes : list (list string); materials : list string }.

Record reaction_trees := {
  trees : gmap string tree;
  num_reaction_trees : Z;
  depth_of_trees : Z;
}.

Section chem.
Context `{RDKit}.

(** Lines 57-68.  [np.bool] is taken to be the type of booleans, as it is in
    the versions of NumPy that have the name. *)
Definition smiles_to_fp (s : string) (fp_dim : Z) (pack : bool) : outcome (list Z) :=
  run parsed <- MolFromSmiles s;
  run m <- some_mol parsed;
  run fp <- GetMorganFingerprintAsBitVect m 2 fp_dim;
  run arr <- set_bits (replicate (num_bits fp) false) (on_bits fp);
  Value (if pack then packbits arr else Z.b2z <$> arr).

(** Lines 102-113. *)
Definition cano_smiles (smiles : string) : outcome (option mol * string) :=
  catch
    (run tmp <- MolFromSmiles smiles;
     match tmp with
     | None => Value (None, smiles)
     | Some tmp =>
         run tmp <- RemoveHs tmp;
         match tmp with
         | None => Value (None, smiles)
         | Some tmp =>
             run tmp <- clear_atom_maps tmp;
             run printed <- MolToSmiles tmp;
             Value (Some tmp, printed)
         end
     end)
    (Value (None, smiles)).

(** [reaction_trees[key]] *)
Definition get_tree (rt : reaction_trees) (key : string) : outcome tree :=
  match trees rt !! key with
  | Some t => Value t
  | None => Error (KeyError key)
  end.

(** [t['retro_routes'][0][0]] *)
Definition first_reaction (t : tree) : outcome string :=
  match retro_routes t with
  | [] => Error IndexError
  | route :: _ =>
      match route with
      | [] => Error IndexError
      | reaction :: _ => Value reaction
      end
  end.

(** Lines 220-221: [str(i)] is the decimal form of [i]. *)
Definition materials_of (rt : reaction_trees) (materials_list : list (list string)) (i : Z)
    : outcome (list (list string)) :=
  run t <- get_tree rt (pretty i);
  Value (materials_list ++ [materials t]).

(** Lines 215-226: the body of the loop over the entries of the data set. *)
Definition load_entry (rt : reaction_trees) : outcome task :=
  run t1 <- get_tree rt "1";
  run reaction <- first_reaction t1;
  match Py.split ">" reaction with
  | [] => Error IndexError
  | product :: _ =>
      run parsed <- MolFromSmiles product;
      run m <- some_mol parsed;
      run inchi <- MolToInchi m;
      run product_mol <- MolFromInchi inchi;
      run pm <- some_mol product_mol;
      run product <- MolToSmiles pm;
      run cano <- cano_smiles product;
      run materials_list <-
        loop (materials_of rt) ((λ i, i + 1) <$> Py.range (num_reaction_trees rt)) [];
      Value {| product := cano.2; targets := materials_list;
               task_depth := depth_of_trees rt |}
  end.

(** Lines 208-228, from the parsed file on: the entries in their order. *)
Definition load_dataset (dataset : list (string * reaction_trees)) : outcome (list task) :=
  loop (λ acc entry, run t <- load_entry entry.2; Value (acc ++ [t])) dataset [].

End chem.
End Chem.

(** ** The value model: lines 23-54 *)

Module Value.

Section layers.
Context {rate : Type}.

(** The modules that [ValueMLP.__init__] puts into [nn.Sequential]. *)
Inductive layer :=
| Linear (in_features out_features : Z)
| ReLU
| Dropout (p : rate).

(** Lines 33-45. *)
Definition layers (n_layers fp_dim latent_dim : Z) (dropout_rate : rate) : list layer :=
  [Linear fp_dim latent_dim; ReLU; Dropout dropout_rate]
  ++ mjoin ((λ _, [Linear latent_dim latent_dim; ReLU; Dropout dropout_rate])
              <$> Py.range (n_layers - 1))
  ++ [Linear latent_dim 1].

(** The width of the output of a stack of layers on an input of the width
    [width]; a [Linear] layer wants an input of its [in_features]. *)
Fixpoint output_width (width : Z) (stack : list layer) : option Z :=
  match stack with
  | [] => Some width
  | Linear in_features out_features :: rest =>
      if decide (in_features = width) then output_width out_features rest else None
  | _ :: rest => output_width width rest
  end.

End layers.
End Value.

(** ** Small instances of the inputs *)

Module Toy.

(** A vocabulary of six symbols. *)
Definition vocabulary : Inputs.Vocabulary :=
  {| Inputs.char_to_ix :=
       list_to_map [("^"%char, 1); ("$"%char, 2); ("C"%char, 3); ("O"%char, 4);
                    ("."%char, 5); ("T"%char, 6)] |}.

(** A predictor with rows of length 6, whose logits are all [0]. *)
Definition predictor : @Inputs.Predictor Example.int_scores vocabulary :=
  @Inputs.Build_Predictor Example.int_scores vocabulary
    6                                        (* max_length *)
    (λ _, replicate 6 [0; 0; 0; 0; 0; 0])    (* predict_model *)
    (λ row, row).                            (* softmax *)

(** An RDKit whose molecules are their strings: every string but [""] and
    ["?"] parses, a molecule prints as itself, [RemoveHs] raises on ["X"],
    and every fingerprint has the on bits 1 and 9. *)
Definition toy_parse (s : string) : Outcome.outcome (option string) :=
  Outcome.Value (if decide (s = "" ∨ s = "?") then None else Some s).

Definition rdkit : Chem.RDKit :=
  {| Chem.mol := string;
     Chem.MolFromSmiles := toy_parse;
     Chem.MolFromInchi := toy_parse;
     Chem.MolToInchi := λ m, Outcome.Value m;
     Chem.MolToSmiles := λ m, Outcome.Value m;
     Chem.RemoveHs := λ m, if decide (m = "X") then Outcome.Error Outcome.ValueError
                           else Outcome.Value (Some m);
     Chem.clear_atom_maps := λ m, Outcome.Value m;
     Chem.GetMorganFingerprintAsBitVect :=
       λ _ _ nBits, Outcome.Value {| Chem.num_bits := Z.to_nat nBits;
                                     Chem.on_bits := [1; 9]%nat |} |}.

(** An entry of the data set with two trees. *)
Definition entry : Chem.reaction_trees :=
  {| Chem.trees :=
       {[ "1"%string := {| Chem.retro_routes := [["T>0.9>A.M"; "M>0.8>B"]];
                           Chem.materials := ["A"; "B"] |};
          "2"%string := {| Chem.retro_routes := [["T>0.5>C"]];
                           Chem.materials := ["C"] |} ]}%string;
     Chem.num_reaction_trees := 2;
     Chem.depth_of_trees := 2 |}.

End Toy.

(** ** The script with the exceptions of its inputs

    The first model takes the step predictor and the reward model as total
    functions.  In the script they stand behind [get_output_probs] and
    [convert_symbols_to_inputs_reward], which raise for a string that does not
    fit a row or has a symbol that [char_to_ix] does not know.  This second
    model of [get_beam] and of [get_route_result] calls them as the script
    does; what it does after the tables are made is the first model. *)

Module Script.

Import Outcome.

(** An outcome of the first model, as an outcome of the script. *)
Definition of_res {A} (r : res A) : outcome A :=
  match r with
  | Ok a => Value a
  | Raise _ => Error IndexError
  end.

(** The globals of [get_beam] besides those of [get_output_probs]:
    [vocab_size], [ix_to_char] and RDKit's parser and printer. *)
Class Symbols `{Inputs.Predictor} := {
  vocab_size : Z;
  ix_to_char : Z → string;
  mol : Type;
  MolFromSmiles : string → option mol;
  MolToSmiles : mol → string;
}.

Section decoder.
Context `{Symbols}.

(** The globals as the first model of the decoder takes them: the entry [j]
    of the distribution that [get_output_probs] returns, where it returns
    one. *)
Definition view : Decoder.DecoderEnv :=
  {| Decoder.mol := mol;
     Decoder.max_length := Inputs.max_length;
     Decoder.vocab_size := vocab_size;
     Decoder.ix_to_char := ix_to_char;
     Decoder.get_output_probs :=
       λ product res j,
         match Inputs.get_output_probs product res with
         | Value prob => default s0 (prob !! Z.to_nat j)
         | Error _ => s0
         end;
     Decoder.MolFromSmiles := MolFromSmiles;
     Decoder.MolToSmiles := MolToSmiles |}.

#[local] Existing Instance view.

(** [prob[j]], for an index that is not negative. *)
Definition entry (prob : list score) (j : Z) : outcome score :=
  match prob !! Z.to_nat j with
  | Some p => Value p
  | None => Error IndexError
  end.

(** [torch.zeros((rows, 2))]: only whether it can be made. *)
Definition table_of_size (rows : Z) : outcome unit :=
  if rows <? 0 then Error RuntimeError else Value ().

(** Lines 141-145: the rows are written in their order. *)
Definition first_rows (product : string) : outcome (list (score * Z)) :=
  run prob <- Inputs.get_output_probs product "";
  run _ <- table_of_size vocab_size;
  loop (λ result i, run p <- entry prob i; Value (result ++ [(neg_log10 p, i)]))
    (Py.range vocab_size) [].

(** Lines 150-153, for the line [i]. *)
Definition rows_of_line (product : string) (result : list (score * Z))
    (ib : nat * (string * score)) : outcome (list (score * Z)) :=
  run prob <- Inputs.get_output_probs product ib.2.1;
  loop (λ result j, run p <- entry prob j;
                    Value (result ++ [(sadd (neg_log10 p) ib.2.2,
                                       Decoder.pack (Z.of_nat ib.1) j)]))
    (Py.range vocab_size) result.

(** Lines 147-153. *)
Definition beam_rows (product : string) (lines : Decoder.beam)
    : outcome (list (score * Z)) :=
  run _ <- table_of_size (Z.of_nat (length lines) * vocab_size);
  loop (rows_of_line product) (imap pair lines) [].

(** One pass of the body of [for step in range(args.max_length)]: the table
    is made before the beam is found empty. *)
Definition beam_step (product : string) (step : Z) (st : Decoder.beam_state)
    : outcome (Decoder.beam_state * bool) :=
  run result <- (if decide (step = 0) then first_rows product
                 else beam_rows product (Decoder.lines st));
  let ranked_result := Decoder.ranked result in
  if decide (length (Decoder.lines st) = 0%nat) then Value (st, true)
  else
    run acc <- of_res (Decoder.select (Decoder.lines st) ranked_result
                         (Decoder.st_final_beams st) (Decoder.st_object_size st));
    Value ({| Decoder.lines := Decoder.new_beams acc;
              Decoder.st_final_beams := Decoder.final_beams acc;
              Decoder.st_object_size := Decoder.object_size acc |},
           bool_decide (length (Decoder.new_beams acc) = 0%nat)).

Fixpoint beam_loop (product : string) (steps : list Z) (st : Decoder.beam_state)
    : outcome Decoder.beam_state :=
  match steps with
  | [] => Value st
  | step :: steps' =>
      run r <- beam_step product step st;
      if r.2 then Value r.1 else beam_loop product steps' r.1
  end.

(** Lines 129-205. *)
Definition get_beam (product : string) (beam_size : Z)
    : outcome (list (list string * score)) :=
  run st <- beam_loop product (Py.range Inputs.max_length)
              (Decoder.initial beam_size);
  Value (Decoder.collect (Decoder.ranked_finished (Decoder.st_final_beams st)) [] beam_size).

(** The step model gives a row for each of the [max_length] positions, and
    the distribution made of a row has an entry for every symbol. *)
Definition well_shaped : Prop :=
  ∀ x, (Z.to_nat Inputs.max_length ≤ length (Inputs.predict_model x))%nat ∧
       ∀ row, row ∈ Inputs.predict_model x →
              (Z.to_nat vocab_size ≤ length (Inputs.softmax row))%nat.

(** What the second model needs of the symbols and of a product so that no
    call of [get_output_probs] raises: the symbols of the vocabulary are single
    characters and keys of [char_to_ix], as the start symbol is, and the
    product fits a row. *)
Definition fitting (product : string) : Prop :=
  (∀ j, String.length (ix_to_char j) = 1%nat) ∧
  (∀ j, Inputs.known (ix_to_char j)) ∧
  Inputs.known "^" ∧
  Inputs.known ("^" +:+ product +:+ "$") ∧
  Z.of_nat (String.length product) + 2 ≤ Inputs.max_length.

End decoder.

Section search.
Context `{SearchEnv} `{!Inputs.Vocabulary}.

(** Lines 260-292: the arrays are made, then the reward model gives its
    numbers. *)
Definition get_rerank_scores (input_list output_list : list string) : outcome (list score) :=
  run _ <- Inputs.rerank_inputs input_list output_list;
  Value (get_rerank_scores input_list output_list).

(** Lines 378-382. *)
Definition rerank (d : dedup_state) : outcome (list ranked_answer) :=
  run rerank_scores <- get_rerank_scores (rerank_input_list d) (rerank_output_list d);
  Value (Py.slice_to beam_size
           (Py.sorted total_score slt
              (zip_with with_rerank (final_answer_set d) rerank_scores))).

(** Lines 305-396. *)
Definition get_route_result (fuel : nat) (t : task) : option (outcome (Z * option nat)) :=
  match search fuel t with
  | None => None
  | Some r =>
      Some (run st <- of_res r;
            run final <- rerank (dedup t (answer_set st));
            Value (evaluate t final))
  end.

End search.
End Script.

(** ** Small instances of the second model *)

Module ToyScript.

(** The step model of [Example.toy_decoder]: rows of length 4, and at every
    position the costs of the four symbols [C], [O], [.] and [$]; the end
    symbol costs 5 at the start and 1 later. *)
Definition predictor : @Inputs.Predictor Example.int_scores Toy.vocabulary :=
  @Inputs.Build_Predictor Example.int_scores Toy.vocabulary
    4                                                (* max_length *)
    (λ _, [2; 3; 4; 5] :: replicate 3 [2; 3; 4; 1])  (* predict_model *)
    (λ row, row).                                    (* softmax *)

Definition symbols : @Script.Symbols Example.int_scores Toy.vocabulary predictor :=
  @Script.Build_Symbols Example.int_scores Toy.vocabulary predictor
    4                     (* vocab_size *)
    Example.toy_symbol    (* ix_to_char *)
    string                (* mol *)
    Example.toy_parse     (* MolFromSmiles *)
    (λ m, m).             (* MolToSmiles *)

(** A vocabulary for the molecules of [Example.two_steps]. *)
Definition letters : Inputs.Vocabulary :=
  {| Inputs.char_to_ix :=
       list_to_map [("^"%char, 1); ("$"%char, 2); ("."%char, 3); ("A"%char, 4);
                    ("B"%char, 5); ("M"%char, 6); ("T"%char, 7)] |}.

(** A vocabulary without the symbol [B]. *)
Definition no_B : Inputs.Vocabulary :=
  {| Inputs.char_to_ix :=
       list_to_map [("^"%char, 1); ("$"%char, 2); ("."%char, 3); ("A"%char, 4);
                    ("M"%char, 6); ("T"%char, 7)] |}.

End ToyScript.

(** * Properties *)

(** ** The run-time helpers *)

(** The helpers on the values Python gives. *)
Example sorted_is_stable :
  Py.sorted fst Z.ltb [(2, "a"); (1, "b"); (2, "c"); (1, "d")]%string
  = [(1, "b"); (1, "d"); (2, "a"); (2, "c")]%string.
Proof. reflexivity. Qed.

Example sorted_str_by_code_point :
  Py.sorted_str ["b"; "B"; "a"; "C"]%string = ["B"; "C"; "a"; "b"]%string.
Proof. reflexivity. Qed.

Example split_keeps_empty_fragments :
  Py.split "."%char "CC.O..N$"%string = ["CC"; "O"; ""; "N$"]%string
  ∧ Py.split "."%char EmptyString = [EmptyString].
Proof. split; reflexivity. Qed.

Example join_with_dot :
  Py.join "." ["A"; "B"; "C"]%string = "A.B.C"%string ∧ Py.join "." [] = EmptyString.
Proof. split; reflexivity. Qed.

Example slice_to_negative :
  Py.slice_to 2 [1; 2; 3] = [1; 2] ∧ Py.slice_to 5 [1; 2; 3] = [1; 2; 3]
  ∧ Py.slice_to (-1) [1; 2; 3] = [1; 2] ∧ Py.slice_to (-5) [1; 2; 3] = [].
Proof. repeat split; reflexivity. Qed.

(** The whole of [get_route_result] on the two-step instance: the one route
    [A, B] is found in the second round and matches the ground truth at
    rank 0. *)
Example two_steps_result :
  @get_route_result Example.int_scores
    (Example.stub_env 5 Example.AB_stock Example.two_steps) 5 (Example.some_task 3)
  = Some (Ok (3, Some 0%nat)).
Proof. vm_compute. reflexivity. Qed.

(** The toy decoder with a beam of two: both finished strings are usable. *)
Example toy_decoder_result :
  @Decoder.get_beam Example.int_scores Example.toy_decoder "T" 2
  = Ok [(["C"], 1); (["CC"], 1)]%string.
Proof. vm_compute. reflexivity. Qed.

Section py_facts.
Context {A K : Type} (key : A → K) (lt : K → K → bool).

Lemma insert_sorted_perm (x : A) (l : list A) : Py.insert_sorted key lt x l ≡ₚ x :: l.
Proof.
  induction l as [|y l IH]; simpl; [done|].
  destruct (lt (key y) (key x)); [|done].
  rewrite IH. apply Permutation_swap.
Qed.

Lemma sorted_perm (l : list A) : Py.sorted key lt l ≡ₚ l.
Proof.
  induction l as [|x l IH]; simpl; [done|].
  by rewrite insert_sorted_perm, IH.
Qed.

Lemma sorted_length (l : list A) : length (Py.sorted key lt l) = length l.
Proof. by rewrite sorted_perm. Qed.

Lemma elem_of_sorted (x : A) (l : list A) : x ∈ Py.sorted key lt l ↔ x ∈ l.
Proof. by rewrite sorted_perm. Qed.

Hypothesis lt_asym : ∀ x y, lt x y = true → lt y x = false.
Hypothesis lt_negtrans : ∀ x y z, lt x y = false → lt y z = false → lt x z = false.

Lemma insert_sorted_ascending (x : A) (l : list A) :
  StronglySorted (Py.ascending key lt) l → StronglySorted (Py.ascending key lt) (Py.insert_sorted key lt x l).
Proof.
  induction 1 as [|y l Hl IH Hy]; simpl.
  - repeat constructor.
  - destruct (lt (key y) (key x)) eqn:E.
    + constructor; [done|].
      rewrite Forall_forall. intros z Hz.
      rewrite insert_sorted_perm in Hz. apply elem_of_cons in Hz as [->|Hz].
      * by apply lt_asym.
      * by eapply Forall_forall in Hy.
    + constructor; [by constructor|].
      constructor; [done|].
      eapply Forall_impl; [exact Hy|]. intros z Hz. unfold Py.ascending in *.
      destruct (lt (key z) (key x)) eqn:E'; [|done].
      assert (lt (key z) (key y) = false) as Hzy by exact Hz.
      pose proof (lt_negtrans _ _ _ Hzy E). congruence.
Qed.

Lemma sorted_ascending (l : list A) : StronglySorted (Py.ascending key lt) (Py.sorted key lt l).
Proof.
  induction l as [|x l IH]; simpl; [constructor|].
  by apply insert_sorted_ascending.
Qed.

End py_facts.

Lemma slice_to_take {A} (n : Z) (l : list A) :
  0 ≤ n → Py.slice_to n l = take (Z.to_nat n) l.
Proof. intros Hn. unfold Py.slice_to. destruct (Z.ltb_spec n 0); [lia|done]. Qed.

Lemma slice_to_sublist {A} (n : Z) (l : list A) : sublist (Py.slice_to n l) l.
Proof. unfold Py.slice_to. destruct (n <? 0); apply sublist_take. Qed.

Lemma slice_to_length {A} (n : Z) (l : list A) :
  0 ≤ n → length (Py.slice_to n l) = Nat.min (Z.to_nat n) (length l).
Proof. intros Hn. rewrite slice_to_take by done. apply length_take. Qed.

Lemma elem_of_range (n x : Z) : x ∈ Py.range n ↔ 0 ≤ x < n.
Proof.
  unfold Py.range. rewrite list_elem_of_fmap. split.
  - intros (k & -> & Hk). apply elem_of_seq in Hk. lia.
  - intros Hx. exists (Z.to_nat x). split; [lia|]. apply elem_of_seq. lia.
Qed.

Lemma length_range (n : Z) : length (Py.range n) = Z.to_nat n.
Proof. unfold Py.range. by rewrite length_fmap, length_seq. Qed.

Lemma lookup_range (n : Z) (i : nat) (x : Z) :
  Py.range n !! i = Some x ↔ x = Z.of_nat i ∧ (i < Z.to_nat n)%nat.
Proof.
  unfold Py.range. rewrite list_lookup_fmap. split.
  - intros Hx. destruct (seq 0 (Z.to_nat n) !! i) as [k|] eqn:E; simplify_eq/=.
    apply lookup_seq in E as [-> ?]. done.
  - intros [-> Hi]. by rewrite (lookup_seq_lt 0 (Z.to_nat n) i Hi).
Qed.

(** Outcomes of a loop. *)
Lemma for_each_app {A S} (body : S → A → res S) (l1 l2 : list A) (s : S) :
  for_each body (l1 ++ l2) s = res_bind (for_each body l1 s) (for_each body l2).
Proof.
  revert s. induction l1 as [|x l1 IH]; intros s; simpl; [done|].
  destruct (body s x); simpl; auto.
Qed.

Lemma for_each_invariant {A S} (body : S → A → res S) (P : S → Prop) (l : list A) (s s' : S) :
  (∀ s x s', x ∈ l → P s → body s x = Ok s' → P s') →
  P s → for_each body l s = Ok s' → P s'.
Proof.
  revert s. induction l as [|x l IH]; intros s Hbody Hs Hrun; simpl in *.
  - by simplify_eq.
  - destruct (body s x) as [s1|] eqn:E; simpl in Hrun; try done.
    eapply IH; [|by eapply (Hbody s x s1); [left|..]|done].
    intros ???? ; apply Hbody. by right.
Qed.

(** ** One expansion step *)

Section expansion.
Context `{SearchEnv}.

Lemma check_reactants_forall (reactants : list string) :
  check_reactants_are_material reactants = true ↔
  Forall (λ r, check_reactant_is_material r = true) reactants.
Proof.
  induction reactants as [|r rs IH]; simpl.
  - split; [constructor|done].
  - rewrite Forall_cons, <- IH. unfold check_reactant_is_material.
    destruct (decide (inchikey14 r ∈ stock_inchikeys)) as [Hin|Hout].
    + rewrite bool_decide_eq_false_2 by (intros ?; done).
      rewrite bool_decide_eq_true_2 by done. tauto.
    + rewrite bool_decide_eq_true_2 by done.
      rewrite bool_decide_eq_false_2 by done. intuition congruence.
Qed.

Lemma check_reactants_sorted (reactants : list string) :
  check_reactants_are_material (Py.sorted_str reactants)
  = check_reactants_are_material reactants.
Proof.
  apply eq_true_iff_eq. rewrite !check_reactants_forall.
  unfold Py.sorted_str. by rewrite sorted_perm.
Qed.

Lemma partition_fold (first : route_info) (reactants : list string) (acc : partition) :
  fold_left (partition_step first) reactants acc =
  {| estimation_cost :=
       fold_left sadd (value_fn <$> non_purchasable reactants) (estimation_cost acc);
     iter_starting_materials := iter_starting_materials acc ++ purchasable reactants;
     iter_routes := reverse (branch first <$> non_purchasable reactants) ++ iter_routes acc |}.
Proof.
  revert acc. induction reactants as [|r rs IH]; intros acc; simpl.
  - rewrite app_nil_r. by destruct acc.
  - rewrite IH. unfold partition_step, purchasable, non_purchasable.
    rewrite !filter_cons.
    destruct (check_reactant_is_material r) eqn:E; simpl.
    + by rewrite <- app_assoc.
    + rewrite reverse_cons, <- app_assoc. done.
Qed.

Lemma purchasable_split (reactants : list string) :
  purchasable reactants ++ non_purchasable reactants ≡ₚ reactants.
Proof.
  unfold purchasable, non_purchasable.
  induction reactants as [|r rs IH]; [done|].
  rewrite !filter_cons. destruct (check_reactant_is_material r); simpl.
  - by rewrite IH.
  - rewrite <- Permutation_middle. by rewrite IH.
Qed.

End expansion.

Section expansion_cases.
Context `{SearchEnv}.

(** C5.  A node with exactly one pending branch, expanded with a candidate
    whose reactants are all in stock: the next answer set is the old one with
    one route appended, whose score is [node.score + step_cost -
    value(head molecule)] and whose materials are the node's followed by the
    (sorted) reactants, as a set the union of the two; the candidate pool is
    left as it is. *)
Theorem terminal_case_emits_route (it : item) (first : route_info) (expansion_mol : string)
    (st : engine_state) (reactants : list string) (step_cost : score) :
  routes_info it = [first] →
  Forall (λ r, check_reactant_is_material r = true) reactants →
  let a := {| answer_score := ssub (sadd (item_score it) step_cost) (value_fn expansion_mol);
              answer_materials := starting_materials it ++ Py.sorted_str reactants |} in
  expand_solution it first expansion_mol st (reactants, step_cost)
    = {| answer_set := answer_set st ++ [a];
         nxt_queue := nxt_queue st;
         log := log st ++ [Emit first a] |}
  ∧ (list_to_set (answer_materials a) : gset string)
    = list_to_set (starting_materials it) ∪ list_to_set reactants.
Proof.
  intros Hone Hstock a. split.
  - unfold expand_solution. rewrite Hone. simpl.
    rewrite check_reactants_sorted.
    apply check_reactants_forall in Hstock. by rewrite Hstock.
  - subst a. simpl. rewrite list_to_set_app_L. f_equal.
    apply set_eq. intros x. rewrite !elem_of_list_to_set.
    unfold Py.sorted_str. by rewrite elem_of_sorted.
Qed.

(** C6.  Any other expansion (a reactant is not in stock, or another branch
    is pending): the answer set is left as it is and one child is appended to
    the candidate pool.  With [R] the sorted reactants, the child's materials
    are the node's followed by the purchasable part of [R]; its pending list
    is the node's without the head, with one branch per non-purchasable
    reactant put in front of it one after the other (so the last of them
    comes first), each with path [head.path + [reactant]] and depth
    [head.depth + 1]; its score is [node.score + step_cost + sum of the
    values of the non-purchasable reactants - value(head molecule)]. *)
Theorem non_terminal_case_builds_child (it : item) (first : route_info) (expansion_mol : string)
    (st : engine_state) (reactants : list string) (step_cost : score) :
  ¬ Forall (λ r, check_reactant_is_material r = true) reactants ∨ tail (routes_info it) ≠ [] →
  let R := Py.sorted_str reactants in
  let child :=
    {| item_score := ssub (sadd (sadd (item_score it) step_cost)
                                (total (value_fn <$> non_purchasable R)))
                          (value_fn expansion_mol);
       routes_info := reverse (branch first <$> non_purchasable R) ++ tail (routes_info it);
       starting_materials := starting_materials it ++ purchasable R |} in
  expand_solution it first expansion_mol st (reactants, step_cost)
    = {| answer_set := answer_set st; nxt_queue := nxt_queue st ++ [child]; log := log st |}
  ∧ purchasable R ++ non_purchasable R ≡ₚ reactants
  ∧ Forall (λ b, ∃ r, r ∈ non_purchasable R ∧
               route b = route first ++ [r] ∧ depth b = depth first + 1)
      (branch first <$> non_purchasable R).
Proof.
  intros Hcase R child. split; [|split].
  - unfold expand_solution. simpl.
    assert (check_reactants_are_material (Py.sorted_str reactants)
            && bool_decide (length (tail (routes_info it)) = 0%nat) = false) as ->.
    { apply andb_false_iff. destruct Hcase as [Hno|Hrest].
      - left. rewrite check_reactants_sorted.
        destruct (check_reactants_are_material reactants) eqn:E; [|done].
        by apply check_reactants_forall in E.
      - right. apply bool_decide_eq_false_2. by destruct (tail (routes_info it)). }
    by rewrite partition_fold.
  - rewrite purchasable_split. apply sorted_perm.
  - rewrite Forall_fmap. apply Forall_forall. intros r Hr. by exists r.
Qed.

End expansion_cases.

(** ** Invariants of the search *)

Lemma fold_left_invariant {A S} (f : S → A → S) (P : S → Prop) (l : list A) (s : S) :
  (∀ s x, x ∈ l → P s → P (f s x)) → P s → P (fold_left f l s).
Proof.
  revert s. induction l as [|x l IH]; intros s Hf Hs; simpl; [done|].
  apply IH.
  - intros ????. apply Hf; [by right|done].
  - apply Hf; [by left|done].
Qed.

Section invariants.
Context `{SearchEnv}.

Lemma non_purchasable_nil (reactants : list string) :
  non_purchasable reactants = [] → check_reactants_are_material reactants = true.
Proof.
  intros Hnil. apply check_reactants_forall.
  induction reactants as [|r rs IH]; [constructor|].
  unfold non_purchasable in *. rewrite filter_cons in Hnil.
  destruct (check_reactant_is_material r) eqn:E; simpl in Hnil; [|done].
  constructor; auto.
Qed.

(** The two shapes of the state after a candidate is processed. *)
Lemma expand_solution_effect (it : item) (first : route_info) (expansion_mol : string)
    (st : engine_state) (sol : list string * score) :
  let R := Py.sorted_str sol.1 in
  (∃ a, expand_solution it first expansion_mol st sol
        = {| answer_set := answer_set st ++ [a]; nxt_queue := nxt_queue st;
             log := log st ++ [Emit first a] |})
  ∨ ((non_purchasable R ≠ [] ∨ tail (routes_info it) ≠ []) ∧
     expand_solution it first expansion_mol st sol
     = {| answer_set := answer_set st;
          nxt_queue := nxt_queue st ++
            [{| item_score := ssub (sadd (sadd (item_score it) sol.2)
                                         (total (value_fn <$> non_purchasable R)))
                                   (value_fn expansion_mol);
                routes_info := reverse (branch first <$> non_purchasable R)
                               ++ tail (routes_info it);
                starting_materials := starting_materials it ++ purchasable R |}];
          log := log st |}).
Proof.
  intros R. unfold expand_solution.
  destruct (check_reactants_are_material (Py.sorted_str sol.1)
            && bool_decide (length (tail (routes_info it)) = 0%nat)) eqn:E.
  - left. eauto.
  - right. split; [|by rewrite partition_fold].
    apply andb_false_iff in E as [E|E].
    + left. intros Hnil. apply non_purchasable_nil in Hnil. subst R. congruence.
    + right. apply bool_decide_eq_false in E. intros Hnil. by rewrite Hnil in E.
Qed.

(** What [expand_item] does when it returns. *)
Lemma expand_item_effect (max_depth : Z) (st st' : engine_state) (it : item) :
  expand_item max_depth st it = Ok st' →
  ∃ first rest, routes_info it = first :: rest ∧
    ((max_depth < depth first ∧ st' = st) ∨
     (depth first ≤ max_depth ∧ ∃ expansion_mol solutions,
        last (route first) = Some expansion_mol ∧
        get_beam expansion_mol beam_size = Ok solutions ∧
        st' = fold_left (expand_solution it first expansion_mol) solutions
                {| answer_set := answer_set st; nxt_queue := nxt_queue st;
                   log := log st ++ [Decode first] |})).
Proof.
  unfold expand_item. destruct (routes_info it) as [|first rest]; [done|].
  intros Hrun. exists first, rest. split; [done|].
  destruct (Z.ltb_spec max_depth (depth first)).
  - left. by simplify_eq.
  - right. split; [done|].
    destruct (last (route first)) as [mol|]; [|done].
    destruct (get_beam mol beam_size) as [sols|] eqn:E; [|done].
    simpl in Hrun. exists mol, sols. by simplify_eq.
Qed.

Lemma emitted_app (l1 l2 : list event) : emitted (l1 ++ l2) = emitted l1 ++ emitted l2.
Proof. unfold emitted. apply omap_app. Qed.

Lemma wf_branch (first : route_info) (r : string) :
  wf_route_info first → wf_route_info (branch first r).
Proof.
  unfold wf_route_info, branch. simpl. intros [? ?].
  rewrite length_app. simpl. lia.
Qed.

Lemma expand_solution_good (max_depth : Z) (it : item) (first : route_info)
    (rest : list route_info) (expansion_mol : string) (st : engine_state)
    (sol : list string * score) :
  routes_info it = first :: rest → wf_item it → depth first ≤ max_depth →
  good max_depth st → good max_depth (expand_solution it first expansion_mol st sol).
Proof.
  intros Hit [_ Hwf] Hd (Hq & Hlog & Hem).
  rewrite Hit in Hwf. apply Forall_cons in Hwf as [Hfirst Hrest].
  destruct (expand_solution_effect it first expansion_mol st sol) as [[a ->]|[Hne ->]];
    unfold good; simpl.
  - split; [done|]. split.
    + apply Forall_app. split; [done|]. constructor; [|constructor]. by split.
    + rewrite emitted_app, Hem. done.
  - split; [|done]. apply Forall_app. split; [done|].
    constructor; [|constructor]. unfold wf_item. simpl. rewrite Hit in *. simpl in *.
    split.
    + intros Hnil. apply app_eq_nil in Hnil as [Hnil ->].
      destruct Hne as [Hne|Hne]; [|done]. apply Hne.
      apply (f_equal reverse) in Hnil. rewrite reverse_involutive in Hnil.
      by apply fmap_nil_inv in Hnil.
    + apply Forall_app. split; [|done].
      rewrite Forall_reverse, Forall_fmap. apply Forall_forall.
      intros r _. by apply wf_branch.
Qed.

Lemma expand_item_good (max_depth : Z) (st st' : engine_state) (it : item) :
  wf_item it → good max_depth st → expand_item max_depth st it = Ok st' → good max_depth st'.
Proof.
  intros Hwf Hgood Hrun.
  apply expand_item_effect in Hrun
    as (first & rest & Hit & [[_ ->]|(Hd & mol & sols & _ & _ & ->)]); [done|].
  apply fold_left_invariant.
  - intros s sol _ Hs. by eapply expand_solution_good.
  - destruct Hgood as (Hq & Hlog & Hem). split; [done|]. simpl. split.
    + apply Forall_app. split; [done|]. constructor; [|constructor].
      split; simpl; [|done].
      destruct Hwf as [_ Hwf]. rewrite Hit in Hwf. by apply Forall_cons in Hwf as [? _].
    + rewrite emitted_app, Hem. simpl. by rewrite app_nil_r.
Qed.

Lemma next_queue_sublist (pool : list item) (it : item) : it ∈ next_queue pool → it ∈ pool.
Proof.
  unfold next_queue. intros Hin.
  eapply elem_of_sublist in Hin; [|apply slice_to_sublist].
  by rewrite elem_of_sorted in Hin.
Qed.

Lemma round_good (max_depth : Z) (queue queue' : list item) (st st' : engine_state) :
  Forall wf_item queue → Forall (event_ok max_depth) (log st) →
  emitted (log st) = answer_set st →
  round max_depth queue st = Ok (queue', st') →
  Forall wf_item queue' ∧ good max_depth st'.
Proof.
  intros Hq Hlog Hem. unfold round.
  destruct (for_each _ _ _) as [s|] eqn:E; [|done]. simpl.
  intros [= <- <-].
  assert (good max_depth s) as Hs.
  { eapply (for_each_invariant _ (good max_depth)); [| |exact E].
    - intros s0 x s1 Hx Hs0. apply expand_item_good; [|done].
      by eapply Forall_forall in Hq.
    - split; [constructor|done]. }
  split; [|done]. apply Forall_forall. intros it Hit.
  apply next_queue_sublist in Hit. destruct Hs as [Hs _].
  by eapply Forall_forall in Hs.
Qed.

Lemma rounds_good (n : nat) (max_depth : Z) (queue queue' : list item) (st st' : engine_state) :
  Forall wf_item queue → Forall (event_ok max_depth) (log st) →
  emitted (log st) = answer_set st →
  rounds n max_depth queue st = Ok (queue', st') →
  Forall wf_item queue' ∧ Forall (event_ok max_depth) (log st') ∧
  emitted (log st') = answer_set st'.
Proof.
  revert queue st. induction n as [|n IH]; intros queue st Hq Hlog Hem; simpl.
  - by intros [= <- <-].
  - destruct queue as [|it queue]; [by intros [= <- <-]|].
    destruct (round max_depth (it :: queue) st) as [[q1 s1]|] eqn:E; [|done]. simpl.
    apply round_good in E as (Hq1 & _ & Hlog1 & Hem1); [|done..].
    by apply IH.
Qed.

Lemma wf_root (t : task) : wf_item (root t).
Proof. split; [done|]. constructor; [|constructor]. by split. Qed.

(** C3.  In every prefix of the search of a task, each call of the decoder
    and each emitted route has a head of depth at most [max_depth], whose path
    has at most [max_depth + 1] molecules; the answer set holds exactly the
    emitted routes; and a node whose head is deeper than [max_depth] leaves the
    state as it is: no decoder call, no child, no answer. *)
Theorem depth_cutoff (t : task) (n : nat) (queue : list item) (st : engine_state) :
  rounds n (task_depth t) [root t] initial_state = Ok (queue, st) →
  Forall (λ e, depth (event_head e) ≤ task_depth t ∧
               Z.of_nat (length (route (event_head e))) ≤ task_depth t + 1) (log st)
  ∧ answer_set st = emitted (log st)
  ∧ ∀ st0 it first rest,
      routes_info it = first :: rest → task_depth t < depth first →
      expand_item (task_depth t) st0 it = Ok st0.
Proof.
  intros Hrun. apply rounds_good in Hrun as (_ & Hlog & Hem).
  - split; [|split; [done|]].
    + eapply Forall_impl; [exact Hlog|]. intros e [[Hd Hlen] Hmax]. lia.
    + intros st0 it first rest Hit Hdeep. unfold expand_item. rewrite Hit.
      destruct (Z.ltb_spec (task_depth t) (depth first)); [done|lia].
  - constructor; [apply wf_root|constructor].
  - constructor.
  - done.
Qed.

End invariants.

(** ** Pruning to the beam width *)

Section pruning.
Context `{SearchEnv}.

Lemma round_queue (max_depth : Z) (queue queue' : list item) (st st' : engine_state) :
  round max_depth queue st = Ok (queue', st') → queue' = next_queue (nxt_queue st').
Proof.
  unfold round. destruct (for_each _ _ _) as [s|]; [|done]. simpl. by intros [= <- <-].
Qed.

Lemma next_queue_length (pool : list item) :
  0 ≤ beam_size → length (next_queue pool) = Nat.min (Z.to_nat beam_size) (length pool).
Proof.
  intros HB. unfold next_queue. by rewrite slice_to_length, sorted_length.
Qed.

Lemma rounds_frontier (n : nat) (max_depth : Z) (queue queue' : list item)
    (st st' : engine_state) :
  1 ≤ beam_size → Z.of_nat (length queue) ≤ beam_size →
  rounds n max_depth queue st = Ok (queue', st') →
  Z.of_nat (length queue') ≤ beam_size.
Proof.
  intros HB. revert queue st. induction n as [|n IH]; intros queue st Hlen; simpl.
  - by intros [= <- <-].
  - destruct queue as [|it queue]; [by intros [= <- <-]|].
    destruct (round max_depth (it :: queue) st) as [[q1 s1]|] eqn:E; [|done]. simpl.
    apply IH. apply round_queue in E as ->.
    rewrite next_queue_length by lia. lia.
Qed.

(** C7.  For a beam width [B >= 1]: the queue a round hands to the next one
    is the front of the round's candidate pool sorted by score, of length
    [min(B, pool size)]; it is in ascending order of score and none of the
    nodes left out has a lower score than any node kept.  Hence the queue at
    the start of every round of a search holds at most [B] nodes. *)
Theorem beam_pruning `{!ScoreOrder} :
  1 ≤ beam_size →
  (∀ max_depth queue st queue' st',
     round max_depth queue st = Ok (queue', st') →
     ∃ dropped,
       queue' ++ dropped = Py.sorted item_score slt (nxt_queue st') ∧
       queue' ++ dropped ≡ₚ nxt_queue st' ∧
       length queue' = Nat.min (Z.to_nat beam_size) (length (nxt_queue st')) ∧
       StronglySorted (λ a b, sle (item_score a) (item_score b)) queue' ∧
       Forall (λ a, Forall (λ b, sle (item_score a) (item_score b)) dropped) queue')
  ∧ (∀ t n queue st,
       rounds n (task_depth t) [root t] initial_state = Ok (queue, st) →
       Z.of_nat (length queue) ≤ beam_size).
Proof.
  intros HB. split.
  - intros max_depth queue st queue' st' Hround.
    apply round_queue in Hround as ->.
    exists (drop (Z.to_nat beam_size) (Py.sorted item_score slt (nxt_queue st'))).
    assert (next_queue (nxt_queue st')
            = take (Z.to_nat beam_size) (Py.sorted item_score slt (nxt_queue st'))) as Hq.
    { unfold next_queue. apply slice_to_take. lia. }
    pose proof (sorted_ascending item_score slt slt_asym slt_negtrans (nxt_queue st')) as Hs.
    rewrite <- (take_drop (Z.to_nat beam_size)) in Hs. rewrite <- Hq in Hs.
    apply StronglySorted_app in Hs as (Hcross & Hkept & _).
    split; [by rewrite Hq, take_drop|].
    split; [by rewrite Hq, take_drop, sorted_perm|].
    split; [apply next_queue_length; lia|].
    split; [exact Hkept|].
    apply Forall_forall. intros a Ha. apply Forall_forall. intros b Hb.
    by apply Hcross.
  - intros t n queue st Hrun.
    eapply rounds_frontier; [done| |exact Hrun]. simpl. lia.
Qed.

End pruning.

(** ** The search ends *)

Section termination.
Context `{SearchEnv}.

Lemma sum_list_with_filter {A} (f : A → nat) (P : A → Prop) `{!∀ x, Decision (P x)}
    (l : list A) :
  (sum_list_with f (filter P l) ≤ sum_list_with f l)%nat.
Proof.
  induction l as [|x l IH]; simpl; [done|].
  rewrite filter_cons. destruct (decide (P x)); simpl; lia.
Qed.

Lemma levels_branch (max_depth : Z) (first : route_info) (r : string) :
  depth first ≤ max_depth →
  levels max_depth first = S (levels max_depth (branch first r)).
Proof. unfold levels, branch. simpl. lia. Qed.

Lemma route_weight_branch (max_depth : Z) (first : route_info) (r : string) :
  route_weight max_depth (branch first r) = weight (levels max_depth (branch first r)) r.
Proof. unfold route_weight, branch at 1. simpl. by rewrite last_snoc. Qed.

(** A child weighs less than its parent. *)
Lemma child_weight (max_depth : Z) (it : item) (first : route_info) (rest : list route_info)
    (expansion_mol : string) (solutions : list (list string * score))
    (sol : list string * score) :
  routes_info it = first :: rest → depth first ≤ max_depth →
  last (route first) = Some expansion_mol →
  get_beam expansion_mol beam_size = Ok solutions → sol ∈ solutions →
  (sum_list_with (route_weight max_depth)
     (reverse (branch first <$> non_purchasable (Py.sorted_str sol.1)) ++ rest)
   < item_weight max_depth it)%nat.
Proof.
  intros Hit Hd Hlast Hbeam Hsol.
  unfold item_weight. rewrite Hit. simpl.
  rewrite sum_list_with_app, sum_list_with_reverse.
  pose (n := levels max_depth (branch first ""%string)).
  assert (route_weight max_depth first
          = S (sum_list_with (λ sol, sum_list_with (weight n) sol.1) solutions)) as ->.
  { unfold route_weight. rewrite Hlast.
    rewrite (levels_branch max_depth first ""%string Hd). simpl. by rewrite Hbeam. }
  assert (sum_list_with (route_weight max_depth)
            (branch first <$> non_purchasable (Py.sorted_str sol.1))
          ≤ sum_list_with (weight n) sol.1)%nat as Hle.
  { rewrite <- (sorted_perm id String.ltb sol.1) at 2.
    fold (Py.sorted_str sol.1).
    etrans; [|apply (sum_list_with_filter _ (λ r, check_reactant_is_material r = false))].
    fold (non_purchasable (Py.sorted_str sol.1)).
    generalize (non_purchasable (Py.sorted_str sol.1)). intros l.
    induction l as [|r l IH]; simpl; [done|].
    rewrite route_weight_branch. apply Nat.add_le_mono; [|done]. done. }
  pose proof (sum_list_with_in sol (λ sol, sum_list_with (weight n) sol.1) solutions Hsol).
  simpl in *. lia.
Qed.

Lemma expand_item_lighter (max_depth : Z) (n : nat) (st st' : engine_state) (it : item) :
  (item_weight max_depth it < S n)%nat →
  lighter max_depth n (nxt_queue st) →
  expand_item max_depth st it = Ok st' →
  lighter max_depth n (nxt_queue st').
Proof.
  intros Hw Hq Hrun.
  apply expand_item_effect in Hrun
    as (first & rest & Hit & [[_ ->]|(Hd & mol & sols & Hlast & Hbeam & ->)]); [done|].
  apply (fold_left_invariant _ (λ s, lighter max_depth n (nxt_queue s))); [|done].
  intros s sol Hsol Hs.
  destruct (expand_solution_effect it first mol s sol) as [[a ->]|[_ ->]]; simpl; [done|].
  apply Forall_app. split; [done|]. constructor; [|constructor].
  unfold item_weight at 1. simpl. rewrite Hit. simpl.
  pose proof (child_weight max_depth it first rest mol sols sol Hit Hd Hlast Hbeam Hsol).
  lia.
Qed.

Lemma round_lighter (max_depth : Z) (n : nat) (queue queue' : list item)
    (st st' : engine_state) :
  lighter max_depth (S n) queue →
  round max_depth queue st = Ok (queue', st') →
  lighter max_depth n queue'.
Proof.
  intros Hq Hround. pose proof (round_queue _ _ _ _ _ Hround) as ->.
  unfold round in Hround.
  destruct (for_each _ _ _) as [s|] eqn:E; [|done]. simpl in Hround.
  injection Hround as <-.
  assert (lighter max_depth n (nxt_queue s)) as Hs.
  { eapply (for_each_invariant _ (λ s, lighter max_depth n (nxt_queue s))); [| |exact E].
    - intros s0 x s1 Hx Hs0. apply expand_item_lighter; [|done].
      by eapply Forall_forall in Hq.
    - constructor. }
  apply Forall_forall. intros it Hit. apply next_queue_sublist in Hit.
  by eapply Forall_forall in Hs.
Qed.

Lemma search_loop_ends (n : nat) :
  ∀ fuel max_depth queue st,
    lighter max_depth n queue → (n ≤ fuel)%nat →
    is_Some (search_loop fuel max_depth queue st).
Proof.
  induction n as [|n IH]; intros fuel max_depth queue st Hq Hfuel.
  - destruct queue as [|it queue].
    + destruct fuel; simpl; eauto.
    + apply Forall_cons in Hq as [Hit _]. lia.
  - destruct queue as [|it queue]; [destruct fuel; simpl; eauto|].
    destruct fuel as [|fuel]; [lia|]. simpl.
    destruct (round max_depth (it :: queue) st) as [[q1 s1]|e] eqn:E; [|eauto].
    simpl. apply IH; [|lia]. by eapply round_lighter.
Qed.

Lemma search_loop_more_fuel (fuel fuel' : nat) (max_depth : Z) (queue : list item)
    (st : engine_state) (r : res engine_state) :
  search_loop fuel max_depth queue st = Some r → (fuel ≤ fuel')%nat →
  search_loop fuel' max_depth queue st = Some r.
Proof.
  revert fuel' queue st. induction fuel as [|fuel IH]; intros fuel' queue st Hrun Hle.
  - destruct queue; [|done]. by destruct fuel'.
  - destruct queue as [|it queue]; [by destruct fuel'|].
    destruct fuel' as [|fuel']; [lia|]. simpl in *.
    destruct (round max_depth (it :: queue) st) as [[q1 s1]|e]; [|done].
    apply IH; [done|lia].
Qed.

(** With [enough_fuel] the search of a task runs to its end. *)
Lemma search_ends (t : task) (fuel : nat) :
  (enough_fuel t ≤ fuel)%nat → is_Some (search fuel t).
Proof.
  intros Hfuel. unfold search.
  apply (search_loop_ends (enough_fuel t)); [|done].
  constructor; [|constructor]. unfold enough_fuel. lia.
Qed.

(** The search is a sequence of rounds. *)
Lemma search_loop_rounds (fuel : nat) (max_depth : Z) (queue : list item)
    (st st' : engine_state) :
  search_loop fuel max_depth queue st = Some (Ok st') →
  ∃ n, rounds n max_depth queue st = Ok ([], st').
Proof.
  revert queue st. induction fuel as [|fuel IH]; intros queue st Hrun.
  - destruct queue; [|done]. exists 0%nat. simpl in *. by simplify_eq.
  - destruct queue as [|it queue]; [exists 0%nat; simpl in *; by simplify_eq|].
    simpl in Hrun.
    destruct (round max_depth (it :: queue) st) as [[q1 s1]|e] eqn:E; [|done].
    apply IH in Hrun as [n Hn]. exists (S n). simpl. rewrite E. done.
Qed.

End termination.

(** ** The evaluation against the ground truth *)

Section evaluation.
Context `{SearchEnv}.

Lemma matches_spec (gts : list (gset string)) (a : ranked_answer) :
  matches gts a = true ↔ ∃ gt, gt ∈ gts ∧ gt = identity_key_set a.
Proof.
  unfold matches. rewrite existsb_exists. split.
  - intros (gt & Hin & Heq). exists gt. split; [by apply list_elem_of_In|].
    by apply bool_decide_eq_true in Heq.
  - intros (gt & Hin & Heq). exists gt. split; [by apply list_elem_of_In|].
    by apply bool_decide_eq_true.
Qed.

Lemma first_match_spec (gts : list (gset string)) (l : list ranked_answer) (rank : nat) :
  match first_match gts rank l with
  | Some k => ∃ i a, k = (rank + i)%nat ∧ l !! i = Some a ∧ matches gts a = true ∧
                     ∀ j b, (j < i)%nat → l !! j = Some b → matches gts b = false
  | None => ∀ a, a ∈ l → matches gts a = false
  end.
Proof.
  revert rank. induction l as [|a l IH]; intros rank; simpl.
  - intros a Ha. by apply elem_of_nil in Ha.
  - destruct (matches gts a) eqn:E.
    + exists 0%nat, a. repeat split; [lia|done|]. intros j b Hj. lia.
    + specialize (IH (S rank)). destruct (first_match gts (S rank) l) as [k|].
      * destruct IH as (i & b & -> & Hi & Hb & Hbefore).
        exists (S i), b. repeat split; [lia|done|done|].
        intros [|j] c Hj Hc; simpl in Hc; [by simplify_eq|].
        apply (Hbefore j); [lia|done].
      * intros b Hb. apply elem_of_cons in Hb as [->|Hb]; auto.
Qed.

Lemma ranked_candidates_nil (t : task) : ranked_candidates t [] = [].
Proof.
  unfold ranked_candidates, rerank, Py.slice_to. simpl.
  destruct (beam_size <? 0); [done|]. apply take_nil.
Qed.

End evaluation.

(** ** Deduplication and rerank *)

Section firsts_facts.
Context {A : Type} (key : A → string).

Lemma firsts_sublist (seen : gset string) (l : list A) : sublist (firsts key seen l) l.
Proof.
  revert seen. induction l as [|a l IH]; intros seen; simpl; [constructor|].
  destruct (decide (key a ∈ seen)).
  - by apply sublist_cons.
  - by apply sublist_skip.
Qed.

Lemma firsts_fresh (seen : gset string) (l : list A) (a : A) :
  a ∈ firsts key seen l → key a ∉ seen.
Proof.
  revert seen. induction l as [|b l IH]; intros seen; simpl.
  - intros Ha. by apply elem_of_nil in Ha.
  - destruct (decide (key b ∈ seen)); [by apply IH|].
    intros Ha. apply elem_of_cons in Ha as [->|Ha]; [done|].
    apply IH in Ha. set_solver.
Qed.

Lemma firsts_NoDup (seen : gset string) (l : list A) : NoDup (key <$> firsts key seen l).
Proof.
  revert seen. induction l as [|a l IH]; intros seen; simpl; [constructor|].
  destruct (decide (key a ∈ seen)); [by apply IH|].
  simpl. constructor; [|by apply IH].
  intros Hin. apply list_elem_of_fmap in Hin as (b & Hkey & Hb).
  apply firsts_fresh in Hb. set_solver.
Qed.

Lemma elem_of_firsts (seen : gset string) (l : list A) (a : A) :
  a ∈ firsts key seen l ↔ ∃ i, first_occurrence key l i a ∧ key a ∉ seen.
Proof.
  revert seen. induction l as [|b l IH]; intros seen; simpl.
  - split; [intros Ha; by apply elem_of_nil in Ha|].
    intros (i & [Hi _] & _). by rewrite lookup_nil in Hi.
  - destruct (decide (key b ∈ seen)) as [Hseen|Hnew].
    + rewrite IH. split.
      * intros (i & [Hi Hbefore] & Hout). exists (S i). split; [|done]. split; [done|].
        intros [|j] c Hj Hc; simpl in Hc.
        -- simplify_eq. intros Heq. by rewrite Heq in Hseen.
        -- apply (Hbefore j); [lia|done].
      * intros ([|i] & [Hi Hbefore] & Hout); simpl in Hi; [by simplify_eq|].
        exists i. split; [|done]. split; [done|].
        intros j c Hj Hc. apply (Hbefore (S j)); [lia|done].
    + rewrite elem_of_cons, IH. split.
      * intros [->|(i & [Hi Hbefore] & Hout)].
        -- exists 0%nat. split; [|done]. split; [done|]. intros j c Hj. lia.
        -- exists (S i). split.
           2:{ intros Hin. apply Hout, elem_of_union. by right. }
           split; [done|].
           intros [|j] c Hj Hc; simpl in Hc.
           ++ simplify_eq. intros Heq. apply Hout, elem_of_union. left.
              by apply elem_of_singleton.
           ++ apply (Hbefore j); [lia|done].
      * intros ([|i] & [Hi Hbefore] & Hout); simpl in Hi; [left; by simplify_eq|].
        right. exists i. split.
        -- split; [done|]. intros j c Hj Hc. apply (Hbefore (S j)); [lia|done].
        -- assert (key b ≠ key a) as Hne by (apply (Hbefore 0%nat); [lia|done]).
           intros [Hin|Hin]%elem_of_union; [|done].
           apply elem_of_singleton in Hin. congruence.
Qed.

End firsts_facts.

Lemma slice_to_fmap {A B} (f : A → B) (n : Z) (l : list A) :
  f <$> Py.slice_to n l = Py.slice_to n (f <$> l).
Proof. unfold Py.slice_to. rewrite length_fmap. destruct (n <? 0); apply fmap_take. Qed.

Section dedup_facts.
Context `{SearchEnv}.

Lemma dedup_fold (t : task) (l : list answer) (d : dedup_state) :
  let d' := fold_left (dedup_step t) l d in
  final_answer_set d' = final_answer_set d ++ (to_kept <$> firsts dedup_key (record_answers d) l)
  ∧ (length (rerank_input_list d) = length (final_answer_set d) →
     length (rerank_input_list d') = length (final_answer_set d'))
  ∧ (length (rerank_output_list d) = length (final_answer_set d) →
     length (rerank_output_list d') = length (final_answer_set d')).
Proof.
  revert d. induction l as [|a l IH]; intros d; simpl.
  - by rewrite app_nil_r.
  - destruct (decide (dedup_key a ∈ record_answers d)) as [Hseen|Hnew].
    + assert (dedup_step t d a = d) as ->.
      { unfold dedup_step. by rewrite bool_decide_eq_false_2 by (intros ?; done). }
      apply IH.
    + pose (d1 := {| record_answers := {[ dedup_key a ]} ∪ record_answers d;
                     final_answer_set := final_answer_set d ++ [to_kept a];
                     rerank_input_list := rerank_input_list d ++ [product t];
                     rerank_output_list := rerank_output_list d ++
                       [Py.join "." (Py.sorted_str (cano_smiles <$> answer_materials a))] |}).
      assert (dedup_step t d a = d1) as ->.
      { unfold dedup_step. by rewrite bool_decide_eq_true_2 by done. }
      destruct (IH d1) as (IH1 & IH2 & IH3). simpl in IH1, IH2, IH3.
      split; [|split].
      * rewrite IH1. by rewrite <- app_assoc.
      * intros Hlen. apply IH2. rewrite !length_app. simpl. lia.
      * intros Hlen. apply IH3. rewrite !length_app. simpl. lia.
Qed.

Lemma length_get_rerank_scores (inputs outputs : list string) :
  length (get_rerank_scores inputs outputs) = Nat.min (length inputs) (length outputs).
Proof. unfold get_rerank_scores. apply length_zip_with. Qed.

Lemma answer_keys_zip_with (ks : list kept) (scores : list score) :
  length scores = length ks →
  answer_keys <$> zip_with with_rerank ks scores = kept_keys <$> ks.
Proof.
  revert scores. induction ks as [|k ks IH]; intros [|s scores] Hlen; simpl in *; try done.
  f_equal. apply IH. lia.
Qed.

(** The keys of the ranked candidates: the first [B] of a reordering of the
    keys of all the entries the deduplication kept. *)
Lemma ranked_candidates_keys (t : task) (answers : list answer) :
  ∃ l, l ≡ₚ kept_keys <$> final_answer_set (dedup t answers) ∧
       answer_keys <$> ranked_candidates t answers = Py.slice_to beam_size l.
Proof.
  unfold ranked_candidates, rerank.
  set (d := dedup t answers).
  set (z := zip_with with_rerank (final_answer_set d)
              (get_rerank_scores (rerank_input_list d) (rerank_output_list d))).
  exists (answer_keys <$> Py.sorted total_score slt z). split.
  - rewrite sorted_perm. subst z. rewrite answer_keys_zip_with; [done|].
    rewrite length_get_rerank_scores.
    destruct (dedup_fold t (Py.sorted answer_score slt answers)
                {| record_answers := ∅; final_answer_set := [];
                   rerank_input_list := []; rerank_output_list := [] |})
      as (_ & Hin & Hout).
    fold (dedup t answers) in Hin, Hout. fold d in Hin, Hout.
    rewrite Hin, Hout by done. lia.
  - apply slice_to_fmap.
Qed.

Lemma dedup_firsts (t : task) (answers : list answer) :
  final_answer_set (dedup t answers)
  = to_kept <$> firsts dedup_key ∅ (Py.sorted answer_score slt answers).
Proof.
  unfold dedup.
  destruct (dedup_fold t (Py.sorted answer_score slt answers)
              {| record_answers := ∅; final_answer_set := [];
                 rerank_input_list := []; rerank_output_list := [] |}) as (-> & _).
  done.
Qed.

Lemma ranked_candidates_NoDup (t : task) (answers : list answer) :
  NoDup (ranked_key <$> ranked_candidates t answers).
Proof.
  destruct (ranked_candidates_keys t answers) as (l & Hperm & Hkeys).
  assert (ranked_key <$> ranked_candidates t answers
          = (λ ks, Py.join "." (Py.sorted_str ks)) <$> Py.slice_to beam_size l) as ->.
  { rewrite <- Hkeys, <- list_fmap_compose. done. }
  rewrite slice_to_fmap.
  eapply sublist_NoDup; [|apply slice_to_sublist].
  rewrite Hperm, dedup_firsts, <- !list_fmap_compose.
  apply (firsts_NoDup dedup_key).
Qed.

End dedup_facts.

Section dedup_claim.
Context `{SearchEnv}.

(** C1 (amended).  The deduplication keeps, of the answers sorted by score,
    exactly the first occurrence of each deduplication key (the joined sorted
    list of identity keys, with multiplicity); the ranked candidates are the
    first [B] of a reordering of what it keeps; and no two ranked candidates
    have the same deduplication key, nor the same sorted list of identity
    keys. *)
Theorem dedup_keeps_first_occurrences (t : task) (answers : list answer) :
  let sorted_answers := Py.sorted answer_score slt answers in
  (∃ F, final_answer_set (dedup t answers) = to_kept <$> F
      ∧ sublist F sorted_answers
      ∧ NoDup (dedup_key <$> F)
      ∧ ∀ a, a ∈ F ↔ ∃ i, first_occurrence dedup_key sorted_answers i a)
  ∧ (∃ l, l ≡ₚ kept_keys <$> final_answer_set (dedup t answers) ∧
          answer_keys <$> ranked_candidates t answers = Py.slice_to beam_size l)
  ∧ (∀ i j a b, i ≠ j →
       ranked_candidates t answers !! i = Some a →
       ranked_candidates t answers !! j = Some b →
       ranked_key a ≠ ranked_key b ∧
       Py.sorted_str (answer_keys a) ≠ Py.sorted_str (answer_keys b)).
Proof.
  intros sorted_answers. split; [|split].
  - exists (firsts dedup_key ∅ sorted_answers).
    split; [apply dedup_firsts|].
    split; [apply firsts_sublist|].
    split; [apply firsts_NoDup|].
    intros a. rewrite elem_of_firsts. split.
    + intros (i & Hi & _). eauto.
    + intros (i & Hi). exists i. split; [done|]. apply not_elem_of_empty.
  - apply ranked_candidates_keys.
  - intros i j a b Hij Ha Hb.
    assert (ranked_key a ≠ ranked_key b) as Hne.
    { intros Heq. apply Hij.
      pose proof (ranked_candidates_NoDup t answers) as Hnd.
      eapply NoDup_lookup; [exact Hnd| |].
      - rewrite list_lookup_fmap, Ha. done.
      - rewrite list_lookup_fmap, Hb. simpl. by rewrite Heq. }
    split; [done|]. intros Heq. apply Hne. unfold ranked_key. by rewrite Heq.
Qed.

End dedup_claim.

(** It fails for two routes that use the same materials a different number of
    times: the search emits both and both are kept. *)
Lemma equal_key_sets_survive :
  let env := Example.stub_env 5 Example.AB_stock Example.twice_A_decoder in
  let t := Example.some_task 3 in
  (∃ st, @search Example.int_scores env 5 t = Some (Ok st) ∧
         answer_set st = Example.twice_A)
  ∧ ¬ no_equal_key_sets (@ranked_candidates Example.int_scores env t Example.twice_A).
Proof.
  intros env t. split.
  - eexists. split; vm_compute; reflexivity.
  - intros Hclaim.
    refine (Hclaim 0%nat 1%nat _ _ _ _ _ _); [lia|vm_compute; reflexivity..|].
    unfold identity_key_set. simpl. set_solver.
Qed.

(** ** The first end-to-end scenario *)

Section scenario_one.
Context `{SearchEnv}.

Lemma slice_to_nil {A} (n : Z) : Py.slice_to n (@nil A) = [].
Proof. unfold Py.slice_to. destruct (n <? 0); apply take_nil. Qed.

(** C2 (amended).  For a task of depth at least [0] whose decoder answers the
    first expansion with one candidate that has no reactant and costs [0]:
    round 1 emits exactly one route and leaves the queue empty, so the search
    ends there; the route's materials are empty (the target is not among them,
    and the stock is not asked about the target), and its score is
    [value(target) + 0 - value(target)]. *)
Theorem scenario_one_amended (t : task) :
  0 ≤ task_depth t →
  get_beam (product t) beam_size = Ok [([], s0)] →
  let head := {| route := [product t]; depth := 0 |} in
  let a := {| answer_score := ssub (sadd (value_fn (product t)) s0) (value_fn (product t));
              answer_materials := [] |} in
  let st := {| answer_set := [a]; nxt_queue := []; log := [Decode head; Emit head a] |} in
  round (task_depth t) [root t] initial_state = Ok ([], st)
  ∧ ∀ fuel, (1 ≤ fuel)%nat → search fuel t = Some (Ok st).
Proof.
  intros Hdepth Hbeam head a st.
  assert (round (task_depth t) [root t] initial_state = Ok ([], st)) as Hround.
  { unfold round. simpl. unfold expand_item. simpl.
    destruct (Z.ltb_spec (task_depth t) 0); [lia|].
    rewrite Hbeam. simpl. unfold next_queue. simpl. by rewrite slice_to_nil. }
  split; [done|].
  intros [|fuel] Hfuel; [lia|]. unfold search. simpl.
  change (match round (task_depth t) [root t] initial_state with
          | Ok r => search_loop fuel (task_depth t) r.1 r.2
          | Raise e => Some (Raise e)
          end = Some (Ok st)).
  rewrite Hround. simpl. by destruct fuel.
Qed.

End scenario_one.

(** The scenario as stated fails: with a target in stock and a task of depth
    3 the one route has no material at all; and with a task of depth -1 there
    is no route. *)
Lemma scenario_one_fails :
  ¬ @scenario_one Example.int_scores
      (Example.stub_env 5 {[ "T"%string ]} Example.empty_candidate) (Example.some_task 3)
  ∧ ¬ @scenario_one Example.int_scores
      (Example.stub_env 5 {[ "T"%string ]} Example.empty_candidate) (Example.some_task (-1)).
Proof.
  split; intros Hclaim.
  - destruct Hclaim as (queue & st & a & Hround & Hone & Hset);
      [vm_compute; reflexivity..|].
    vm_compute in Hround. simplify_eq. simpl in Hset. set_solver.
  - destruct Hclaim as (queue & st & a & Hround & Hone & Hset);
      [vm_compute; reflexivity..|].
    vm_compute in Hround. simplify_eq.
Qed.

Lemma scenario_one_amended_witness :
  let env := Example.stub_env 5 {[ "T"%string ]} Example.empty_candidate in
  let t := Example.some_task 3 in
  let head := {| route := [product t]; depth := 0 |} in
  let a := @Build_answer Example.int_scores 0 [] in
  let st := {| answer_set := [a]; nxt_queue := []; log := [Decode head; Emit head a] |} in
  @round Example.int_scores env 3 [@root Example.int_scores env t] initial_state = Ok ([], st)
  ∧ ∀ fuel, (1 ≤ fuel)%nat → @search Example.int_scores env fuel t = Some (Ok st).
Proof.
  intros env t.
  apply (@scenario_one_amended Example.int_scores env t); [simpl; lia | reflexivity].
Defined.

(** ** The statements at the small instances *)

Lemma int_scores_order : @ScoreOrder Example.int_scores.
Proof.
  split; simpl.
  - intros x y Hxy. apply Z.ltb_lt in Hxy. apply Z.ltb_ge. lia.
  - intros x y z Hxy Hyz. apply Z.ltb_ge in Hxy, Hyz. apply Z.ltb_ge. lia.
Qed.

Lemma depth_cutoff_witness :
  let env := Example.stub_env 5 Example.AB_stock Example.two_steps in
  let t := Example.some_task 3 in
  ∃ queue st,
    @rounds Example.int_scores env 2 (task_depth t) [@root Example.int_scores env t]
      initial_state = Ok (queue, st) ∧
    length (log st) = 3%nat ∧
    (Forall (λ e, depth (event_head e) ≤ task_depth t ∧
                  Z.of_nat (length (route (event_head e))) ≤ task_depth t + 1) (log st)
     ∧ answer_set st = emitted (log st)
     ∧ ∀ st0 it first rest,
         routes_info it = first :: rest → task_depth t < depth first →
         @expand_item Example.int_scores env (task_depth t) st0 it = Ok st0).
Proof.
  intros env t. eexists. eexists.
  split; [vm_compute; reflexivity|].
  split; [reflexivity|].
  eapply (@depth_cutoff Example.int_scores env t 2). vm_compute. reflexivity.
Defined.

Lemma terminal_case_witness :
  let env := Example.stub_env 5 Example.AB_stock Example.two_steps in
  let first := {| route := ["T"; "M"]; depth := 1 |}%string in
  let it := @Build_item Example.int_scores 3 [first] ["A"%string] in
  let a := @Build_answer Example.int_scores 5 ["A"; "B"]%string in
  @expand_solution Example.int_scores env it first "M" initial_state (["B"%string], 3)
    = {| answer_set := [a]; nxt_queue := []; log := [Emit first a] |}
  ∧ (list_to_set (answer_materials a) : gset string)
    = list_to_set ["A"%string] ∪ list_to_set ["B"%string].
Proof.
  intros env first it a.
  apply (@terminal_case_emits_route Example.int_scores env it first "M" initial_state
           ["B"%string] 3).
  - reflexivity.
  - constructor; [vm_compute; reflexivity|constructor].
Defined.

Lemma non_terminal_case_witness :
  let env := Example.stub_env 5 Example.AB_stock Example.two_steps in
  let first := {| route := ["T"%string]; depth := 0 |} in
  let it := @Build_item Example.int_scores 1 [first] [] in
  let child := @Build_item Example.int_scores 3
                 [{| route := ["T"; "M"]; depth := 1 |}]%string ["A"%string] in
  @expand_solution Example.int_scores env it first "T" initial_state (["M"; "A"]%string, 2)
    = {| answer_set := []; nxt_queue := [child]; log := [] |}.
Proof.
  intros env first it child.
  refine (proj1 (@non_terminal_case_builds_child Example.int_scores env it first "T"
                   initial_state ["M"; "A"]%string 2 _)).
  left. intros Hall. apply Forall_cons in Hall as [HM _]. vm_compute in HM. discriminate.
Defined.

Lemma beam_pruning_witness :
  let env := Example.stub_env 5 Example.AB_stock Example.two_steps in
  (∀ max_depth queue st queue' st',
     @round Example.int_scores env max_depth queue st = Ok (queue', st') →
     ∃ dropped,
       queue' ++ dropped = Py.sorted item_score slt (nxt_queue st') ∧
       queue' ++ dropped ≡ₚ nxt_queue st' ∧
       length queue' = Nat.min (Z.to_nat 5) (length (nxt_queue st')) ∧
       StronglySorted (λ a b, sle (item_score a) (item_score b)) queue' ∧
       Forall (λ a, Forall (λ b, sle (item_score a) (item_score b)) dropped) queue')
  ∧ (∀ t n queue st,
       @rounds Example.int_scores env n (task_depth t) [@root Example.int_scores env t]
         initial_state = Ok (queue, st) →
       Z.of_nat (length queue) ≤ 5).
Proof.
  intros env.
  apply (@beam_pruning Example.int_scores env int_scores_order). simpl. lia.
Defined.

(** ** The expansion over the store leaves every existing object as it is *)

(** Take the computation bound first in [H : ... = Ok _] apart. *)
Ltac bind_ok H E :=
  match type of H with
  | context [res_bind ?m _] =>
      destruct m eqn:E; simpl in H; [|discriminate H]
  end.

Section store_frame.
Context `{SearchEnv}.
Implicit Types h : Store.heap.

Lemma alloc_keeps h0 h (o : Store.obj) :
  h0 ⊆ h → h0 ⊆ (Store.alloc h o).1 ∧ h0 !! (Store.alloc h o).2 = None.
Proof.
  intros Hsub. unfold Store.alloc. simpl.
  assert (h !! fresh (dom h) = None) as Hfresh by apply not_elem_of_dom, is_fresh.
  split.
  - etrans; [exact Hsub|]. by apply insert_subseteq.
  - by eapply lookup_weaken_None.
Qed.

Lemma write_keeps h0 h (l : Store.loc) (o : Store.obj) :
  h0 ⊆ h → h0 !! l = None → h0 ⊆ <[l := o]> h.
Proof. intros. by apply insert_subseteq_r. Qed.

Lemma copy_strs_keeps h0 memo h l memo' h' y :
  h0 ⊆ h → Store.all_new h0 memo →
  Store.copy_strs memo h l = Ok (memo', h', y) →
  h0 ⊆ h' ∧ h0 !! y = None ∧ Store.all_new h0 memo'.
Proof.
  intros Hsub Hmemo Hrun. unfold Store.copy_strs in Hrun.
  destruct (memo !! l) as [y0|] eqn:Em.
  - simplify_eq. split; [done|]. split; [|done]. by apply (Hmemo l).
  - bind_ok Hrun E. simplify_eq.
    destruct (alloc_keeps h0 h (Store.StrList []) Hsub) as [Ha Hnew].
    split; [by apply write_keeps|]. split; [done|].
    by apply map_Forall_insert_2.
Qed.

Lemma copy_info_keeps h0 memo h l memo' h' y :
  h0 ⊆ h → Store.all_new h0 memo →
  Store.copy_info memo h l = Ok (memo', h', y) →
  h0 ⊆ h' ∧ h0 !! y = None ∧ Store.all_new h0 memo'.
Proof.
  intros Hsub Hmemo Hrun. unfold Store.copy_info in Hrun.
  destruct (memo !! l) as [y0|] eqn:Em.
  - simplify_eq. split; [done|]. split; [|done]. by apply (Hmemo l).
  - bind_ok Hrun E. bind_ok Hrun Ec. simplify_eq.
    destruct a as [r d]. destruct a0 as [[m1 h1] r']. simpl in *.
    destruct (alloc_keeps h0 h (Store.RouteInfo r d) Hsub) as [Ha Hnew].
    apply copy_strs_keeps with (h0 := h0) in Ec as (Hh1 & _ & Hm1);
      [|done|by apply map_Forall_insert_2].
    split; [by apply write_keeps|]. done.
Qed.

Lemma copy_infos_keeps h0 ds : ∀ memo h memo' h' ys,
  h0 ⊆ h → Store.all_new h0 memo →
  Store.copy_infos memo h ds = Ok (memo', h', ys) →
  h0 ⊆ h' ∧ Forall (λ y, h0 !! y = None) ys ∧ Store.all_new h0 memo'.
Proof.
  induction ds as [|d ds IH]; intros memo h memo' h' ys Hsub Hmemo Hrun; simpl in Hrun.
  - by simplify_eq.
  - bind_ok Hrun E. bind_ok Hrun Es. simplify_eq.
    destruct a as [[m1 h1] y]. destruct a0 as [[m2 h2] ys']. simpl in *.
    apply copy_info_keeps with (h0 := h0) in E as (Hh1 & Hy & Hm1); [|done..].
    apply IH in Es as (Hh2 & Hys & Hm2); [|done..].
    split; [done|]. split; [by constructor|done].
Qed.

Lemma deepcopy_routes_keeps h0 h l h' y :
  h0 ⊆ h → Store.deepcopy_routes h l = Ok (h', y) → h0 ⊆ h' ∧ h0 !! y = None.
Proof.
  intros Hsub Hrun. unfold Store.deepcopy_routes in Hrun.
  bind_ok Hrun E. bind_ok Hrun Ec. simplify_eq.
  destruct a0 as [[m1 h1] ys]. simpl in *.
  destruct (alloc_keeps h0 h (Store.RefList []) Hsub) as [Ha Hnew].
  apply copy_infos_keeps with (h0 := h0) in Ec as (Hh1 & _ & _); [|done|].
  - split; [by apply write_keeps|done].
  - apply map_Forall_insert_2; [done|apply map_Forall_empty].
Qed.

Lemma deepcopy_strs_keeps h0 h l h' y :
  h0 ⊆ h → Store.deepcopy_strs h l = Ok (h', y) → h0 ⊆ h' ∧ h0 !! y = None.
Proof.
  intros Hsub Hrun. unfold Store.deepcopy_strs in Hrun.
  bind_ok Hrun E. simplify_eq. destruct a as [[m1 h1] y1]. simpl in *.
  apply copy_strs_keeps with (h0 := h0) in E as (? & ? & _); [done..|].
  apply map_Forall_empty.
Qed.

Lemma pop0_keeps h0 h l h' :
  h0 ⊆ h → h0 !! l = None → Store.pop0 h l = Ok h' → h0 ⊆ h'.
Proof.
  intros Hsub Hnew Hrun. unfold Store.pop0 in Hrun.
  bind_ok Hrun E. destruct a; [done|]. simplify_eq. by apply write_keeps.
Qed.

Lemma append_keeps h0 h l x h' :
  h0 ⊆ h → h0 !! l = None → Store.append h l x = Ok h' → h0 ⊆ h'.
Proof.
  intros Hsub Hnew Hrun. unfold Store.append in Hrun.
  bind_ok Hrun E. simplify_eq. by apply write_keeps.
Qed.

Lemma partition_step_keeps h0 first_route depth sm v reactant v' :
  h0 ⊆ Store.lv_heap v → h0 !! sm = None → h0 !! Store.lv_iter_routes v = None →
  Store.partition_step first_route depth sm v reactant = Ok v' →
  h0 ⊆ Store.lv_heap v' ∧ h0 !! Store.lv_iter_routes v' = None.
Proof.
  intros Hsub Hsm Hir Hrun. unfold Store.partition_step in Hrun.
  destruct (check_reactant_is_material reactant).
  - bind_ok Hrun E. simplify_eq. simpl. split; [|done].
    eapply append_keeps; [exact Hsub|exact Hsm|exact E].
  - bind_ok Hrun E. bind_ok Hrun Ed. simplify_eq. simpl.
    set (r := Store.alloc (Store.lv_heap v) (Store.StrList (a ++ [reactant]))) in *.
    set (d := Store.alloc r.1 (Store.RouteInfo r.2 (depth + 1))) in *.
    destruct (alloc_keeps h0 _ (Store.StrList (a ++ [reactant])) Hsub) as [Hr _].
    fold r in Hr.
    destruct (alloc_keeps h0 _ (Store.RouteInfo r.2 (depth + 1)) Hr) as [Hd _].
    fold d in Hd.
    by apply alloc_keeps.
Qed.

End store_frame.

Section store_expansion.
Context `{SearchEnv}.
Implicit Types h : Store.heap.

Lemma extends_refl st : Store.extends st st.
Proof.
  split; [done|]. exists [], []. by rewrite !app_nil_r.
Qed.

Lemma partition_loop_keeps h0 first_route depth sm reactants : ∀ v v',
  h0 ⊆ Store.lv_heap v → h0 !! sm = None → h0 !! Store.lv_iter_routes v = None →
  for_each (Store.partition_step first_route depth sm) reactants v = Ok v' →
  h0 ⊆ Store.lv_heap v' ∧ h0 !! Store.lv_iter_routes v' = None.
Proof.
  induction reactants as [|r rs IH]; intros v v' Hsub Hsm Hir Hrun; simpl in Hrun.
  - by simplify_eq.
  - bind_ok Hrun E.
    eapply partition_step_keeps in E as [? ?]; [|done..].
    by eapply IH.
Qed.

Lemma expand_solution_extends st0 it first_route depth expansion_mol st sol st' :
  Store.extends st0 st →
  Store.expand_solution it first_route depth expansion_mol st sol = Ok st' →
  Store.extends st0 st'.
Proof.
  intros (Hsub & children & routes & Hpool & Hans & Hchildren & Hroutes) Hrun.
  unfold Store.expand_solution in Hrun.
  bind_ok Hrun Ec. destruct a as [h1 iter_routes].
  bind_ok Hrun Ep. rename a into h2.
  bind_ok Hrun Em. destruct a as [h3 iter_sm].
  bind_ok Hrun Er. simpl in *.
  eapply deepcopy_routes_keeps in Ec as [Hh1 Hnew_routes]; [|exact Hsub].
  eapply pop0_keeps in Ep; [|exact Hh1|exact Hnew_routes].
  eapply deepcopy_strs_keeps in Em as [Hh3 Hnew_sm]; [|exact Ep].
  destruct (check_reactants_are_material (Py.sorted_str sol.1)
            && bool_decide (length a = 0%nat)).
  - bind_ok Hrun Ex. simplify_eq.
    destruct (alloc_keeps (Store.objects st0) h3 (Store.StrList (a0 ++ Py.sorted_str sol.1)) Hh3)
      as [Ha Hnew].
    split; [done|]. simpl. eexists children, _.
    split; [done|]. split; [rewrite Hans, <- app_assoc; reflexivity|].
    split; [done|]. apply Forall_app. split; [done|]. by constructor.
  - bind_ok Hrun Ev. simplify_eq.
    eapply partition_loop_keeps in Ev as [Hv Hnew]; [|done..].
    split; [done|]. simpl. eexists _, routes.
    split; [rewrite Hpool, <- app_assoc; reflexivity|]. split; [done|].
    split; [|done]. apply Forall_app. split; [done|]. by constructor.
Qed.

Lemma expand_item_extends max_depth st it st' :
  Store.expand_item max_depth st it = Ok st' → Store.extends st st'.
Proof.
  intros Hrun. unfold Store.expand_item in Hrun.
  bind_ok Hrun Ed. destruct a as [|first_route_info ds]; [done|].
  bind_ok Hrun Ei. destruct (max_depth <? a.2).
  { simplify_eq. apply extends_refl. }
  bind_ok Hrun Ef. destruct (last a0) as [expansion_mol|]; [|done].
  bind_ok Hrun Eb.
  eapply (for_each_invariant _ (Store.extends st)); [| |exact Hrun].
  - intros s sol s' _ Hs Hstep. by eapply expand_solution_extends.
  - apply extends_refl.
Qed.

(** Reading through a reference gives the same value in a larger heap. *)
Lemma read_strs_mono h h' l xs :
  h ⊆ h' → Store.read_strs h l = Ok xs → Store.read_strs h' l = Ok xs.
Proof.
  intros Hsub. unfold Store.read_strs.
  destruct (h !! l) as [o|] eqn:E; [|done].
  rewrite (lookup_weaken _ _ _ _ E Hsub). done.
Qed.

Lemma read_refs_mono h h' l ds :
  h ⊆ h' → Store.read_refs h l = Ok ds → Store.read_refs h' l = Ok ds.
Proof.
  intros Hsub. unfold Store.read_refs.
  destruct (h !! l) as [o|] eqn:E; [|done].
  rewrite (lookup_weaken _ _ _ _ E Hsub). done.
Qed.

Lemma read_info_mono h h' l rd :
  h ⊆ h' → Store.read_info h l = Ok rd → Store.read_info h' l = Ok rd.
Proof.
  intros Hsub. unfold Store.read_info.
  destruct (h !! l) as [o|] eqn:E; [|done].
  rewrite (lookup_weaken _ _ _ _ E Hsub). done.
Qed.

Lemma read_route_info_mono h h' l ri :
  h ⊆ h' → Store.read_route_info h l = Ok ri → Store.read_route_info h' l = Ok ri.
Proof.
  intros Hsub Hrun. unfold Store.read_route_info in *.
  bind_ok Hrun E. bind_ok Hrun Ex.
  rewrite (read_info_mono _ _ _ _ Hsub E). simpl.
  rewrite (read_strs_mono _ _ _ _ Hsub Ex). done.
Qed.

Lemma read_all_mono {A} (rd rd' : Store.loc → res A) (ls : list Store.loc) (xs : list A) :
  (∀ l x, rd l = Ok x → rd' l = Ok x) →
  Store.read_all rd ls = Ok xs → Store.read_all rd' ls = Ok xs.
Proof.
  intros Hrd. revert xs. induction ls as [|l ls IH]; intros xs Hrun; simpl in *; [done|].
  bind_ok Hrun E. bind_ok Hrun Es.
  rewrite (Hrd _ _ E). simpl. rewrite (IH _ eq_refl). done.
Qed.

Lemma read_item_mono h h' (it : Store.item_ref) (v : item) :
  h ⊆ h' → Store.read_item h it = Ok v → Store.read_item h' it = Ok v.
Proof.
  intros Hsub Hrun. unfold Store.read_item, Store.read_routes_info in *.
  bind_ok Hrun E. bind_ok E Ed. bind_ok Hrun Es.
  rewrite (read_refs_mono _ _ _ _ Hsub Ed). simpl.
  rewrite (read_all_mono _ (Store.read_route_info h') _ _
             (λ l x, read_route_info_mono h h' l x Hsub) E). simpl.
  rewrite (read_strs_mono _ _ _ _ Hsub Es). done.
Qed.

(** C9.  When the expansion of a node returns, every object the store held
    before is in it with the contents it had; so every node reads as it did,
    the expanded one and any other; and the children and routes it has added
    hold their pending list and their materials in objects that did not exist
    before. *)
Theorem expansion_leaves_nodes_untouched (max_depth : Z) (st st' : Store.store_state)
    (it : Store.item_ref) :
  Store.expand_item max_depth st it = Ok st' →
  (∀ l o, Store.objects st !! l = Some o → Store.objects st' !! l = Some o)
  ∧ (∀ node v, Store.read_item (Store.objects st) node = Ok v →
               Store.read_item (Store.objects st') node = Ok v)
  ∧ ∃ children routes,
      Store.pool st' = Store.pool st ++ children ∧
      Store.answers st' = Store.answers st ++ routes ∧
      Forall (λ c, Store.objects st !! Store.ref_routes_info c = None ∧
                   Store.objects st !! Store.ref_starting_materials c = None) children ∧
      Forall (λ a, Store.objects st !! Store.ref_answer_materials a = None) routes.
Proof.
  intros Hrun. apply expand_item_extends in Hrun as [Hsub Hnew].
  split; [|split; [|done]].
  - intros l o Hl. by eapply lookup_weaken.
  - intros node v. by apply read_item_mono.
Qed.

End store_expansion.

Lemma expansion_leaves_nodes_untouched_witness :
  let env := Example.stub_env 5 Example.AB_stock Example.two_steps in
  ∃ st',
    @Store.expand_item Example.int_scores env 3 Example.root_store Example.root_ref = Ok st' ∧
    length (Store.pool st') = 1%nat ∧
    ((∀ l o, Example.root_heap !! l = Some o → Store.objects st' !! l = Some o)
     ∧ (∀ node v, @Store.read_item Example.int_scores Example.root_heap node = Ok v →
                  @Store.read_item Example.int_scores (Store.objects st') node = Ok v)
     ∧ ∃ children routes,
         Store.pool st' = [] ++ children ∧
         Store.answers st' = [] ++ routes ∧
         Forall (λ c, Example.root_heap !! Store.ref_routes_info c = None ∧
                      Example.root_heap !! Store.ref_starting_materials c = None) children ∧
         Forall (λ a, Example.root_heap !! Store.ref_answer_materials a = None) routes).
Proof.
  intros env. eexists.
  split; [vm_compute; reflexivity|].
  split; [reflexivity|].
  apply (@expansion_leaves_nodes_untouched Example.int_scores env 3 Example.root_store _
           Example.root_ref).
  vm_compute. reflexivity.
Defined.

(** ** The beam decoder *)

Lemma pack_unpack (i j : Z) :
  0 ≤ j < 100 →
  Decoder.symbol_index (Decoder.pack i j) = j ∧ Decoder.beam_index (Decoder.pack i j) = i.
Proof.
  intros Hj. unfold Decoder.symbol_index, Decoder.beam_index, Decoder.pack. split.
  - symmetry. apply (Z.mod_unique_pos _ _ i); lia.
  - symmetry. apply (Z.div_unique_pos _ _ _ j); lia.
Qed.

Section decoder_facts.
Context `{Decoder.DecoderEnv}.

Lemma select_row_selected (lines : Decoder.beam) (acc : Decoder.selection)
    (row : score * Z) (line : string * score) :
  lines !! Z.to_nat (Decoder.beam_index row.2) = Some line →
  Decoder.select_row lines acc row
  = Ok (Decoder.selected acc
          (line.1 +:+ Decoder.ix_to_char (Decoder.symbol_index row.2))
          (Decoder.ix_to_char (Decoder.symbol_index row.2)) row.1).
Proof.
  intros Hline. unfold Decoder.select_row, Decoder.selected. rewrite Hline.
  by destruct (decide (Decoder.ix_to_char (Decoder.symbol_index row.2) = "$")).
Qed.

(** The rows of the table of a later step. *)
Lemma elem_of_beam_rows (product : string) (lines : Decoder.beam) (row : score * Z) :
  row ∈ Decoder.beam_rows product lines ↔
  ∃ i line j, lines !! i = Some line ∧ 0 ≤ j < Decoder.vocab_size ∧
    row = (sadd (neg_log10 (Decoder.get_output_probs product line.1 j)) line.2,
           Decoder.pack (Z.of_nat i) j).
Proof.
  unfold Decoder.beam_rows. rewrite list_elem_of_join. split.
  - intros (l & Hrow & Hl). apply elem_of_lookup_imap in Hl as (i & line & -> & Hi).
    unfold Decoder.rows_of_line in Hrow.
    apply list_elem_of_fmap in Hrow as (j & -> & Hj). apply elem_of_range in Hj.
    by exists i, line, j.
  - intros (i & line & j & Hi & Hj & ->).
    exists (Decoder.rows_of_line product i line). split.
    + unfold Decoder.rows_of_line. apply list_elem_of_fmap. exists j.
      split; [done|]. by apply elem_of_range.
    + apply elem_of_lookup_imap. by exists i, line.
Qed.

Lemma elem_of_first_rows (product : string) (row : score * Z) :
  row ∈ Decoder.first_rows product ↔
  ∃ j, 0 ≤ j < Decoder.vocab_size ∧
       row = (neg_log10 (Decoder.get_output_probs product "" j), j).
Proof.
  unfold Decoder.first_rows. rewrite list_elem_of_fmap. split.
  - intros (j & -> & Hj). apply elem_of_range in Hj. by exists j.
  - intros (j & Hj & ->). exists j. split; [done|]. by apply elem_of_range.
Qed.

(** C10.  Packing the beam index [i] and the symbol index [j] into
    [i*100 + j] and reading them back as [mod 100] and [div 100] gives [i] and
    [j] back for all [i >= 0] and [0 <= j < vocab_size] exactly when
    [vocab_size <= 100].  And when [vocab_size <= 100], every row of the ranked
    table is decoded into the partial string its score was computed from,
    followed by the symbol it was computed for: in a later step the row of
    line [i] and symbol [j] gives [lines[i] + ix_to_char[j]], and in step 0
    (where every line is the empty string) the row of symbol [j] gives
    [ix_to_char[j]]. *)
Theorem packing_round_trip :
  ((∀ i j, 0 ≤ i → 0 ≤ j < Decoder.vocab_size →
          Decoder.symbol_index (Decoder.pack i j) = j ∧
          Decoder.beam_index (Decoder.pack i j) = i)
   ↔ Decoder.vocab_size ≤ 100)
  ∧ (Decoder.vocab_size ≤ 100 →
     ∀ product lines acc row,
       row ∈ Decoder.ranked (Decoder.beam_rows product lines) →
       ∃ i line j,
         lines !! i = Some line ∧ 0 ≤ j < Decoder.vocab_size ∧
         row.1 = sadd (neg_log10 (Decoder.get_output_probs product line.1 j)) line.2 ∧
         Decoder.select_row lines acc row
         = Ok (Decoder.selected acc (line.1 +:+ Decoder.ix_to_char j)
                 (Decoder.ix_to_char j) row.1))
  ∧ (Decoder.vocab_size ≤ 100 →
     ∀ product beam_size acc row,
       1 ≤ beam_size →
       row ∈ Decoder.ranked (Decoder.first_rows product) →
       ∃ j,
         0 ≤ j < Decoder.vocab_size ∧
         row.1 = neg_log10 (Decoder.get_output_probs product "" j) ∧
         Decoder.select_row (Decoder.lines (Decoder.initial beam_size)) acc row
         = Ok (Decoder.selected acc (Decoder.ix_to_char j) (Decoder.ix_to_char j) row.1)).
Proof.
  split; [|split].
  - split.
    + intros Hall. destruct (Z.le_gt_cases Decoder.vocab_size 100) as [|Hbig]; [done|].
      destruct (Hall 0 100) as [Hsym _]; [lia..|]. vm_compute in Hsym. discriminate.
    + intros Hsmall i j Hi Hj. apply pack_unpack. lia.
  - intros Hsmall product lines acc row Hrow.
    unfold Decoder.ranked in Hrow. rewrite elem_of_sorted in Hrow.
    apply elem_of_beam_rows in Hrow as (i & line & j & Hi & Hj & ->).
    exists i, line, j. split; [done|]. split; [done|]. split; [done|].
    destruct (pack_unpack (Z.of_nat i) j) as [Hsym Hbeam]; [lia|].
    rewrite (select_row_selected lines acc _ line); simpl.
    + by rewrite Hsym.
    + by rewrite Hbeam, Nat2Z.id.
  - intros Hsmall product beam_size acc row HB Hrow.
    unfold Decoder.ranked in Hrow. rewrite elem_of_sorted in Hrow.
    apply elem_of_first_rows in Hrow as (j & Hj & ->).
    exists j. split; [done|]. split; [done|].
    destruct (pack_unpack 0 j) as [Hsym Hbeam]; [lia|].
    assert (Decoder.pack 0 j = j) as Hp by (unfold Decoder.pack; lia).
    rewrite Hp in Hsym, Hbeam.
    rewrite (select_row_selected _ acc _ (""%string, s0)); simpl.
    + by rewrite Hsym.
    + rewrite Hbeam. simpl. destruct (Z.to_nat beam_size) as [|n] eqn:E; [lia|done].
Qed.

End decoder_facts.

Lemma omap_length_le {A B} (f : A → option B) (l : list A) :
  (length (omap f l) ≤ length l)%nat.
Proof. induction l as [|x l IH]; csimpl; [done|]. destruct (f x); csimpl; lia. Qed.

Lemma omap_length_all {A B} (f : A → option B) (l : list A) :
  length (omap f l) = length l ↔ Forall (λ x, is_Some (f x)) l.
Proof.
  induction l as [|x l IH]; csimpl.
  - split; [constructor|done].
  - rewrite Forall_cons. pose proof (omap_length_le f l).
    destruct (f x) eqn:E; csimpl.
    + rewrite <- IH. split; [intros; split; [eauto|lia]|intros [_ ?]; lia].
    + split; [lia|]. intros [[? ?] _]. done.
Qed.

Section collect_facts.
Context `{Decoder.DecoderEnv}.

Lemma parsed_all (s : string) :
  length (Decoder.parsed (Decoder.fragments s)) = size (Decoder.fragments s)
  ↔ Decoder.all_parse s.
Proof.
  unfold Decoder.parsed, Decoder.all_parse, size, set_size. simpl.
  rewrite omap_length_all, !Forall_forall. unfold Decoder.fragments.
  split; intros Hall r Hr; apply Hall.
  - apply elem_of_elements, elem_of_list_to_set. done.
  - apply elem_of_elements, elem_of_list_to_set in Hr. done.
Qed.

(** The loop of lines 188-204 in closed form: the candidates of the usable
    finished strings, in their order, until [aim_size] of them are there. *)
Lemma collect_closed (pool : list (string * score)) :
  ∀ (answer : list (list string * score)) (aim_size : Z),
    0 ≤ aim_size →
    Decoder.collect pool answer aim_size
    = answer ++ take (Z.to_nat aim_size)
                  (Decoder.candidate_of <$> filter Decoder.usable pool).
Proof.
  induction pool as [|fb pool IH]; intros answer aim_size Haim; simpl.
  - by rewrite take_nil, app_nil_r.
  - destruct (decide (aim_size = 0)) as [->|Hpos].
    { simpl. by rewrite app_nil_r. }
    rewrite filter_cons.
    destruct (decide (length (Decoder.parsed (Decoder.fragments fb.1))
                      ≠ size (Decoder.fragments fb.1))) as [Hbad|Hgood].
    + rewrite decide_False; [by apply IH|].
      intros [Hall _]. apply parsed_all in Hall. done.
    + assert (Decoder.all_parse fb.1) as Hall.
      { apply parsed_all. by destruct (decide (length (Decoder.parsed (Decoder.fragments fb.1))
                                              = size (Decoder.fragments fb.1))). }
      destruct (decide (size (Decoder.canonical (Decoder.fragments fb.1)) ≠ 0%nat))
        as [Hsome|Hnone].
      * rewrite decide_True.
        2:{ split; [done|]. intros Hempty. apply Hsome. rewrite Hempty. apply size_empty. }
        rewrite IH by lia. rewrite <- app_assoc. f_equal.
        replace (Z.to_nat aim_size) with (S (Z.to_nat (aim_size - 1))) by lia.
        done.
      * rewrite decide_False; [by apply IH|].
        intros [_ Hne]. apply Hnone. intros Hsize. apply Hne.
        apply size_empty_iff in Hsize. by apply leibniz_equiv.
Qed.

(** C4.  For a beam width [B >= 1], what [get_beam] returns has at most [B]
    candidates.  They are the candidates of the first [B] usable strings of
    the ranked finished pool, where a finished string is usable when each of
    its fragments parses and they give at least one canonical form: every
    other finished string is left out whole.  So each returned candidate
    comes from a finished string all of whose fragments parse, and is not
    empty. *)
Theorem get_beam_at_most_B_valid (product : string) (B : Z)
    (answer : list (list string * score)) :
  1 ≤ B →
  Decoder.get_beam product B = Ok answer →
  Z.of_nat (length answer) ≤ B
  ∧ ∃ pool,
      Decoder.finished_pool product B = Ok pool
      ∧ answer = take (Z.to_nat B) (Decoder.candidate_of <$> filter Decoder.usable pool)
      ∧ Forall (λ cand, ∃ fb, fb ∈ pool ∧ cand = Decoder.candidate_of fb ∧
                          Decoder.all_parse fb.1 ∧ cand.1 ≠ []) answer.
Proof.
  intros HB Hrun. unfold Decoder.get_beam in Hrun.
  bind_ok Hrun Epool. rename a into pool. simplify_eq.
  rewrite collect_closed by lia. simpl.
  split; [rewrite length_take; lia|].
  exists pool. split; [done|]. split; [done|].
  apply Forall_forall. intros cand Hcand.
  apply elem_of_take in Hcand as (i & Hi & _).
  apply list_elem_of_lookup_2, list_elem_of_fmap in Hi as (fb & -> & Hfb).
  apply list_elem_of_filter in Hfb as [[Hall Hne] Hfb].
  exists fb. split; [done|]. split; [done|]. split; [done|].
  unfold Decoder.candidate_of. simpl. intros Hnil.
  apply (f_equal length) in Hnil. unfold Py.sorted_str in Hnil.
  rewrite sorted_length in Hnil. simpl in Hnil.
  apply Hne. apply leibniz_equiv, size_empty_iff. exact Hnil.
Qed.

End collect_facts.

Lemma get_beam_at_most_B_valid_witness :
  let answer : list (list string * Z) := [(["C"], 1); (["CC"], 1)]%string in
  Z.of_nat (length answer) ≤ 2
  ∧ ∃ pool,
      @Decoder.finished_pool Example.int_scores Example.toy_decoder "T" 2 = Ok pool
      ∧ answer = take (Z.to_nat 2)
                   (@Decoder.candidate_of Example.int_scores Example.toy_decoder
                      <$> filter (@Decoder.usable Example.int_scores Example.toy_decoder) pool)
      ∧ Forall (λ cand, ∃ fb, fb ∈ pool ∧
                  cand = @Decoder.candidate_of Example.int_scores Example.toy_decoder fb ∧
                  @Decoder.all_parse Example.int_scores Example.toy_decoder fb.1 ∧
                  cand.1 ≠ []) answer.
Proof.
  intros answer.
  apply (@get_beam_at_most_B_valid Example.int_scores Example.toy_decoder "T" 2 answer).
  - lia.
  - vm_compute. reflexivity.
Defined.

(** ** The decoder returns when the beam fits the vocabulary *)

Section decoder_runs.
Context `{Decoder.DecoderEnv}.

Lemma length_beam_rows (product : string) (lines : Decoder.beam) :
  length (Decoder.beam_rows product lines)
  = (length lines * Z.to_nat Decoder.vocab_size)%nat.
Proof.
  unfold Decoder.beam_rows.
  assert (∀ (f : nat → string * score → list (score * Z)) (l : Decoder.beam) (n : nat),
            (∀ i b, length (f i b) = n) →
            length (mjoin (imap f l)) = (length l * n)%nat) as Hgen.
  { intros f l n. revert f. induction l as [|b l IH]; intros f Hf; [done|].
    rewrite imap_cons. simpl. rewrite length_app, Hf, IH; [lia|]. intros i b'. apply Hf. }
  apply Hgen. intros i b. unfold Decoder.rows_of_line.
  by rewrite length_fmap, length_range.
Qed.

Lemma length_first_rows (product : string) :
  length (Decoder.first_rows product) = Z.to_nat Decoder.vocab_size.
Proof. unfold Decoder.first_rows. by rewrite length_fmap, length_range. Qed.

(** The loop of lines 163-174 over any list of row indices that are in range
    and decode to a live line. *)
Lemma select_loop_ok (lines : Decoder.beam) (ranked_result : list (score * Z))
    (indices : list Z) :
  ∀ acc0,
    (∀ i, i ∈ indices → ∃ row, ranked_result !! Z.to_nat i = Some row ∧
                               is_Some (lines !! Z.to_nat (Decoder.beam_index row.2))) →
    ∃ acc,
      for_each
        (λ acc i, match ranked_result !! Z.to_nat i with
                  | None => Raise IndexError
                  | Some row => Decoder.select_row lines acc row
                  end) indices acc0 = Ok acc
      ∧ Z.of_nat (length (Decoder.new_beams acc)) - Decoder.object_size acc
        = Z.of_nat (length (Decoder.new_beams acc0)) - Decoder.object_size acc0
          + Z.of_nat (length indices)
      ∧ Decoder.object_size acc ≤ Decoder.object_size acc0.
Proof.
  induction indices as [|i indices IH]; intros acc0 Hrows; simpl.
  - exists acc0. split; [done|]. lia.
  - destruct (Hrows i) as (row & Hrow & [line Hline]); [by left|].
    rewrite Hrow. rewrite (select_row_selected lines acc0 row line Hline). simpl.
    destruct (IH (Decoder.selected acc0
                    (line.1 +:+ Decoder.ix_to_char (Decoder.symbol_index row.2))
                    (Decoder.ix_to_char (Decoder.symbol_index row.2)) row.1))
      as (acc & Hacc & Hlen & Hsize).
    { intros j Hj. apply Hrows. by right. }
    exists acc. split; [done|].
    unfold Decoder.selected in Hlen, Hsize.
    destruct (decide (Decoder.ix_to_char (Decoder.symbol_index row.2) = "$"));
      simpl in Hlen, Hsize; [|rewrite length_app in Hlen; simpl in Hlen]; lia.
Qed.

Lemma beam_step_ok (product : string) (step : Z) (st : Decoder.beam_state) :
  Decoder.vocab_size ≤ 100 → Decoder.live_ok st →
  ∃ r, Decoder.beam_step product step st = Ok r ∧ Decoder.live_ok r.1.
Proof.
  intros Hvocab Hlive. unfold Decoder.beam_step.
  destruct (decide (length (Decoder.lines st) = 0%nat)) as [Hempty|Hsome].
  { eexists. split; [done|]. done. }
  destruct Hlive as [Hnil|[Hlen Hsize]]; [by rewrite Hnil in Hsome|].
  set (result := if decide (step = 0) then Decoder.first_rows product
                 else Decoder.beam_rows product (Decoder.lines st)).
  assert (Z.to_nat (Decoder.st_object_size st) ≤ length (Decoder.ranked result))%nat as Hrows.
  { unfold Decoder.ranked. rewrite sorted_length. subst result.
    destruct (decide (step = 0)).
    - rewrite length_first_rows. lia.
    - rewrite length_beam_rows. nia. }
  assert (∀ row, row ∈ Decoder.ranked result →
                 is_Some (Decoder.lines st !! Z.to_nat (Decoder.beam_index row.2))) as Hdecode.
  { intros row Hrow. unfold Decoder.ranked in Hrow. rewrite elem_of_sorted in Hrow.
    subst result. destruct (decide (step = 0)).
    - apply elem_of_first_rows in Hrow as (j & Hj & ->). simpl.
      destruct (pack_unpack 0 j) as [_ Hbeam]; [lia|].
      replace (Decoder.pack 0 j) with j in Hbeam by (unfold Decoder.pack; lia).
      rewrite Hbeam. simpl. destruct (Decoder.lines st); [done|eauto].
    - apply elem_of_beam_rows in Hrow as (i & line & j & Hi & Hj & ->). simpl.
      destruct (pack_unpack (Z.of_nat i) j) as [_ Hbeam]; [lia|].
      rewrite Hbeam, Nat2Z.id. eauto. }
  destruct (select_loop_ok (Decoder.lines st) (Decoder.ranked result)
              (Py.range (Decoder.st_object_size st))
              {| Decoder.new_beams := []; Decoder.final_beams := Decoder.st_final_beams st;
                 Decoder.object_size := Decoder.st_object_size st |})
    as (acc & Hacc & Hnew & Hle).
  { intros i Hi. apply elem_of_range in Hi.
    destruct (lookup_lt_is_Some_2 (Decoder.ranked result) (Z.to_nat i)) as [row Hrow]; [lia|].
    exists row. split; [done|]. apply Hdecode. by eapply list_elem_of_lookup_2. }
  unfold Decoder.select. rewrite Hacc. simpl. eexists. split; [done|].
  right. simpl in *. rewrite length_range in Hnew. lia.
Qed.

Lemma beam_loop_ok (product : string) (steps : list Z) :
  Decoder.vocab_size ≤ 100 →
  ∀ st, Decoder.live_ok st →
        ∃ st', Decoder.beam_loop product steps st = Ok st' ∧ Decoder.live_ok st'.
Proof.
  intros Hvocab. induction steps as [|step steps IH]; intros st Hlive; simpl.
  - by exists st.
  - destruct (beam_step_ok product step st Hvocab Hlive) as ([st1 brk] & -> & Hlive1).
    simpl. destruct brk; [by exists st1|]. by apply IH.
Qed.

(** Over a step predictor that returns for every partial string: when the
    vocabulary has at most 100 symbols and the beam is not wider than the
    vocabulary, the loops of [get_beam] raise nothing. *)
Lemma decoder_returns (product : string) (beam_size : Z) :
  Decoder.vocab_size ≤ 100 → beam_size ≤ Decoder.vocab_size →
  ∃ answer, Decoder.get_beam product beam_size = Ok answer.
Proof.
  intros Hvocab Hbeam.
  destruct (beam_loop_ok product (Py.range Decoder.max_length) Hvocab
              (Decoder.initial beam_size)) as (st & Hst & _).
  { unfold Decoder.live_ok, Decoder.initial. simpl.
    destruct (Z.le_gt_cases beam_size 0).
    - left. by replace (Z.to_nat beam_size) with 0%nat by lia.
    - right. rewrite length_replicate. lia. }
  unfold Decoder.get_beam, Decoder.finished_pool. rewrite Hst. simpl. eauto.
Qed.

End decoder_runs.

(** ** The two models of the expansion agree *)

Section store_reads.
Context `{SearchEnv}.
Implicit Types h : Store.heap.

Lemma strs_at_mono h h' l xs : h ⊆ h' → Store.strs_at h l xs → Store.strs_at h' l xs.
Proof. intros Hsub Hl. by eapply lookup_weaken. Qed.

Lemma info_at_mono h h' l ri : h ⊆ h' → Store.info_at h l ri → Store.info_at h' l ri.
Proof.
  intros Hsub (r & Hl & Hr). exists r. split; by eapply lookup_weaken.
Qed.

Lemma routes_at_mono h h' l ris :
  h ⊆ h' → Store.routes_at h l ris → Store.routes_at h' l ris.
Proof.
  intros Hsub (ds & Hl & Hds). exists ds. split; [by eapply lookup_weaken|].
  eapply Forall2_impl; [exact Hds|]. intros d ri. by apply info_at_mono.
Qed.

Lemma item_at_mono h h' (it : Store.item_ref) (v : item) :
  h ⊆ h' → Store.item_at h it v → Store.item_at h' it v.
Proof.
  intros Hsub (? & ? & ?). split; [done|].
  split; [by eapply routes_at_mono|by eapply strs_at_mono].
Qed.

Lemma answer_at_mono h h' (a : Store.answer_ref) (v : answer) :
  h ⊆ h' → Store.answer_at h a v → Store.answer_at h' a v.
Proof. intros Hsub (? & ?). split; [done|by eapply strs_at_mono]. Qed.

Lemma info_at_fun h l ri ri' : Store.info_at h l ri → Store.info_at h l ri' → ri = ri'.
Proof.
  intros (r & Hl & Hr) (r' & Hl' & Hr'). destruct ri, ri'. simpl in *.
  rewrite Hl in Hl'. injection Hl' as <- <-. rewrite Hr in Hr'. by injection Hr' as <-.
Qed.

(** An update of an object that is not a list of strings, away from a
    branch, leaves the branch as it reads. *)
Lemma info_at_insert h y (o : Store.obj) d ri :
  Store.info_at h d ri → d ≠ y → (∀ xs, h !! y ≠ Some (Store.StrList xs)) →
  Store.info_at (<[y := o]> h) d ri.
Proof.
  intros (r & Hd & Hr) Hne Hy. exists r.
  rewrite !lookup_insert_ne; [done| |done]. intros <-. by eapply Hy.
Qed.

Lemma copy_strs_reads h0 memo h l xs :
  h0 ⊆ h → Store.memo_ok h0 memo h → Store.strs_at h0 l xs →
  ∃ memo' h' y,
    Store.copy_strs memo h l = Ok (memo', h', y) ∧
    Store.strs_at h' y xs ∧ h ⊆ h' ∧ Store.memo_ok h0 memo' h'.
Proof.
  intros Hsub Hmemo Hl. unfold Store.copy_strs.
  destruct (memo !! l) as [y|] eqn:Em.
  - exists memo, h, y. split; [done|]. split; [|done]. by apply (Hmemo l y Em).
  - assert (Store.read_strs h l = Ok xs) as ->.
    { unfold Store.read_strs. by rewrite (lookup_weaken _ _ _ _ Hl Hsub). }
    simpl. do 3 eexists. split; [done|].
    assert (h !! fresh (dom h) = None) as Hfresh by apply not_elem_of_dom, is_fresh.
    rewrite insert_insert_eq.
    assert (h ⊆ <[fresh (dom h) := Store.StrList xs]> h) as Hh' by by apply insert_subseteq.
    split; [apply lookup_insert_eq|]. split; [done|].
    intros k y Hk. apply lookup_insert_Some in Hk as [[<- <-]|[Hne Hk]].
    + split.
      * intros xs' Hxs'. unfold Store.strs_at in *. rewrite Hl in Hxs'. simplify_eq.
        apply lookup_insert_eq.
      * intros ri (r & Hri & _). unfold Store.strs_at in Hl. rewrite Hl in Hri. done.
    + destruct (Hmemo k y Hk) as [Hs Hi]. split.
      * intros xs' Hxs'. eapply strs_at_mono; [exact Hh'|]. by apply Hs.
      * intros ri Hri. eapply info_at_mono; [exact Hh'|]. by apply Hi.
Qed.

Lemma copy_info_reads h0 memo h l ri :
  h0 ⊆ h → Store.memo_ok h0 memo h → Store.info_at h0 l ri →
  ∃ memo' h' y,
    Store.copy_info memo h l = Ok (memo', h', y) ∧
    Store.info_at h' y ri ∧ h ⊆ h' ∧ Store.memo_ok h0 memo' h'.
Proof.
  intros Hsub Hmemo Hl. unfold Store.copy_info.
  destruct (memo !! l) as [y|] eqn:Em.
  - exists memo, h, y. split; [done|]. split; [|done]. by apply (Hmemo l y Em).
  - destruct Hl as (r & Hl & Hr).
    assert (Store.read_info h l = Ok (r, depth ri)) as ->.
    { unfold Store.read_info. by rewrite (lookup_weaken _ _ _ _ Hl Hsub). }
    simpl.
    set (y := fresh (dom h)).
    assert (h !! y = None) as Hfresh by apply not_elem_of_dom, is_fresh.
    set (h1 := <[y := Store.RouteInfo r (depth ri)]> h).
    assert (h ⊆ h1) as Hh1 by by apply insert_subseteq.
    assert (h0 ⊆ h1) as Hh01 by (by etrans).
    assert (Store.info_at h1 y ri) as Hplace.
    { exists r. split; [apply lookup_insert_eq|].
      eapply lookup_weaken; [exact Hr|done]. }
    destruct (copy_strs_reads h0 (<[l := y]> memo) h1 r (route ri) Hh01)
      as (m2 & h2 & r' & Hcopy & Hr' & Hh2 & Hm2); [|done|].
    { intros k y' Hk. apply lookup_insert_Some in Hk as [[<- <-]|[Hne Hk]].
      - split.
        + intros xs Hxs. unfold Store.strs_at in Hxs. rewrite Hl in Hxs. done.
        + intros ri' Hri'.
          assert (ri' = ri) as -> by (eapply info_at_fun; [exact Hri'|by exists r]).
          done.
      - destruct (Hmemo k y' Hk) as [Hs Hi]. split.
        + intros xs Hxs. eapply strs_at_mono; [exact Hh1|]. by apply Hs.
        + intros ri' Hri'. eapply info_at_mono; [exact Hh1|]. by apply Hi. }
    unfold Store.alloc. simpl. fold y. fold h1. rewrite Hcopy. simpl.
    do 3 eexists. split; [done|].
    assert (h2 !! y = Some (Store.RouteInfo r (depth ri))) as Hy2.
    { eapply lookup_weaken; [|exact Hh2]. apply lookup_insert_eq. }
    assert (r' ≠ y) as Hr'y.
    { intros ->. unfold Store.strs_at in Hr'. rewrite Hy2 in Hr'. done. }
    assert (Store.info_at (<[y := Store.RouteInfo r' (depth ri)]> h2) y ri) as Hfinal.
    { exists r'. split; [apply lookup_insert_eq|]. by rewrite lookup_insert_ne. }
    split; [done|]. split.
    + apply map_subseteq_spec. intros k o Hk.
      rewrite lookup_insert_ne; [|intros <-; by rewrite Hfresh in Hk].
      eapply lookup_weaken; [|exact Hh2]. by eapply lookup_weaken.
    + intros k y' Hk. destruct (Hm2 k y' Hk) as [Hs Hi]. split.
      * intros xs Hxs. specialize (Hs xs Hxs). unfold Store.strs_at in *.
        rewrite lookup_insert_ne; [done|]. intros <-. rewrite Hy2 in Hs. done.
      * intros ri' Hri'. specialize (Hi ri' Hri').
        destruct (decide (y' = y)) as [->|Hne].
        -- assert (ri' = ri) as ->; [|done].
           eapply info_at_fun; [exact Hi|]. eapply info_at_mono; [exact Hh2|done].
        -- apply info_at_insert; [done|done|]. intros xs. by rewrite Hy2.
Qed.

Lemma copy_infos_reads h0 ds ris :
  Forall2 (Store.info_at h0) ds ris →
  ∀ memo h, h0 ⊆ h → Store.memo_ok h0 memo h →
  ∃ memo' h' ys,
    Store.copy_infos memo h ds = Ok (memo', h', ys) ∧
    Forall2 (Store.info_at h') ys ris ∧ h ⊆ h' ∧ Store.memo_ok h0 memo' h'.
Proof.
  induction 1 as [|d ri ds ris Hd Hds IH]; intros memo h Hsub Hmemo; simpl.
  - exists memo, h, []. split; [done|]. split; [constructor|done].
  - destruct (copy_info_reads h0 memo h d ri Hsub Hmemo Hd)
      as (m1 & h1 & y & -> & Hy & Hh1 & Hm1).
    simpl. destruct (IH m1 h1) as (m2 & h2 & ys & -> & Hys & Hh2 & Hm2);
      [by etrans|done|].
    simpl. exists m2, h2, (y :: ys). split; [done|].
    split; [|split; [by etrans|done]].
    constructor; [|done]. by eapply info_at_mono.
Qed.

Lemma deepcopy_routes_reads h l ris :
  Store.routes_at h l ris →
  ∃ h' y, Store.deepcopy_routes h l = Ok (h', y) ∧
          Store.routes_at h' y ris ∧ h ⊆ h' ∧ h !! y = None.
Proof.
  intros (ds & Hl & Hds). unfold Store.deepcopy_routes, Store.read_refs. rewrite Hl. simpl.
  set (y := fresh (dom h)).
  assert (h !! y = None) as Hfresh by apply not_elem_of_dom, is_fresh.
  set (h1 := <[y := Store.RefList []]> h).
  assert (h ⊆ h1) as Hh1 by by apply insert_subseteq.
  destruct (copy_infos_reads h ds ris Hds {[ l := y ]} h1 Hh1)
    as (m2 & h2 & ys & -> & Hys & Hh2 & _).
  { intros k y' Hk. apply lookup_singleton_Some in Hk as [<- <-]. split.
    - intros xs Hxs. unfold Store.strs_at in Hxs. rewrite Hl in Hxs. done.
    - intros ri (r & Hri & _). rewrite Hl in Hri. done. }
  simpl. do 2 eexists. split; [done|].
  assert (h2 !! y = Some (Store.RefList [])) as Hy2.
  { eapply lookup_weaken; [|exact Hh2]. apply lookup_insert_eq. }
  split; [|split; [|done]].
  - exists ys. split; [apply lookup_insert_eq|].
    eapply Forall2_impl; [exact Hys|]. intros d ri Hd.
    apply info_at_insert; [done| |intros xs; by rewrite Hy2].
    intros ->. destruct Hd as (r & Hd & _). rewrite Hy2 in Hd. done.
  - apply map_subseteq_spec. intros k o Hk.
    rewrite lookup_insert_ne; [|intros <-; by rewrite Hfresh in Hk].
    eapply lookup_weaken; [|exact Hh2]. by eapply lookup_weaken.
Qed.

Lemma deepcopy_strs_reads h l xs :
  Store.strs_at h l xs →
  ∃ h' y, Store.deepcopy_strs h l = Ok (h', y) ∧
          Store.strs_at h' y xs ∧ h ⊆ h' ∧ h !! y = None.
Proof.
  intros Hl. unfold Store.deepcopy_strs.
  destruct (copy_strs_reads h ∅ h l xs) as (m & h' & y & Hcopy & Hy & Hh' & _);
    [done|by intros k y Hk|done|].
  rewrite Hcopy. simpl. exists h', y. split; [done|]. split; [done|]. split; [done|].
  apply copy_strs_keeps with (h0 := h) in Hcopy as (_ & Hnew & _);
    [done|done|apply map_Forall_empty].
Qed.

(** One pass of the loop of lines 341-346 in the two models. *)
Lemma partition_step_reads (first : route_info) (first_route sm : Store.loc)
    (v : Store.loop_vars) (p : partition) (reactant : string) :
  Store.loop_at sm v p →
  Store.strs_at (Store.lv_heap v) first_route (route first) → first_route ≠ sm →
  ∃ v', Store.partition_step first_route (depth first) sm v reactant = Ok v' ∧
        Store.loop_at sm v' (partition_step first p reactant) ∧
        Store.strs_at (Store.lv_heap v') first_route (route first).
Proof.
  intros (Hest & Hsm & ds & Hir & Hds) Hfirst Hne.
  unfold Store.partition_step, partition_step.
  destruct (check_reactant_is_material reactant).
  - unfold Store.append, Store.read_strs. rewrite Hsm. simpl.
    eexists. split; [done|]. unfold Store.loop_at, Store.strs_at. simpl.
    split; [|by rewrite lookup_insert_ne].
    split; [done|]. split; [apply lookup_insert_eq|].
    exists ds. split.
    + rewrite lookup_insert_ne; [done|]. intros Heq. rewrite <- Heq in Hir.
      unfold Store.strs_at in Hsm. rewrite Hsm in Hir. done.
    + eapply Forall2_impl; [exact Hds|]. intros d ri (r & Hd & Hr & Hrsm).
      exists r. rewrite !lookup_insert_ne; [done|done|].
      intros <-. unfold Store.strs_at in Hsm. rewrite Hsm in Hd. done.
  - unfold Store.read_strs. rewrite Hfirst. simpl.
    set (h := Store.lv_heap v) in *.
    set (r := fresh (dom h)).
    assert (h !! r = None) as Hr by apply not_elem_of_dom, is_fresh.
    set (h1 := <[r := Store.StrList (route first ++ [reactant])]> h).
    set (d := fresh (dom h1)).
    assert (h1 !! d = None) as Hd by apply not_elem_of_dom, is_fresh.
    set (h2 := <[d := Store.RouteInfo r (depth first + 1)]> h1).
    assert (h ⊆ h1) as Hh1 by by apply insert_subseteq.
    assert (h1 ⊆ h2) as Hh2 by by apply insert_subseteq.
    assert (h ⊆ h2) as Hh by by etrans.
    unfold Store.read_refs. rewrite (lookup_weaken _ _ _ _ Hir Hh). simpl.
    set (n := fresh (dom h2)).
    assert (h2 !! n = None) as Hn by apply not_elem_of_dom, is_fresh.
    assert (h2 ⊆ <[n := Store.RefList (d :: ds)]> h2) as Hh3 by by apply insert_subseteq.
    eexists. split; [done|]. simpl.
    split; [|eapply lookup_weaken; [exact Hfirst|by etrans]].
    split; [by rewrite Hest|]. split.
    { eapply lookup_weaken; [exact Hsm|by etrans]. }
    exists (d :: ds). split; [apply lookup_insert_eq|].
    constructor.
    + exists r. simpl. split; [|split].
      * eapply lookup_weaken; [|exact Hh3]. apply lookup_insert_eq.
      * eapply lookup_weaken; [|etrans; [exact Hh2|exact Hh3]]. apply lookup_insert_eq.
      * intros ->. unfold Store.strs_at in Hsm. fold h in Hsm. by rewrite Hr in Hsm.
    + eapply Forall2_impl; [exact Hds|]. intros d' ri (r' & Hd' & Hr' & Hne').
      exists r'. split; [|split; [|done]];
        (eapply lookup_weaken; [eassumption|by etrans]).
Qed.

Lemma partition_loop_reads (first : route_info) (first_route sm : Store.loc)
    (reactants : list string) :
  ∀ (v : Store.loop_vars) (p : partition),
    Store.loop_at sm v p →
    Store.strs_at (Store.lv_heap v) first_route (route first) → first_route ≠ sm →
    ∃ v', for_each (Store.partition_step first_route (depth first) sm) reactants v = Ok v' ∧
          Store.loop_at sm v' (fold_left (partition_step first) reactants p).
Proof.
  induction reactants as [|r rs IH]; intros v p Hv Hfirst Hne; simpl.
  - by exists v.
  - destruct (partition_step_reads first first_route sm v p r Hv Hfirst Hne)
      as (v1 & -> & Hv1 & Hfirst1).
    simpl. by apply IH.
Qed.

(** The body of the loop over the candidates in the two models. *)
Lemma expand_solution_reads (it : Store.item_ref) (v : item) (first : route_info)
    (rest : list route_info) (first_route : Store.loc) (expansion_mol : string)
    (st : Store.store_state) (pst : engine_state) (sol : list string * score) :
  routes_info v = first :: rest →
  Store.item_at (Store.objects st) it v →
  Store.strs_at (Store.objects st) first_route (route first) →
  Forall2 (Store.item_at (Store.objects st)) (Store.pool st) (nxt_queue pst) →
  Forall2 (Store.answer_at (Store.objects st)) (Store.answers st) (answer_set pst) →
  ∃ st',
    Store.expand_solution it first_route (depth first) expansion_mol st sol = Ok st' ∧
    Store.objects st ⊆ Store.objects st' ∧
    Forall2 (Store.item_at (Store.objects st')) (Store.pool st')
      (nxt_queue (expand_solution v first expansion_mol pst sol)) ∧
    Forall2 (Store.answer_at (Store.objects st')) (Store.answers st')
      (answer_set (expand_solution v first expansion_mol pst sol)).
Proof.
  intros Hv (Hscore & Hroutes & Hsm) Hfirst Hpool Hanswers.
  set (h := Store.objects st) in *. rewrite Hv in Hroutes.
  destruct (deepcopy_routes_reads h _ _ Hroutes) as (h1 & y & Hcopy & Hy & Hh1 & Hynew).
  destruct Hy as (ds & Hyl & Hds).
  destruct ds as [|d0 ds]; [by apply Forall2_nil_cons_inv in Hds|].
  apply Forall2_cons in Hds as [_ Hds].
  set (h2 := <[y := Store.RefList ds]> h1).
  assert (Store.pop0 h1 y = Ok h2) as Hpop.
  { unfold Store.pop0, Store.read_refs. by rewrite Hyl. }
  assert (h ⊆ h2) as Hh2.
  { apply insert_subseteq_r; done. }
  assert (Forall2 (λ d ri, ∃ r, h2 !! d = Some (Store.RouteInfo r (depth ri)) ∧
                               h2 !! r = Some (Store.StrList (route ri))) ds rest) as Hrest.
  { eapply Forall2_impl; [exact Hds|]. intros d ri (r & Hd & Hr). exists r.
    unfold h2. rewrite !lookup_insert_ne; [done| |];
      intros <-; [rewrite Hyl in Hr|rewrite Hyl in Hd]; done. }
  destruct (deepcopy_strs_reads h2 (Store.ref_starting_materials it) (starting_materials v))
    as (h3 & sm & Hcopy_sm & Hsm3 & Hh3 & Hsmnew).
  { by eapply strs_at_mono. }
  assert (h ⊆ h3) as Hh by (by etrans).
  assert (h !! sm = None) as Hsm_h by (by eapply lookup_weaken_None).
  assert (h3 !! y = Some (Store.RefList ds)) as Hy3.
  { eapply lookup_weaken; [|exact Hh3]. apply lookup_insert_eq. }
  unfold Store.expand_solution, expand_solution.
  fold h. rewrite Hcopy. simpl. rewrite Hpop. simpl. rewrite Hcopy_sm. simpl.
  unfold Store.read_refs at 1. rewrite Hy3. simpl.
  rewrite Hv. simpl.
  assert (length ds = length rest) as -> by (by eapply Forall2_length).
  destruct (check_reactants_are_material (Py.sorted_str sol.1)
            && bool_decide (length rest = 0%nat)).
  - unfold Store.read_strs. rewrite Hsm3. simpl.
    set (a := fresh (dom h3)).
    assert (h3 !! a = None) as Ha by apply not_elem_of_dom, is_fresh.
    set (h4 := <[a := Store.StrList (starting_materials v ++ Py.sorted_str sol.1)]> h3).
    assert (h ⊆ h4) as Hh4 by (etrans; [exact Hh|by apply insert_subseteq]).
    eexists. split; [done|]. simpl. split; [done|]. split.
    + eapply Forall2_impl; [exact Hpool|]. intros ??. by apply item_at_mono.
    + apply Forall2_app.
      * eapply Forall2_impl; [exact Hanswers|]. intros ??. by apply answer_at_mono.
      * constructor; [|constructor]. split; simpl; [by rewrite Hscore|].
        apply lookup_insert_eq.
  - destruct (partition_loop_reads first first_route sm (Py.sorted_str sol.1)
                {| Store.lv_heap := h3; Store.lv_estimation_cost := s0;
                   Store.lv_iter_routes := y |}
                {| estimation_cost := s0;
                   iter_starting_materials := starting_materials v;
                   iter_routes := rest |})
      as (v' & Hloop & Hest & Hsm' & ds' & Hir & Hds').
    { split; [done|]. split; [done|]. exists ds. split; [done|]. simpl.
      eapply Forall2_impl; [exact Hrest|]. intros d ri (r & Hd & Hr).
      exists r. split; [by eapply lookup_weaken|]. split; [by eapply lookup_weaken|].
      intros ->. by rewrite Hsmnew in Hr. }
    { simpl. by eapply strs_at_mono. }
    { intros ->. unfold Store.strs_at in Hfirst. by rewrite Hsm_h in Hfirst. }
    rewrite Hloop. simpl.
    assert (h ⊆ Store.lv_heap v') as Hv'.
    { eapply partition_loop_keeps in Hloop as [? _]; done. }
    eexists. split; [done|]. simpl. split; [done|]. split.
    + apply Forall2_app.
      * eapply Forall2_impl; [exact Hpool|]. intros ??. by apply item_at_mono.
      * constructor; [|constructor]. split; simpl; [by rewrite Hscore, Hest|].
        split; [|done]. exists ds'. split; [done|].
        eapply Forall2_impl; [exact Hds'|]. intros d ri (r & Hd & Hr & _). by exists r.
    + eapply Forall2_impl; [exact Hanswers|]. intros ??. by apply answer_at_mono.
Qed.

Lemma expand_solutions_read (it : Store.item_ref) (v : item) (first : route_info)
    (rest : list route_info) (first_route : Store.loc) (expansion_mol : string)
    (solutions : list (list string * score)) :
  routes_info v = first :: rest →
  ∀ (st : Store.store_state) (pst : engine_state),
    Store.item_at (Store.objects st) it v →
    Store.strs_at (Store.objects st) first_route (route first) →
    Forall2 (Store.item_at (Store.objects st)) (Store.pool st) (nxt_queue pst) →
    Forall2 (Store.answer_at (Store.objects st)) (Store.answers st) (answer_set pst) →
    ∃ st',
      for_each (Store.expand_solution it first_route (depth first) expansion_mol)
        solutions st = Ok st' ∧
      Forall2 (Store.item_at (Store.objects st')) (Store.pool st')
        (nxt_queue (fold_left (expand_solution v first expansion_mol) solutions pst)) ∧
      Forall2 (Store.answer_at (Store.objects st')) (Store.answers st')
        (answer_set (fold_left (expand_solution v first expansion_mol) solutions pst)).
Proof.
  intros Hv. induction solutions as [|sol sols IH]; intros st pst Hit Hfirst Hpool Hans; simpl.
  - by exists st.
  - destruct (expand_solution_reads it v first rest first_route expansion_mol st pst sol)
      as (st1 & -> & Hsub & Hpool1 & Hans1); [done..|].
    simpl. apply IH; [by eapply item_at_mono|by eapply strs_at_mono|done|done].
Qed.

(** X2.  The expansion of a node over the store does what the first model says:
    when the store holds the node [v] under the reference [it], a pool that
    reads as [q] and answers that read as [a], then both models raise the same
    exception, or both return, and then the pool and the answers of the store
    read as the pool and the answers of the first model. *)
Theorem store_expansion_refines (max_depth : Z) (st : Store.store_state)
    (it : Store.item_ref) (v : item) (q : list item) (a : list answer) (lg : list event) :
  Store.item_at (Store.objects st) it v →
  Forall2 (Store.item_at (Store.objects st)) (Store.pool st) q →
  Forall2 (Store.answer_at (Store.objects st)) (Store.answers st) a →
  match expand_item max_depth {| answer_set := a; nxt_queue := q; log := lg |} v with
  | Ok pst' =>
      ∃ st', Store.expand_item max_depth st it = Ok st' ∧
             Forall2 (Store.item_at (Store.objects st')) (Store.pool st') (nxt_queue pst') ∧
             Forall2 (Store.answer_at (Store.objects st')) (Store.answers st')
               (answer_set pst')
  | Raise e => Store.expand_item max_depth st it = Raise e
  end.
Proof.
  intros Hit Hpool Hans. pose proof Hit as (Hscore & (ds & Hl & Hds) & Hsm).
  unfold expand_item, Store.expand_item, Store.read_refs. rewrite Hl. simpl.
  destruct (routes_info v) as [|first rest] eqn:Hv.
  { apply Forall2_nil_inv_r in Hds as ->. done. }
  apply Forall2_cons_inv_r in Hds as (d & ds' & (r & Hd & Hr) & Hds & ->).
  unfold Store.read_info. rewrite Hd. simpl.
  destruct (max_depth <? depth first).
  { exists st. by repeat split. }
  unfold Store.read_strs. rewrite Hr. simpl.
  destruct (last (route first)) as [expansion_mol|]; [|done].
  destruct (get_beam expansion_mol beam_size) as [solutions|e]; [|done]. simpl.
  destruct (expand_solutions_read it v first rest r expansion_mol solutions)
    with (st := st)
         (pst := {| answer_set := a; nxt_queue := q; log := lg ++ [Decode first] |})
    as (st' & Hrun & Hpool' & Hans'); [done..|].
  exists st'. done.
Qed.

End store_reads.

Section read_relations.
Context `{SearchEnv}.
Implicit Types h : Store.heap.

Lemma read_all_Forall2 {A} (rd : Store.loc → res A) (ls : list Store.loc) (xs : list A) :
  Store.read_all rd ls = Ok xs ↔ Forall2 (λ l x, rd l = Ok x) ls xs.
Proof.
  revert xs. induction ls as [|l ls IH]; intros xs; simpl.
  - split; [intros [= <-]; constructor|]. intros Hall. by apply Forall2_nil_inv_l in Hall as ->.
  - split.
    + intros Hrun. bind_ok Hrun E. bind_ok Hrun Es. simplify_eq.
      constructor; [done|]. by apply IH.
    + intros Hall. apply Forall2_cons_inv_l in Hall as (x & xs' & Hx & Hxs & ->).
      rewrite Hx. simpl. apply IH in Hxs. by rewrite Hxs.
Qed.

Lemma read_route_info_at h l ri : Store.read_route_info h l = Ok ri ↔ Store.info_at h l ri.
Proof.
  unfold Store.read_route_info, Store.read_info, Store.read_strs, Store.info_at. split.
  - intros Hrun. destruct (h !! l) as [[ | r d | ]|] eqn:El; simpl in Hrun; try done.
    destruct (h !! r) as [[xs | | ]|] eqn:Er; simpl in Hrun; try done.
    simplify_eq. by exists r.
  - intros (r & -> & Hr). simpl. rewrite Hr. simpl. by destruct ri.
Qed.

(** Reading a node through its reference gives [v] exactly when the
    reference stands for [v]. *)
Lemma read_item_at h (it : Store.item_ref) (v : item) :
  Store.read_item h it = Ok v ↔ Store.item_at h it v.
Proof.
  unfold Store.read_item, Store.read_routes_info, Store.item_at, Store.routes_at,
    Store.strs_at, Store.read_refs, Store.read_strs.
  split.
  - intros Hrun.
    destruct (h !! Store.ref_routes_info it) as [[ | | ds]|] eqn:El; simpl in Hrun; try done.
    destruct (Store.read_all (Store.read_route_info h) ds) as [ris|] eqn:Eris;
      simpl in Hrun; [|done].
    destruct (h !! Store.ref_starting_materials it) as [[xs | | ]|] eqn:Es;
      simpl in Hrun; try done.
    simplify_eq. simpl. split; [done|]. split; [|done].
    exists ds. split; [done|]. apply read_all_Forall2 in Eris.
    eapply Forall2_impl; [exact Eris|]. intros l ri. by apply read_route_info_at.
  - intros (Hscore & (ds & -> & Hds) & ->). simpl.
    assert (Store.read_all (Store.read_route_info h) ds = Ok (routes_info v)) as ->.
    { apply read_all_Forall2. eapply Forall2_impl; [exact Hds|].
      intros l ri. by apply read_route_info_at. }
    simpl. destruct v. simpl in *. by subst.
Qed.

End read_relations.

Lemma store_expansion_refines_witness :
  let env := Example.stub_env 5 Example.AB_stock Example.two_steps in
  let child := @Build_item Example.int_scores 3
                 [{| route := ["T"; "M"]; depth := 1 |}]%string ["A"%string] in
  ∃ st',
    @Store.expand_item Example.int_scores env 3 Example.root_store Example.root_ref = Ok st' ∧
    Forall2 (Store.item_at (Store.objects st')) (Store.pool st') [child] ∧
    Forall2 (Store.answer_at (Store.objects st')) (Store.answers st') [].
Proof.
  intros env child.
  apply (@store_expansion_refines Example.int_scores env 3 Example.root_store
           Example.root_ref (@root Example.int_scores env (Example.some_task 3)) [] [] []).
  - apply read_item_at. vm_compute. reflexivity.
  - constructor.
  - constructor.
Defined.

(** ** No candidate of the decoder is empty *)

Section no_empty_candidate.
Context `{Decoder.DecoderEnv}.

Lemma collect_not_empty (pool : list (string * score)) :
  ∀ (answer : list (list string * score)) (aim_size : Z),
    Forall (λ cand, cand.1 ≠ []) answer →
    Forall (λ cand, cand.1 ≠ []) (Decoder.collect pool answer aim_size).
Proof.
  induction pool as [|fb pool IH]; intros answer aim_size Hanswer; simpl; [done|].
  destruct (decide (aim_size = 0)); [done|].
  destruct (decide (length (Decoder.parsed (Decoder.fragments fb.1))
                    ≠ size (Decoder.fragments fb.1))); [by apply IH|].
  destruct (decide (size (Decoder.canonical (Decoder.fragments fb.1)) ≠ 0%nat))
    as [Hsome|]; [|by apply IH].
  apply IH. apply Forall_app. split; [done|]. constructor; [|constructor].
  simpl. intros Hnil. apply Hsome.
  apply (f_equal length) in Hnil. unfold Py.sorted_str in Hnil.
  by rewrite sorted_length in Hnil.
Qed.

(** X3.  Whatever the beam width, every candidate that [get_beam] returns has
    at least one reactant: the search run with this decoder never meets the
    candidate without reactants of the first end-to-end scenario. *)
Theorem get_beam_no_empty_candidate (product : string) (beam_size : Z) :
  match Decoder.get_beam product beam_size with
  | Ok answer => Forall (λ cand, cand.1 ≠ []) answer
  | Raise _ => True
  end.
Proof.
  unfold Decoder.get_beam.
  destruct (Decoder.finished_pool product beam_size) as [pool|]; simpl; [|done].
  by apply collect_not_empty.
Qed.

End no_empty_candidate.

(** ** A beam wider than the vocabulary *)

Lemma range_split (m n : Z) :
  0 ≤ m < n → ∃ rest, Py.range n = Py.range m ++ m :: rest.
Proof.
  intros Hmn. unfold Py.range.
  replace (Z.to_nat n) with (Z.to_nat m + S (Z.to_nat n - Z.to_nat m - 1))%nat by lia.
  rewrite seq_app, fmap_app. simpl. eexists. f_equal. f_equal. lia.
Qed.

Section wide_beam.
Context `{Decoder.DecoderEnv}.

(** Over a step predictor that returns for every partial string: when the
    beam is wider than the vocabulary, step 0 asks the ranked table, which has
    one row per symbol, for more rows than it has. *)
Lemma decoder_wide_beam_raises (product : string) (beam_size : Z) :
  0 ≤ Decoder.vocab_size ≤ 100 → Decoder.vocab_size < beam_size → 1 ≤ Decoder.max_length →
  Decoder.get_beam product beam_size = Raise IndexError.
Proof.
  intros Hvocab Hwide Hlen.
  unfold Decoder.get_beam, Decoder.finished_pool.
  destruct (range_split 0 Decoder.max_length) as [steps Hsteps]; [lia|].
  rewrite Hsteps. simpl.
  assert (Decoder.beam_step product 0 (Decoder.initial beam_size) = Raise IndexError) as ->;
    [|done].
  unfold Decoder.beam_step, Decoder.initial. simpl.
  rewrite length_replicate.
  destruct (decide (Z.to_nat beam_size = 0%nat)) as [|_]; [lia|].
  unfold Decoder.select.
  destruct (range_split Decoder.vocab_size beam_size) as [rest ->]; [lia|].
  rewrite for_each_app.
  set (lines := replicate (Z.to_nat beam_size) (""%string, s0)).
  set (table := Decoder.ranked (Decoder.first_rows product)).
  assert (length table = Z.to_nat Decoder.vocab_size) as Htable.
  { unfold table, Decoder.ranked. by rewrite sorted_length, length_first_rows. }
  destruct (select_loop_ok lines table (Py.range Decoder.vocab_size)
              {| Decoder.new_beams := []; Decoder.final_beams := [];
                 Decoder.object_size := beam_size |}) as (acc & -> & _).
  { intros i Hi. apply elem_of_range in Hi.
    destruct (lookup_lt_is_Some_2 table (Z.to_nat i)) as [row Hrow]; [lia|].
    exists row. split; [done|].
    apply list_elem_of_lookup_2 in Hrow. unfold table, Decoder.ranked in Hrow.
    rewrite elem_of_sorted in Hrow. apply elem_of_first_rows in Hrow as (j & Hj & ->).
    simpl. destruct (pack_unpack 0 j) as [_ Hbeam]; [lia|].
    replace (Decoder.pack 0 j) with j in Hbeam by (unfold Decoder.pack; lia).
    rewrite Hbeam. unfold lines.
    destruct (Z.to_nat beam_size) eqn:E; [lia|]. simpl. eauto. }
  simpl. rewrite (lookup_ge_None_2 table); [done|lia].
Qed.

End wide_beam.

(** ** Further properties of the specification's list *)

Lemma StronglySorted_sublist {A} (R : relation A) (l1 l2 : list A) :
  sublist l1 l2 → StronglySorted R l2 → StronglySorted R l1.
Proof.
  induction 1 as [|x l1 l2 Hsub IH|x l1 l2 Hsub IH]; intros Hsorted.
  - constructor.
  - apply StronglySorted_cons in Hsorted as [Hx Hl2].
    apply StronglySorted_cons. split; [|by apply IH].
    apply Forall_forall. intros y Hy. eapply Forall_forall in Hx; [done|].
    by eapply elem_of_sublist.
  - apply StronglySorted_cons in Hsorted as [_ Hl2]. by apply IH.
Qed.

Lemma string_ltb_leb (a b : string) : String.ltb a b = negb (String.leb b a).
Proof.
  unfold String.ltb, String.leb. rewrite (String.compare_antisym a b).
  by destruct (String.compare b a).
Qed.

Lemma sorted_str_sorted (l : list string) : StronglySorted String.le (Py.sorted_str l).
Proof.
  unfold Py.sorted_str.
  rewrite <- (list_fmap_id (Py.sorted id String.ltb l)).
  apply (StronglySorted_fmap id (Py.ascending id String.ltb)).
  - intros x y Hxy. unfold Py.ascending in Hxy. simpl in Hxy.
    rewrite string_ltb_leb in Hxy. apply negb_false_iff in Hxy.
    unfold String.le. by apply Is_true_true.
  - apply sorted_ascending.
    + intros x y Hxy. rewrite string_ltb_leb in *. apply negb_true_iff in Hxy.
      apply negb_false_iff.
      destruct (String.leb_total x y) as [Hle|Hle]; [done|congruence].
    + intros x y z Hxy Hyz. rewrite string_ltb_leb in *.
      apply negb_false_iff in Hxy, Hyz. apply negb_false_iff.
      apply Is_true_true. apply Is_true_true in Hxy, Hyz.
      exact (transitivity (R := String.le) Hyz Hxy).
Qed.

(** Sorting forgets the order of a list of strings. *)
Lemma sorted_str_perm (l1 l2 : list string) :
  l1 ≡ₚ l2 → Py.sorted_str l1 = Py.sorted_str l2.
Proof.
  intros Hperm. apply (StronglySorted_unique String.le); [apply sorted_str_sorted..|].
  unfold Py.sorted_str. by rewrite !sorted_perm.
Qed.

Section further_search.
Context `{SearchEnv}.

(** X5.  The [while] loop of the search ends, for every task and whatever the
    decoder answers: from some amount of fuel on, the search gives a result
    (a final state or the exception a collaborator raised), and more fuel
    gives the same one. *)
Theorem search_terminates (t : task) :
  ∃ bound r, ∀ fuel, (bound ≤ fuel)%nat → search fuel t = Some r.
Proof.
  exists (enough_fuel t).
  destruct (search_loop_ends (enough_fuel t) (enough_fuel t) (task_depth t) [root t]
              initial_state) as [r Hr]; [|done|].
  { constructor; [|constructor]. unfold enough_fuel. lia. }
  exists r. intros fuel Hfuel. unfold search. by eapply search_loop_more_fuel.
Qed.

(** X6.  Two routes with the same materials in another order have the same
    deduplication key, and of the two only one is kept. *)
Theorem permuted_routes_collapse (t : task) (a b : answer) :
  answer_materials a ≡ₚ answer_materials b →
  dedup_key a = dedup_key b
  ∧ length (final_answer_set (dedup t [a; b])) = 1%nat
  ∧ (length (ranked_candidates t [a; b]) ≤ 1)%nat.
Proof.
  intros Hperm.
  assert (dedup_key a = dedup_key b) as Hkey.
  { unfold dedup_key. f_equal. apply sorted_str_perm. by rewrite Hperm. }
  assert (length (final_answer_set (dedup t [a; b])) = 1%nat) as Hone.
  { rewrite dedup_firsts, length_fmap. simpl.
    destruct (slt (answer_score b) (answer_score a)); simpl;
      rewrite decide_False by apply not_elem_of_empty; simpl;
      rewrite decide_True; [done| |done|]; rewrite Hkey; set_solver. }
  split; [done|]. split; [done|].
  destruct (ranked_candidates_keys t [a; b]) as (l & Hl & Hkeys).
  apply (f_equal length) in Hkeys. rewrite length_fmap in Hkeys. rewrite Hkeys.
  etrans; [apply sublist_length, slice_to_sublist|].
  by rewrite Hl, length_fmap, Hone.
Qed.

(** X7.  The ranked candidates are in ascending order of [total_score]. *)
Theorem ranked_by_total_score `{!ScoreOrder} (t : task) (answers : list answer) :
  StronglySorted (λ a b, sle (total_score a) (total_score b)) (ranked_candidates t answers).
Proof.
  unfold ranked_candidates, rerank.
  eapply StronglySorted_sublist; [apply slice_to_sublist|].
  apply (sorted_ascending total_score slt slt_asym slt_negtrans).
Qed.

(** X8.  A task of depth 0 whose target has no candidate with all reactants in
    stock: the search ends after at most two rounds without a route, and the
    result is [(0, None)]. *)
Theorem depth_zero_without_terminal (t : task) (solutions : list (list string * score)) :
  task_depth t = 0 →
  get_beam (product t) beam_size = Ok solutions →
  Forall (λ sol, ¬ Forall (λ r, check_reactant_is_material r = true) sol.1) solutions →
  ∀ fuel, (2 ≤ fuel)%nat → get_route_result fuel t = Some (Ok (0, None)).
Proof.
  intros Hdepth Hbeam Hopen fuel Hfuel.
  set (head := {| route := [product t]; depth := 0 |}).
  set (deep := λ it : item, ∃ first rest, routes_info it = first :: rest ∧ depth first = 1).
  (* round 1: no answer, and every child has a head of depth 1 *)
  assert (∃ st1, for_each (expand_item 0) [root t]
                   {| answer_set := []; nxt_queue := []; log := [] |} = Ok st1 ∧
                 answer_set st1 = [] ∧ Forall deep (nxt_queue st1)) as (st1 & Hst1 & Hans1 & Hq1).
  { simpl. unfold expand_item. simpl. rewrite Hbeam. simpl. eexists. split; [done|].
    apply (fold_left_invariant _ (λ s, answer_set s = [] ∧ Forall deep (nxt_queue s)));
      [|by split].
    intros s sol Hsol [Hs Hdeep]. fold head.
    destruct (expand_solution_effect (root t) head (product t) s sol)
      as [[a Ha]|[Hne ->]]; simpl.
    - exfalso. eapply Forall_forall in Hopen; [|exact Hsol]. apply Hopen.
      unfold expand_solution in Ha. simpl in Ha.
      destruct (check_reactants_are_material (Py.sorted_str sol.1)) eqn:E; simpl in Ha.
      + rewrite check_reactants_sorted in E. by apply check_reactants_forall.
      + apply (f_equal answer_set) in Ha. simpl in Ha.
        apply (f_equal length) in Ha. rewrite length_app in Ha. simpl in Ha. lia.
    - split; [done|]. apply Forall_app. split; [done|]. constructor; [|constructor].
      destruct Hne as [Hne|Hne]; [|done]. unfold deep. simpl.
      destruct (reverse (branch head <$> non_purchasable (Py.sorted_str sol.1)))
        as [|first rest] eqn:E.
      + apply (f_equal reverse) in E. rewrite reverse_involutive in E.
        by apply fmap_nil_inv in E.
      + exists first, rest. rewrite app_nil_r. split; [done|].
        assert (first ∈ reverse (branch head <$> non_purchasable (Py.sorted_str sol.1)))
          as Hin by (rewrite E; left).
        rewrite elem_of_reverse in Hin. by apply list_elem_of_fmap in Hin as (r & -> & _). }
  (* round 2: every head is deeper than the budget *)
  assert (∀ queue st, Forall deep queue →
            for_each (expand_item 0) queue st = Ok st) as Hskip.
  { induction queue as [|it queue IH]; intros st Hq; simpl; [done|].
    apply Forall_cons in Hq as [(first & rest & Hit & Hd) Hq].
    unfold expand_item at 1. rewrite Hit, Hd. simpl. by apply IH. }
  assert (Forall deep (next_queue (nxt_queue st1))) as Hq1'.
  { apply Forall_forall. intros it Hit. apply next_queue_sublist in Hit.
    by eapply Forall_forall in Hq1. }
  unfold get_route_result, search. rewrite Hdepth.
  destruct fuel as [|[|fuel]]; [lia..|].
  simpl search_loop. unfold round at 1. simpl nxt_queue. simpl answer_set. simpl log.
  change (for_each (expand_item 0) [root t]
            {| answer_set := []; nxt_queue := []; log := [] |}) with
    (for_each (expand_item 0) [root t] {| answer_set := []; nxt_queue := []; log := [] |}).
  rewrite Hst1. simpl.
  destruct (next_queue (nxt_queue st1)) as [|it queue] eqn:Eq.
  - simpl. rewrite Hans1, ranked_candidates_nil. unfold evaluate. by rewrite Hdepth.
  - unfold round. rewrite Hskip by done. simpl.
    unfold next_queue at 1. simpl. rewrite slice_to_nil.
    destruct fuel; simpl; rewrite Hans1, ranked_candidates_nil; unfold evaluate;
      by rewrite Hdepth.
Qed.

End further_search.

Section further_decoder.
Context `{Decoder.DecoderEnv}.

(** X9.  The candidates [get_beam] returns are in ascending order of their
    length-normalised score. *)
Theorem candidates_ascending `{!ScoreOrder} (product : string) (B : Z)
    (answer : list (list string * score)) :
  1 ≤ B → Decoder.get_beam product B = Ok answer →
  StronglySorted (λ c d, sle c.2 d.2) answer.
Proof.
  intros HB Hrun. unfold Decoder.get_beam in Hrun.
  bind_ok Hrun Epool. rename a into pool. simplify_eq.
  rewrite collect_closed by lia. simpl.
  unfold Decoder.finished_pool in Epool. bind_ok Epool Est. simplify_eq.
  eapply StronglySorted_sublist; [apply sublist_take|].
  apply (StronglySorted_fmap _ (Py.ascending snd slt)); [by intros [] []|].
  eapply StronglySorted_sublist; [apply sublist_filter|].
  apply (sorted_ascending snd slt slt_asym slt_negtrans).
Qed.

End further_decoder.

Lemma ranked_by_total_score_witness :
  StronglySorted (λ a b, sle (total_score a) (total_score b))
    (@ranked_candidates Example.int_scores
       (Example.stub_env 5 Example.AB_stock Example.twice_A_decoder)
       (Example.some_task 3) Example.twice_A).
Proof.
  apply (@ranked_by_total_score Example.int_scores _ int_scores_order).
Defined.

Lemma permuted_routes_collapse_witness :
  let env := Example.stub_env 5 Example.AB_stock Example.twice_A_decoder in
  let a := @Build_answer Example.int_scores 1 ["A"; "B"]%string in
  let b := @Build_answer Example.int_scores 2 ["B"; "A"]%string in
  @dedup_key Example.int_scores env a = @dedup_key Example.int_scores env b
  ∧ length (final_answer_set (@dedup Example.int_scores env (Example.some_task 3) [a; b]))
    = 1%nat
  ∧ (length (@ranked_candidates Example.int_scores env (Example.some_task 3) [a; b]) ≤ 1)%nat.
Proof.
  intros env a b.
  apply (@permuted_routes_collapse Example.int_scores env (Example.some_task 3) a b).
  simpl. apply Permutation_swap.
Defined.

Lemma depth_zero_without_terminal_witness :
  @get_route_result Example.int_scores
    (Example.stub_env 5 Example.AB_stock Example.two_steps) 2 (Example.some_task 0)
  = Some (Ok (0, None)).
Proof.
  apply (@depth_zero_without_terminal Example.int_scores
           (Example.stub_env 5 Example.AB_stock Example.two_steps) (Example.some_task 0)
           [(["M"; "A"]%string, 2)]).
  - reflexivity.
  - reflexivity.
  - constructor; [|constructor]. simpl. intros Hall.
    apply Forall_cons in Hall as [HM _]. vm_compute in HM. discriminate.
  - lia.
Defined.

Lemma candidates_ascending_witness :
  StronglySorted (λ c d : list string * Z, @sle Example.int_scores c.2 d.2)
    [(["C"], 1); (["CC"], 1)]%string.
Proof.
  apply (@candidates_ascending Example.int_scores Example.toy_decoder int_scores_order
           "T" 2).
  - lia.
  - vm_compute. reflexivity.
Defined.

(** ** Routes are made of stock materials *)

Section stock_routes.
Context `{SearchEnv}.

Lemma expand_solution_in_stock (it : item) (first : route_info) (expansion_mol : string)
    (st : engine_state) (sol : list string * score) :
  Forall (λ r, check_reactant_is_material r = true) (starting_materials it) →
  Forall (λ i, Forall (λ r, check_reactant_is_material r = true) (starting_materials i))
    (nxt_queue st) →
  Forall (λ a, Forall (λ r, check_reactant_is_material r = true) (answer_materials a))
    (answer_set st) →
  let st' := expand_solution it first expansion_mol st sol in
  Forall (λ i, Forall (λ r, check_reactant_is_material r = true) (starting_materials i))
    (nxt_queue st') ∧
  Forall (λ a, Forall (λ r, check_reactant_is_material r = true) (answer_materials a))
    (answer_set st').
Proof.
  intros Hit Hq Ha. unfold expand_solution.
  destruct (check_reactants_are_material (Py.sorted_str sol.1)
            && bool_decide (length (tail (routes_info it)) = 0%nat)) eqn:E; simpl.
  - split; [done|]. apply Forall_app. split; [done|]. constructor; [|constructor].
    simpl. apply Forall_app. split; [done|].
    apply andb_true_iff in E as [E _]. by apply check_reactants_forall.
  - split; [|done]. apply Forall_app. split; [done|]. constructor; [|constructor].
    simpl. rewrite partition_fold. simpl. apply Forall_app. split; [done|].
    unfold purchasable. apply Forall_forall. intros r Hr.
    by apply list_elem_of_filter in Hr as [Hr _].
Qed.

Lemma expand_item_in_stock (max_depth : Z) (st st' : engine_state) (it : item) :
  Forall (λ r, check_reactant_is_material r = true) (starting_materials it) →
  Forall (λ i, Forall (λ r, check_reactant_is_material r = true) (starting_materials i))
    (nxt_queue st) ∧
  Forall (λ a, Forall (λ r, check_reactant_is_material r = true) (answer_materials a))
    (answer_set st) →
  expand_item max_depth st it = Ok st' →
  Forall (λ i, Forall (λ r, check_reactant_is_material r = true) (starting_materials i))
    (nxt_queue st') ∧
  Forall (λ a, Forall (λ r, check_reactant_is_material r = true) (answer_materials a))
    (answer_set st').
Proof.
  intros Hit Hst Hrun.
  apply expand_item_effect in Hrun
    as (first & rest & _ & [[_ ->]|(_ & m & solutions & _ & _ & ->)]); [done|].
  apply (fold_left_invariant _
           (λ s, Forall (λ i, Forall (λ r, check_reactant_is_material r = true)
                                (starting_materials i)) (nxt_queue s) ∧
                 Forall (λ a, Forall (λ r, check_reactant_is_material r = true)
                                (answer_materials a)) (answer_set s))); [|done].
  intros s sol _ [Hq Ha]. by apply expand_solution_in_stock.
Qed.

Lemma round_in_stock (max_depth : Z) (queue queue' : list item) (st st' : engine_state) :
  Forall (λ i, Forall (λ r, check_reactant_is_material r = true) (starting_materials i)) queue →
  Forall (λ a, Forall (λ r, check_reactant_is_material r = true) (answer_materials a))
    (answer_set st) →
  round max_depth queue st = Ok (queue', st') →
  Forall (λ i, Forall (λ r, check_reactant_is_material r = true) (starting_materials i)) queue' ∧
  Forall (λ a, Forall (λ r, check_reactant_is_material r = true) (answer_materials a))
    (answer_set st').
Proof.
  intros Hq Ha Hrun. unfold round in Hrun. bind_ok Hrun E. simplify_eq.
  apply (for_each_invariant _
           (λ s, Forall (λ i, Forall (λ r, check_reactant_is_material r = true)
                                (starting_materials i)) (nxt_queue s) ∧
                 Forall (λ a, Forall (λ r, check_reactant_is_material r = true)
                                (answer_materials a)) (answer_set s))) in E.
  - destruct E as [Hq' Ha']. split; [|done].
    apply Forall_forall. intros it Hit. apply next_queue_sublist in Hit.
    by eapply Forall_forall in Hq'.
  - intros s it s' Hit Hs Hstep. eapply expand_item_in_stock; [|exact Hs|exact Hstep].
    by eapply Forall_forall in Hq.
  - by split.
Qed.

Lemma rounds_in_stock (n : nat) (max_depth : Z) :
  ∀ (queue queue' : list item) (st st' : engine_state),
    Forall (λ i, Forall (λ r, check_reactant_is_material r = true) (starting_materials i))
      queue →
    Forall (λ a, Forall (λ r, check_reactant_is_material r = true) (answer_materials a))
      (answer_set st) →
    rounds n max_depth queue st = Ok (queue', st') →
    Forall (λ a, Forall (λ r, check_reactant_is_material r = true) (answer_materials a))
      (answer_set st').
Proof.
  induction n as [|n IH]; intros queue queue' st st' Hq Ha Hrun; simpl in Hrun.
  - by simplify_eq.
  - destruct queue as [|it queue]; [by simplify_eq|].
    bind_ok Hrun E. destruct a as [queue1 st1].
    apply round_in_stock in E as [Hq1 Ha1]; [|done..].
    by eapply IH.
Qed.

(** X10.  Every route the search reports is made of stock materials only: each
    identity key of each ranked candidate is a key of the stock table. *)
Theorem ranked_routes_in_stock (fuel : nat) (t : task) (st : engine_state) :
  search fuel t = Some (Ok st) →
  Forall (λ a, Forall (λ k, k ∈ stock_inchikeys) (answer_keys a))
    (ranked_candidates t (answer_set st)).
Proof.
  intros Hrun. unfold search in Hrun.
  apply search_loop_rounds in Hrun as [n Hn].
  apply rounds_in_stock in Hn; [|by repeat constructor|by constructor].
  destruct (ranked_candidates_keys t (answer_set st)) as (l & Hl & Hkeys).
  apply Forall_forall. intros a Ha.
  assert (answer_keys a ∈ l) as Hin.
  { eapply elem_of_sublist; [|apply slice_to_sublist]. rewrite <- Hkeys.
    by apply list_elem_of_fmap_2. }
  rewrite Hl, dedup_firsts, <- list_fmap_compose in Hin.
  apply list_elem_of_fmap in Hin as (a0 & -> & Ha0).
  eapply elem_of_sublist in Ha0; [|apply firsts_sublist].
  rewrite elem_of_sorted in Ha0.
  eapply Forall_forall in Hn; [|exact Ha0]. simpl.
  apply Forall_fmap. eapply Forall_impl; [exact Hn|].
  intros r Hr. simpl. by apply bool_decide_eq_true in Hr.
Qed.

Lemma get_route_result_rank (fuel : nat) (t : task) (max_depth : Z) (rank : nat) :
  0 ≤ beam_size →
  get_route_result fuel t = Some (Ok (max_depth, Some rank)) →
  Z.of_nat rank < beam_size.
Proof.
  intros HB Hrun. unfold get_route_result in Hrun.
  destruct (search fuel t) as [[st|]|]; simpl in Hrun; [|done..].
  unfold evaluate in Hrun. injection Hrun as _ Hfirst.
  pose proof (first_match_spec (ground_truth_keys_list t)
                (ranked_candidates t (answer_set st)) 0) as Hspec.
  rewrite Hfirst in Hspec. destruct Hspec as (i & a & -> & Hi & _).
  apply lookup_lt_Some in Hi.
  unfold ranked_candidates, rerank in Hi. rewrite slice_to_length in Hi by done.
  simpl. lia.
Qed.

End stock_routes.

(** ** The reactants of a candidate *)

Lemma StronglySorted_strict {A} (R : relation A) (l : list A) :
  StronglySorted R l → NoDup l → StronglySorted (λ a b, R a b ∧ a ≠ b) l.
Proof.
  induction 1 as [|x l Hl IH Hx]; intros Hnd; [constructor|].
  apply NoDup_cons in Hnd as [Hnotin Hnd]. constructor; [by apply IH|].
  apply Forall_forall. intros y Hy. split.
  - by eapply Forall_forall in Hx.
  - intros ->. done.
Qed.

Lemma sorted_str_strict (l : list string) :
  NoDup l → StronglySorted (λ a b, String.ltb a b = true) (Py.sorted_str l).
Proof.
  intros Hnd.
  rewrite <- (list_fmap_id (Py.sorted_str l)).
  apply (StronglySorted_fmap id (λ a b, String.le a b ∧ a ≠ b)).
  - intros a b [Hle Hne]. simpl. rewrite string_ltb_leb. apply negb_true_iff.
    destruct (String.leb b a) eqn:E; [|done]. exfalso. apply Hne.
    apply (anti_symm String.le); [done|]. unfold String.le. by rewrite E.
  - apply StronglySorted_strict; [apply sorted_str_sorted|].
    unfold Py.sorted_str. by rewrite sorted_perm.
Qed.

Section candidate_reactants.
Context `{Decoder.DecoderEnv}.

Lemma collect_strict (pool : list (string * score)) :
  ∀ (answer : list (list string * score)) (aim_size : Z),
    Forall (λ cand, StronglySorted (λ a b, String.ltb a b = true) cand.1) answer →
    Forall (λ cand, StronglySorted (λ a b, String.ltb a b = true) cand.1)
      (Decoder.collect pool answer aim_size).
Proof.
  induction pool as [|fb pool IH]; intros answer aim_size Hanswer; simpl; [done|].
  destruct (decide (aim_size = 0)); [done|].
  destruct (decide (length (Decoder.parsed (Decoder.fragments fb.1))
                    ≠ size (Decoder.fragments fb.1))); [by apply IH|].
  destruct (decide (size (Decoder.canonical (Decoder.fragments fb.1)) ≠ 0%nat));
    [|by apply IH].
  apply IH. apply Forall_app. split; [done|]. constructor; [|constructor].
  simpl. apply sorted_str_strict, NoDup_elements.
Qed.

(** X12.  Whatever the beam width, the reactants of every candidate that
    [get_beam] returns are in strictly ascending order: sorted, and no
    canonical form twice. *)
Theorem get_beam_reactants_strictly_ascending (product : string) (beam_size : Z) :
  match Decoder.get_beam product beam_size with
  | Ok answer =>
      Forall (λ cand, StronglySorted (λ a b, String.ltb a b = true) cand.1) answer
  | Raise _ => True
  end.
Proof.
  unfold Decoder.get_beam.
  destruct (Decoder.finished_pool product beam_size) as [pool|]; simpl; [|done].
  by apply collect_strict.
Qed.

End candidate_reactants.

Lemma ranked_routes_in_stock_witness :
  let env := Example.stub_env 5 Example.AB_stock Example.two_steps in
  let t := Example.some_task 3 in
  ∃ st, @search Example.int_scores env 5 t = Some (Ok st) ∧
        length (@ranked_candidates Example.int_scores env t (answer_set st)) = 1%nat ∧
        Forall (λ a, Forall (λ k, k ∈ @stock_inchikeys Example.int_scores env) (answer_keys a))
          (@ranked_candidates Example.int_scores env t (answer_set st)).
Proof.
  intros env t. eexists.
  split; [vm_compute; reflexivity|].
  split; [vm_compute; reflexivity|].
  apply (@ranked_routes_in_stock Example.int_scores env 5 t). vm_compute. reflexivity.
Defined.

(** ** The inputs of the transformers *)

Lemma list_ascii_of_string_app (a b : string) :
  list_ascii_of_string (a +:+ b) = list_ascii_of_string a ++ list_ascii_of_string b.
Proof. induction a as [|c a IH]; simpl; [done|]. by rewrite IH. Qed.

Lemma length_list_ascii_of_string (s : string) :
  length (list_ascii_of_string s) = String.length s.
Proof. induction s as [|c s IH]; simpl; [done|]. by rewrite IH. Qed.

Lemma string_length_app (a b : string) :
  String.length (a +:+ b) = (String.length a + String.length b)%nat.
Proof. induction a as [|c a IH]; simpl; [done|]. by rewrite IH. Qed.

Section inputs_facts.
Context `{Inputs.Vocabulary}.

Lemma lookup_symbol_known (symbol : ascii) :
  is_Some (Inputs.char_to_ix !! symbol) →
  Inputs.lookup_symbol symbol = Outcome.Value (Inputs.code symbol).
Proof.
  intros [v Hv]. unfold Inputs.lookup_symbol, Inputs.code. by rewrite Hv.
Qed.

Lemma lookup_symbol_inv (symbol : ascii) (v : Z) :
  Inputs.lookup_symbol symbol = Outcome.Value v →
  is_Some (Inputs.char_to_ix !! symbol) ∧ v = Inputs.code symbol.
Proof.
  unfold Inputs.lookup_symbol, Inputs.code.
  destruct (Inputs.char_to_ix !! symbol) as [w|]; [|done].
  intros [= ->]. split; [by eexists|done].
Qed.

Lemma store_inv (cnt i : nat) (v : Z) (t t' : Inputs.table) :
  Inputs.store cnt i v t = Outcome.Value t' →
  ∃ row, t !! cnt = Some row ∧ (i < length row)%nat ∧ t' = <[cnt := <[i := v]> row]> t.
Proof.
  unfold Inputs.store. destruct (t !! cnt) as [row|]; [|done].
  destruct (decide (i < length row)%nat); [|done]. intros [= <-]. eauto.
Qed.

Lemma store_value (cnt i : nat) (v : Z) (t : Inputs.table) (row : list Z) :
  t !! cnt = Some row → (i < length row)%nat →
  Inputs.store cnt i v t = Outcome.Value (<[cnt := <[i := v]> row]> t).
Proof.
  intros Hrow Hi. unfold Inputs.store. rewrite Hrow. by rewrite decide_True.
Qed.

(** Writing the symbols of a list into a row, from the index [i] on. *)
Lemma write_symbols_value (cnt : nat) (symbols : list ascii) :
  ∀ (i : nat) (t : Inputs.table) (row : list Z),
    t !! cnt = Some row → (i + length symbols ≤ length row)%nat →
    Forall (λ symbol, is_Some (Inputs.char_to_ix !! symbol)) symbols →
    Inputs.write_symbols cnt i symbols t
    = Outcome.Value (<[cnt := take i row ++ (Inputs.code <$> symbols)
                              ++ drop (i + length symbols) row]> t).
Proof.
  induction symbols as [|c rest IH]; intros i t row Hrow Hlen Hknown; simpl.
  - rewrite Nat.add_0_r, take_drop. by rewrite list_insert_id.
  - apply Forall_cons in Hknown as [Hc Hrest]. simpl in Hlen.
    rewrite lookup_symbol_known by done. simpl.
    rewrite (store_value _ _ _ _ row) by (done || lia). simpl.
    rewrite (IH (S i) _ (<[i := Inputs.code c]> row)); [|..|done].
    + rewrite list_insert_insert_eq. do 2 f_equal.
      rewrite (take_S_r _ _ (Inputs.code c)) by (apply list_lookup_insert_eq; lia).
      rewrite take_insert_ge by lia. rewrite <- app_assoc. simpl.
      rewrite drop_insert_lt by lia. by rewrite Nat.add_succ_r.
    + apply list_lookup_insert_eq. by eapply lookup_lt_Some.
    + rewrite length_insert. lia.
Qed.

Lemma write_symbols_inv (cnt : nat) (symbols : list ascii) :
  ∀ (i : nat) (t t' : Inputs.table),
    Inputs.write_symbols cnt i symbols t = Outcome.Value t' → symbols ≠ [] →
    ∃ row, t !! cnt = Some row ∧ (i + length symbols ≤ length row)%nat ∧
           Forall (λ symbol, is_Some (Inputs.char_to_ix !! symbol)) symbols.
Proof.
  induction symbols as [|c rest IH]; intros i t t' Hrun Hne; [done|]. simpl in Hrun.
  destruct (Inputs.lookup_symbol c) as [v|] eqn:Ec; simpl in Hrun; [|done].
  apply lookup_symbol_inv in Ec as [Hc ->].
  destruct (Inputs.store cnt i (Inputs.code c) t) as [t1|] eqn:Es; simpl in Hrun; [|done].
  apply store_inv in Es as (row & Hrow & Hi & ->).
  exists row. split; [done|].
  destruct rest as [|c' rest'].
  - simpl. split; [lia|]. by constructor.
  - apply IH in Hrun as (row1 & Hrow1 & Hlen & Hknown); [|done].
    rewrite list_lookup_insert_eq in Hrow1 by (by eapply lookup_lt_Some).
    injection Hrow1 as <-. rewrite length_insert in Hlen.
    split; [simpl in *; lia|]. by constructor.
Qed.

(** All symbols are known, and the row is too short: the write past its end
    raises [IndexError]. *)
Lemma write_symbols_too_long (cnt : nat) (symbols : list ascii) :
  ∀ (i : nat) (t : Inputs.table) (row : list Z),
    t !! cnt = Some row → (i ≤ length row < i + length symbols)%nat →
    Forall (λ symbol, is_Some (Inputs.char_to_ix !! symbol)) symbols →
    Inputs.write_symbols cnt i symbols t = Outcome.Error Outcome.IndexError.
Proof.
  induction symbols as [|c rest IH]; intros i t row Hrow Hlen Hknown; simpl in *; [lia|].
  apply Forall_cons in Hknown as [Hc Hrest].
  rewrite lookup_symbol_known by done. simpl.
  unfold Inputs.store. rewrite Hrow.
  destruct (decide (i < length row)%nat) as [Hi|]; [|done]. simpl.
  apply (IH (S i) _ (<[i := Inputs.code c]> row)); [|rewrite length_insert; lia|done].
  apply list_lookup_insert_eq. by eapply lookup_lt_Some.
Qed.

Lemma fill_to_value (cnt n k : nat) (t : Inputs.table) :
  t !! cnt = Some (replicate n 0) → (k ≤ n)%nat →
  Inputs.fill_to cnt k t = Outcome.Value (<[cnt := Inputs.ones n k]> t).
Proof.
  intros Hrow Hk. unfold Inputs.fill_to, Inputs.ones. rewrite Hrow.
  rewrite length_replicate, drop_replicate. do 4 f_equal. lia.
Qed.

Lemma write_row_value (cnt n : nat) (s : string) (t : Inputs.table) :
  t !! cnt = Some (replicate n 0) → (String.length s ≤ n)%nat → Inputs.known s →
  Inputs.write_symbols cnt 0 (list_ascii_of_string s) t
  = Outcome.Value (<[cnt := Inputs.encoded n s]> t).
Proof.
  intros Hrow Hlen Hknown.
  rewrite (write_symbols_value _ _ _ _ (replicate n 0));
    [|done|rewrite length_list_ascii_of_string, length_replicate; lia|done].
  unfold Inputs.encoded. simpl.
  by rewrite length_list_ascii_of_string, drop_replicate.
Qed.

Lemma write_row_inv (cnt n : nat) (s : string) (t t' : Inputs.table) :
  t !! cnt = Some (replicate n 0) → s ≠ EmptyString →
  Inputs.write_symbols cnt 0 (list_ascii_of_string s) t = Outcome.Value t' →
  (String.length s ≤ n)%nat ∧ Inputs.known s.
Proof.
  intros Hrow Hne Hrun.
  apply write_symbols_inv in Hrun as (row & Hrow' & Hlen & Hknown).
  - rewrite Hrow in Hrow'. injection Hrow' as <-.
    rewrite length_list_ascii_of_string, length_replicate in Hlen. split; [lia|done].
  - by destruct s.
Qed.

Lemma symbols_but_last (r : string) :
  take (length (list_ascii_of_string ("^" +:+ r +:+ "$")) - 1)
    (list_ascii_of_string ("^" +:+ r +:+ "$"))
  = list_ascii_of_string ("^" +:+ r).
Proof.
  change ("^" +:+ r +:+ "$") with (("^" +:+ r) +:+ "$").
  rewrite list_ascii_of_string_app, length_app.
  apply take_app_length'. simpl. lia.
Qed.

Lemma length_framed (s : string) :
  String.length ("^" +:+ s +:+ "$") = (String.length s + 2)%nat.
Proof.
  change ("^" +:+ s +:+ "$") with (String "^" (s +:+ "$")).
  cbn [String.length]. rewrite string_length_app. simpl. lia.
Qed.

Lemma length_started (s : string) :
  String.length ("^" +:+ s) = (String.length s + 1)%nat.
Proof. change ("^" +:+ s) with (String "^" s). cbn [String.length]. lia. Qed.

Lemma convert_row_value (n cnt : nat) (reactants_list : list string) (st : Inputs.inputs)
    (p r : string) :
  reactants_list !! cnt = Some r →
  Inputs.products_input_ids st !! cnt = Some (replicate n 0) →
  Inputs.products_input_mask st !! cnt = Some (replicate n 0) →
  Inputs.reactants_input_ids st !! cnt = Some (replicate n 0) →
  Inputs.reactants_input_mask st !! cnt = Some (replicate n 0) →
  Inputs.fits n p r →
  Inputs.convert_row reactants_list st cnt p
  = Outcome.Value
      {| Inputs.products_input_ids :=
           <[cnt := Inputs.encoded n ("^" +:+ p +:+ "$")]> (Inputs.products_input_ids st);
         Inputs.products_input_mask :=
           <[cnt := Inputs.ones n (String.length p + 2)]> (Inputs.products_input_mask st);
         Inputs.reactants_input_ids :=
           <[cnt := Inputs.encoded n ("^" +:+ r)]> (Inputs.reactants_input_ids st);
         Inputs.reactants_input_mask :=
           <[cnt := Inputs.ones n (String.length r + 1)]> (Inputs.reactants_input_mask st) |}.
Proof.
  intros Hr H1 H2 H3 H4 (Hkp & Hkr & Hlp & Hlr).
  unfold Inputs.convert_row. rewrite Hr.
  rewrite (write_row_value _ n) by (done || rewrite length_framed; lia).
  cbn [Outcome.outcome_bind].
  rewrite (fill_to_value _ n), length_list_ascii_of_string, length_framed;
    [|done|rewrite length_list_ascii_of_string, length_framed; lia].
  cbn [Outcome.outcome_bind].
  rewrite symbols_but_last.
  rewrite (write_row_value _ n) by (done || rewrite length_started; lia).
  cbn [Outcome.outcome_bind].
  rewrite (fill_to_value _ n);
    [|done|rewrite length_list_ascii_of_string, length_framed; lia].
  cbn [Outcome.outcome_bind].
  rewrite length_list_ascii_of_string, length_framed.
  do 4 f_equal. lia.
Qed.

Lemma convert_row_inv (n cnt : nat) (reactants_list : list string) (st st' : Inputs.inputs)
    (p : string) :
  Inputs.products_input_ids st !! cnt = Some (replicate n 0) →
  Inputs.reactants_input_ids st !! cnt = Some (replicate n 0) →
  Inputs.convert_row reactants_list st cnt p = Outcome.Value st' →
  ∃ r, reactants_list !! cnt = Some r ∧ Inputs.fits n p r.
Proof.
  intros H1 H3 Hrun. unfold Inputs.convert_row in Hrun.
  destruct (reactants_list !! cnt) as [r|]; [|done]. exists r. split; [done|].
  destruct (Inputs.write_symbols cnt 0 (list_ascii_of_string ("^" +:+ p +:+ "$")) _)
    as [pids|] eqn:E1; [|done].
  apply (write_row_inv _ n) in E1 as [Hlp Hkp]; [|done..].
  cbn [Outcome.outcome_bind] in Hrun.
  destruct (Inputs.fill_to cnt _ (Inputs.products_input_mask st)) as [pmask|]; [|done].
  cbn [Outcome.outcome_bind] in Hrun.
  rewrite symbols_but_last in Hrun.
  destruct (Inputs.write_symbols cnt 0 (list_ascii_of_string ("^" +:+ r)) _)
    as [rids|] eqn:E3; [|done].
  apply (write_row_inv _ n) in E3 as [Hlr Hkr]; [|done..].
  rewrite length_framed in Hlp. rewrite length_started in Hlr. by repeat split.
Qed.

(** The rows from [cnt] on, started on tables whose rows before [cnt] are those
    of the pairs [done] and whose other rows are blank. *)
Lemma blank_row_lookup {A} (f : A → list Z) (done : list A) (n m : nat) :
  ((f <$> done) ++ replicate n 0 :: replicate m (replicate n 0)) !! length done = Some (replicate n 0).
Proof.
  rewrite lookup_app_r by (rewrite length_fmap; lia).
  by rewrite length_fmap, Nat.sub_diag.
Qed.

Lemma blank_row_insert {A} (f : A → list Z) (done : list A) (n m : nat) (x : A) :
  <[length done := f x]> ((f <$> done) ++ replicate n 0 :: replicate m (replicate n 0))
  = (f <$> (done ++ [x])) ++ replicate m (replicate n 0).
Proof.
  rewrite fmap_app, <- app_assoc. simpl.
  rewrite <- (length_fmap f done) at 1.
  by rewrite (insert_app_r_alt _ _ (length (f <$> done))), Nat.sub_diag by lia.
Qed.

Lemma convert_rows_spec (n : nat) (reactants_list : list string) (products_list : list string) :
  ∀ (done : list (string * string)) (t : Inputs.inputs),
    Inputs.convert_rows reactants_list (length done) products_list
      {| Inputs.products_input_ids :=
           (Inputs.product_ids_row n <$> done)
           ++ replicate (length products_list) (replicate n 0);
         Inputs.products_input_mask :=
           (Inputs.product_mask_row n <$> done)
           ++ replicate (length products_list) (replicate n 0);
         Inputs.reactants_input_ids :=
           (Inputs.reactant_ids_row n <$> done)
           ++ replicate (length products_list) (replicate n 0);
         Inputs.reactants_input_mask :=
           (Inputs.reactant_mask_row n <$> done)
           ++ replicate (length products_list) (replicate n 0) |}
    = Outcome.Value t
    ↔ Forall2 (Inputs.fits n) products_list
        (take (length products_list) (drop (length done) reactants_list))
      ∧ t = Inputs.rows_of n (done ++ zip products_list (drop (length done) reactants_list)).
Proof.
  induction products_list as [|p ps IH]; intros done t.
  - simpl. rewrite !app_nil_r. split.
    + intros [= <-]. split; [constructor|done].
    + intros [_ ->]. done.
  - cbn [Inputs.convert_rows length].
    set (st := {| Inputs.products_input_ids := _ |}).
    destruct (reactants_list !! length done) as [r|] eqn:Er.
    + rewrite (drop_S _ r) by done. cbn [take zip zip_with].
      destruct (Inputs.convert_row reactants_list st (length done) p) as [st1|] eqn:E.
      * pose proof E as Hfits.
        apply (convert_row_inv n) in Hfits as (r' & Hr' & Hfits);
          [|apply blank_row_lookup..].
        rewrite Er in Hr'. injection Hr' as <-.
        rewrite (convert_row_value n _ _ _ _ r) in E by (done || apply blank_row_lookup).
        injection E as <-. cbn [Outcome.outcome_bind].
        subst st. cbn [Inputs.products_input_ids Inputs.products_input_mask
                       Inputs.reactants_input_ids Inputs.reactants_input_mask].
        change (Inputs.encoded n ("^" +:+ p +:+ "$"))
          with (Inputs.product_ids_row n (p, r)).
        change (Inputs.ones n (String.length p + 2))
          with (Inputs.product_mask_row n (p, r)).
        change (Inputs.encoded n ("^" +:+ r)) with (Inputs.reactant_ids_row n (p, r)).
        change (Inputs.ones n (String.length r + 1))
          with (Inputs.reactant_mask_row n (p, r)).
        rewrite (blank_row_insert (Inputs.product_ids_row n) done n _ (p, r)).
        rewrite (blank_row_insert (Inputs.product_mask_row n) done n _ (p, r)).
        rewrite (blank_row_insert (Inputs.reactant_ids_row n) done n _ (p, r)).
        rewrite (blank_row_insert (Inputs.reactant_mask_row n) done n _ (p, r)).
        specialize (IH (done ++ [(p, r)]) t).
        rewrite length_app in IH. simpl in IH.
        replace (length done + 1)%nat with (S (length done)) in IH by lia.
        rewrite IH. rewrite <- app_assoc. simpl.
        rewrite Forall2_cons. tauto.
      * cbn [Outcome.outcome_bind]. split; [done|].
        intros [Hall _]. apply Forall2_cons in Hall as [Hfits _].
        rewrite (convert_row_value n _ _ _ _ r) in E by (done || apply blank_row_lookup).
        done.
    + assert (Inputs.convert_row reactants_list st (length done) p
              = Outcome.Error Outcome.IndexError) as ->.
      { unfold Inputs.convert_row. by rewrite Er. }
      cbn [Outcome.outcome_bind]. split; [done|].
      intros [Hall _]. apply lookup_ge_None in Er.
      rewrite drop_ge in Hall by lia. rewrite take_nil in Hall. by inversion Hall.
Qed.

(** The whole of [convert_symbols_to_inputs], on any lists. *)
Lemma convert_symbols_to_inputs_iff (products_list reactants_list : list string)
    (max_length : Z) (t : Inputs.inputs) :
  Inputs.convert_symbols_to_inputs products_list reactants_list max_length = Outcome.Value t
  ↔ 0 ≤ max_length
    ∧ Forall2 (Inputs.fits (Z.to_nat max_length)) products_list
        (take (length products_list) reactants_list)
    ∧ t = Inputs.rows_of (Z.to_nat max_length) (zip products_list reactants_list).
Proof.
  unfold Inputs.convert_symbols_to_inputs, Inputs.zeros.
  destruct (Z.ltb_spec max_length 0) as [Hneg|Hpos]; cbn [Outcome.outcome_bind].
  - split; [done|lia].
  - pose proof (convert_rows_spec (Z.to_nat max_length) reactants_list products_list [] t)
      as Hspec.
    simpl in Hspec. rewrite Hspec. tauto.
Qed.

(** X13.  [convert_symbols_to_inputs] returns its four tensors exactly when
    [max_length] is not negative, every product has its reactants string, every
    symbol (with the start and end symbols) is a key of [char_to_ix], and every
    row fits: a product of [k] symbols needs [k + 2] columns, a reactants
    string of [k] symbols needs [k + 1].  Row [cnt] then holds the indices of
    [^product$] and of [^reactants] (without the end symbol), padded with
    zeros, and masks with that many ones. *)
Theorem convert_symbols_to_inputs_spec (products_list reactants_list : list string)
    (max_length : Z) (t : Inputs.inputs) :
  Inputs.convert_symbols_to_inputs products_list reactants_list max_length = Outcome.Value t
  ↔ 0 ≤ max_length
    ∧ Forall2 (Inputs.fits (Z.to_nat max_length)) products_list
        (take (length products_list) reactants_list)
    ∧ t = Inputs.rows_of (Z.to_nat max_length) (zip products_list reactants_list).
Proof. apply convert_symbols_to_inputs_iff. Qed.

Lemma lookup_ones (n k j : nat) :
  (j < n)%nat → Inputs.ones n k !! j = Some (if decide (j < k)%nat then 1 else 0).
Proof.
  intros Hj. unfold Inputs.ones. destruct (decide (j < k)%nat).
  - rewrite lookup_app_l by (rewrite length_replicate; lia).
    by apply lookup_replicate_2.
  - rewrite lookup_app_r by (rewrite length_replicate; lia).
    rewrite length_replicate. apply lookup_replicate_2. lia.
Qed.

Lemma lookup_encoded (n j : nat) (s : string) (symbol : ascii) :
  list_ascii_of_string s !! j = Some symbol →
  Inputs.encoded n s !! j = Some (Inputs.code symbol).
Proof.
  intros Hj. unfold Inputs.encoded.
  rewrite lookup_app_l by (rewrite length_fmap; by eapply lookup_lt_Some).
  by rewrite list_lookup_fmap, Hj.
Qed.

(** The inputs of one product and one partial string: the index [len(res)] is
    the last one the reactants mask keeps. *)
Lemma reactants_row_last_position (product res : string) (max_length : Z)
    (x : Inputs.inputs) :
  Inputs.convert_symbols_to_inputs [product] [res] max_length = Outcome.Value x →
  ∃ ids mask symbol,
    Inputs.reactants_input_ids x = [ids] ∧ Inputs.reactants_input_mask x = [mask] ∧
    Z.of_nat (length ids) = max_length ∧ Z.of_nat (length mask) = max_length ∧
    last (list_ascii_of_string ("^" +:+ res)) = Some symbol ∧
    ids !! String.length res = Some (Inputs.code symbol) ∧
    mask !! String.length res = Some 1 ∧
    ∀ j, (String.length res < j)%nat → Z.of_nat j < max_length → mask !! j = Some 0.
Proof.
  intros Hrun. apply convert_symbols_to_inputs_iff in Hrun as (Hpos & Hfits & ->).
  simpl in Hfits. apply Forall2_cons in Hfits as [(_ & _ & _ & Hlen) _].
  destruct (last (list_ascii_of_string ("^" +:+ res))) as [symbol|] eqn:Elast.
  2:{ apply last_None in Elast. done. }
  exists (Inputs.reactant_ids_row (Z.to_nat max_length) (product, res)),
         (Inputs.reactant_mask_row (Z.to_nat max_length) (product, res)), symbol.
  split; [done|]. split; [done|].
  unfold Inputs.reactant_ids_row, Inputs.reactant_mask_row. simpl fst. simpl snd.
  split.
  { unfold Inputs.encoded. rewrite length_app, length_fmap, length_replicate,
      length_list_ascii_of_string, length_started. lia. }
  split.
  { unfold Inputs.ones. rewrite length_app, !length_replicate. lia. }
  split; [done|]. split.
  { apply lookup_encoded. rewrite last_lookup in Elast.
    by rewrite length_list_ascii_of_string, length_started, Nat.add_1_r in Elast. }
  split.
  { rewrite lookup_ones by lia. by rewrite decide_True by lia. }
  intros j Hj Hjn. rewrite lookup_ones by lia. by rewrite decide_False by lia.
Qed.

End inputs_facts.

Section predictor_facts.
Context `{Inputs.Predictor}.

(** X15.  A product of more than [max_length - 2] symbols, all of them keys of
    [char_to_ix], makes [get_output_probs] raise [IndexError], whatever the
    partial string: the write of line 93 goes past the end of the row. *)
Theorem get_output_probs_long_product (product res : string) :
  0 ≤ Inputs.max_length →
  Inputs.known ("^" +:+ product +:+ "$") →
  Inputs.max_length < Z.of_nat (String.length product) + 2 →
  Inputs.get_output_probs product res = Outcome.Error Outcome.IndexError.
Proof.
  intros Hpos Hknown Hlong.
  unfold Inputs.get_output_probs, Inputs.convert_symbols_to_inputs, Inputs.zeros.
  destruct (Z.ltb_spec Inputs.max_length 0) as [|_]; [lia|].
  cbn [Outcome.outcome_bind Inputs.convert_rows length replicate].
  unfold Inputs.convert_row. cbn [lookup list_lookup Inputs.products_input_ids].
  rewrite (write_symbols_too_long _ _ _ _ (replicate (Z.to_nat Inputs.max_length) 0));
    [done|done| |done].
  rewrite length_replicate, length_list_ascii_of_string, length_framed. lia.
Qed.

(** X14.  The row of [logits] that [get_output_probs] reads, at the index
    [len(res)], is the last one the reactants mask keeps: the mask is [1]
    there and [0] behind it, and the symbol at that index is the last symbol
    of [^res]. *)
Theorem get_output_probs_reads_last_position (product res : string) (probs : list score) :
  Inputs.get_output_probs product res = Outcome.Value probs →
  ∃ x row ids mask symbol,
    Inputs.convert_symbols_to_inputs [product] [res] Inputs.max_length = Outcome.Value x ∧
    Inputs.predict_model x !! String.length res = Some row ∧
    probs = Inputs.softmax row ∧
    Inputs.reactants_input_ids x = [ids] ∧ Inputs.reactants_input_mask x = [mask] ∧
    last (list_ascii_of_string ("^" +:+ res)) = Some symbol ∧
    ids !! String.length res = Some (Inputs.code symbol) ∧
    mask !! String.length res = Some 1 ∧
    ∀ j, (String.length res < j)%nat → Z.of_nat j < Inputs.max_length → mask !! j = Some 0.
Proof.
  intros Hrun. unfold Inputs.get_output_probs in Hrun.
  destruct (Inputs.convert_symbols_to_inputs [product] [res] Inputs.max_length)
    as [x|] eqn:Ex; [|done].
  cbn [Outcome.outcome_bind] in Hrun.
  destruct (Inputs.predict_model x !! String.length res) as [row|] eqn:Erow; [|done].
  injection Hrun as <-.
  destruct (reactants_row_last_position _ _ _ _ Ex)
    as (ids & mask & symbol & Hids & Hmask & _ & _ & Hlast & Hid & Hone & Hzero).
  exists x, row, ids, mask, symbol. by repeat split.
Qed.

(** When the product and the partial string fit, the inputs are made and only
    the read of the row of [logits] is left. *)
Lemma get_output_probs_fits (product res : string) :
  0 ≤ Inputs.max_length →
  Inputs.fits (Z.to_nat Inputs.max_length) product res →
  Inputs.get_output_probs product res
  = match Inputs.predict_model
            (Inputs.rows_of (Z.to_nat Inputs.max_length) [(product, res)])
          !! String.length res with
    | None => Outcome.Error Outcome.IndexError
    | Some row => Outcome.Value (Inputs.softmax row)
    end.
Proof.
  intros Hpos Hfits. unfold Inputs.get_output_probs.
  assert (Inputs.convert_symbols_to_inputs [product] [res] Inputs.max_length
          = Outcome.Value (Inputs.rows_of (Z.to_nat Inputs.max_length) [(product, res)]))
    as ->; [|done].
  apply convert_symbols_to_inputs_iff. split; [done|]. split; [|done].
  simpl. by constructor.
Qed.

End predictor_facts.

(** ** The inputs of the reward model *)

Section reward_inputs_facts.
Context `{Inputs.Vocabulary}.

Lemma loop_app {A S} (body : S → A → Outcome.outcome S) (l1 l2 : list A) (s : S) :
  Outcome.loop body (l1 ++ l2) s
  = Outcome.outcome_bind (Outcome.loop body l1 s) (Outcome.loop body l2).
Proof.
  revert s. induction l1 as [|x l1 IH]; intros s; simpl; [done|].
  destruct (body s x); simpl; [apply IH|done].
Qed.

Lemma insert_after_prefix (l : list Z) (n k : nat) (v : Z) :
  length l = k → (k < n)%nat →
  <[k := v]> (l ++ replicate (n - k) 0) = (l ++ [v]) ++ replicate (n - S k) 0.
Proof.
  intros Hl Hk. rewrite <- Hl at 1. rewrite insert_app_r_alt by lia.
  rewrite Nat.sub_diag, <- app_assoc. f_equal.
  replace (n - k)%nat with (S (n - S k)) by lia. done.
Qed.

(** Lines 253-256 at the index [k], on tables whose rows [cnt] are [ro], [rt]
    and [rm]. *)
Lemma output_step_spec (cnt k : nat) (output_ : list ascii) (st st' : Inputs.output_tables)
    (ro rt rm : list Z) (c c' : ascii) :
  Inputs.out_ids st !! cnt = Some ro → Inputs.tok_ids st !! cnt = Some rt →
  Inputs.tok_mask st !! cnt = Some rm →
  length ro = length rt → length ro = length rm →
  output_ !! k = Some c → output_ !! S k = Some c' →
  Inputs.output_step cnt output_ st k = Outcome.Value st'
  ↔ ((k < length ro)%nat ∧ is_Some (Inputs.char_to_ix !! c)
     ∧ is_Some (Inputs.char_to_ix !! c'))
    ∧ st' = {| Inputs.out_ids := <[cnt := <[k := Inputs.code c]> ro]> (Inputs.out_ids st);
               Inputs.tok_ids := <[cnt := <[k := Inputs.code c']> rt]> (Inputs.tok_ids st);
               Inputs.tok_mask :=
                 if decide (Z.of_nat k ≠ Z.of_nat (length output_) - 2)
                 then <[cnt := <[k := 1]> rm]> (Inputs.tok_mask st)
                 else Inputs.tok_mask st |}.
Proof.
  intros Hro Hrt Hrm Hlt Hlm Hc Hc'.
  unfold Inputs.output_step, Inputs.lookup_symbol, Inputs.store, Inputs.code.
  rewrite Hc, Hc', Hro, Hrt, Hrm, <- Hlt, <- Hlm.
  destruct (Inputs.char_to_ix !! c) as [v|]; cbn [Outcome.outcome_bind default].
  2:{ split; [done|]. intros [(_ & [? ?] & _) _]. done. }
  destruct (decide (k < length ro)%nat); cbn [Outcome.outcome_bind].
  2:{ split; [done|]. intros [(? & _) _]. done. }
  destruct (Inputs.char_to_ix !! c') as [w|]; cbn [Outcome.outcome_bind default].
  2:{ split; [done|]. intros [(_ & _ & [? ?]) _]. done. }
  destruct (decide (Z.of_nat k ≠ Z.of_nat (length output_) - 2));
    cbn [Outcome.outcome_bind].
  - split; [intros [= <-]|intros [_ ->]]; [|done]. split; [|done].
    split; [done|]. split; by eexists.
  - split; [intros [= <-]|intros [_ ->]]; [|done]. split; [|done].
    split; [done|]. split; by eexists.
Qed.

(** The tables after the first [k] passes of the loop of line 252 on the
    output [o], started on blank rows of length [n]. *)
Lemma output_loop_spec (n cnt : nat) (o : string) (st0 : Inputs.output_tables) :
  Inputs.out_ids st0 !! cnt = Some (replicate n 0) →
  Inputs.tok_ids st0 !! cnt = Some (replicate n 0) →
  Inputs.tok_mask st0 !! cnt = Some (replicate n 0) →
  let output_ := list_ascii_of_string ("^" +:+ o +:+ "$") in
  ∀ (k : nat) (st : Inputs.output_tables),
    (k ≤ String.length o + 1)%nat →
    Outcome.loop (Inputs.output_step cnt output_) (seq 0 k) st0 = Outcome.Value st
    ↔ (k = 0%nat ∨ ((k ≤ n)%nat ∧
                    Forall (λ symbol, is_Some (Inputs.char_to_ix !! symbol))
                      (take (S k) output_)))
      ∧ st = {| Inputs.out_ids :=
                  <[cnt := (Inputs.code <$> take k output_) ++ replicate (n - k) 0]>
                    (Inputs.out_ids st0);
                Inputs.tok_ids :=
                  <[cnt := (Inputs.code <$> take k (drop 1 output_)) ++ replicate (n - k) 0]>
                    (Inputs.tok_ids st0);
                Inputs.tok_mask :=
                  <[cnt := Inputs.ones n (Nat.min k (String.length o))]>
                    (Inputs.tok_mask st0) |}.
Proof.
  intros Hro Hrt Hrm output_.
  assert (length output_ = (String.length o + 2)%nat) as Hlen.
  { unfold output_. by rewrite length_list_ascii_of_string, length_framed. }
  clearbody output_.
  induction k as [|k IH]; intros st Hk.
  - simpl. rewrite Nat.sub_0_r. unfold Inputs.ones. simpl. rewrite Nat.sub_0_r.
    rewrite !list_insert_id by done. destruct st0. simpl.
    split; [intros [= <-]|intros [_ ->]]; [|done]. split; [by left|done].
  - rewrite seq_S, loop_app. simpl "+"%nat.
    destruct (lookup_lt_is_Some_2 output_ k) as [c Hc]; [lia|].
    destruct (lookup_lt_is_Some_2 output_ (S k)) as [c' Hc']; [lia|].
    assert (take (S (S k)) output_ = take (S k) output_ ++ [c']) as Htake
      by (by apply take_S_r).
    assert (c ∈ take (S k) output_) as Hcin.
    { rewrite (take_S_r _ _ c) by done. apply elem_of_app. right. constructor. }
    destruct (Outcome.loop (Inputs.output_step cnt output_) (seq 0 k) st0)
      as [s|] eqn:E in |- *; cbn [Outcome.outcome_bind Outcome.loop].
    + apply IH in E as [Hcond ->]; [|lia].
      assert ((k ≤ n)%nat → length (take k output_) = k) as Hpre
        by (intros _; rewrite length_take; lia).
      assert (k = 0%nat ∨ (k ≤ n)%nat) as Hkn by (destruct Hcond as [->|[? _]]; lia).
      assert ((k ≤ n)%nat) as Hkn' by (destruct Hkn; lia).
      set (s := {| Inputs.out_ids := _ |}).
      destruct (Inputs.output_step cnt output_ s k) as [s'|] eqn:Es;
        cbn [Outcome.outcome_bind].
      * eapply output_step_spec in Es as [(Hlt & Hkc & Hkc') ->];
          [| apply list_lookup_insert_eq; by eapply lookup_lt_Some
           | apply list_lookup_insert_eq; by eapply lookup_lt_Some
           | apply list_lookup_insert_eq; by eapply lookup_lt_Some
           | | | exact Hc | exact Hc'].
        2:{ rewrite !length_app, !length_fmap, !length_replicate, !length_take, length_drop.
            lia. }
        2:{ unfold Inputs.ones.
            rewrite !length_app, !length_fmap, !length_replicate, !length_take. lia. }
        rewrite length_app, length_fmap, length_replicate, length_take in Hlt.
        assert (k < n)%nat as Hkn2 by lia.
        subst s. cbn [Inputs.out_ids Inputs.tok_ids Inputs.tok_mask].
        rewrite !list_insert_insert_eq.
        rewrite (insert_after_prefix _ n k)
          by (rewrite ?length_fmap, ?length_take, ?length_drop; lia).
        rewrite (insert_after_prefix _ n k)
          by (rewrite ?length_fmap, ?length_take, ?length_drop; lia).
        rewrite (take_S_r output_ k c) by done.
        rewrite (take_S_r (drop 1 output_) k c') by (by rewrite lookup_drop).
        rewrite !fmap_app. simpl.
        assert ((if decide (Z.of_nat k ≠ Z.of_nat (length output_) - 2)
                 then <[cnt := <[k := 1]> (Inputs.ones n (Nat.min k (String.length o)))]>
                        (Inputs.tok_mask st0)
                 else <[cnt := Inputs.ones n (Nat.min k (String.length o))]>
                        (Inputs.tok_mask st0))
                = <[cnt := Inputs.ones n (Nat.min (S k) (String.length o))]>
                    (Inputs.tok_mask st0)) as ->.
        { destruct (decide (Z.of_nat k ≠ Z.of_nat (length output_) - 2)).
          - f_equal.
            replace (Nat.min k (String.length o)) with k by lia.
            replace (Nat.min (S k) (String.length o)) with (S k) by lia.
            unfold Inputs.ones.
            rewrite (insert_after_prefix _ n k) by (rewrite ?length_replicate; lia).
            f_equal. by rewrite replicate_S_end.
          - do 2 f_equal. lia. }
        split; [intros [= <-]|intros [_ ->]]; [|done]. split; [|done].
        right. split; [lia|]. rewrite Htake. apply Forall_app. split.
        -- destruct Hcond as [->|[_ Hall]]; [|done].
           simpl in *. rewrite (take_S_r _ _ c) by done. simpl.
           by constructor.
        -- by constructor.
      * split; [done|]. intros [[?|[HSk Hall]] _]; [done|].
        rewrite Htake in Hall. apply Forall_app in Hall as [Hall Hkc'].
        apply Forall_cons in Hkc' as [Hkc' _].
        assert (Inputs.output_step cnt output_ s k = Outcome.Value
                  {| Inputs.out_ids := <[cnt := <[k := Inputs.code c]>
                        ((Inputs.code <$> take k output_) ++ replicate (n - k) 0)]>
                        (Inputs.out_ids s);
                     Inputs.tok_ids := <[cnt := <[k := Inputs.code c']>
                        ((Inputs.code <$> take k (drop 1 output_)) ++ replicate (n - k) 0)]>
                        (Inputs.tok_ids s);
                     Inputs.tok_mask :=
                       if decide (Z.of_nat k ≠ Z.of_nat (length output_) - 2)
                       then <[cnt := <[k := 1]>
                                (Inputs.ones n (Nat.min k (String.length o)))]>
                              (Inputs.tok_mask s)
                       else Inputs.tok_mask s |}) as Hstep; [|congruence].
        eapply output_step_spec;
          [ apply list_lookup_insert_eq; by eapply lookup_lt_Some
          | apply list_lookup_insert_eq; by eapply lookup_lt_Some
          | apply list_lookup_insert_eq; by eapply lookup_lt_Some
          | | | exact Hc | exact Hc' | ].
        { rewrite !length_app, !length_fmap, !length_replicate, !length_take, length_drop.
          lia. }
        { unfold Inputs.ones.
          rewrite !length_app, !length_fmap, !length_replicate, !length_take. lia. }
        split; [|done].
        rewrite length_app, length_fmap, length_replicate, length_take.
        split; [lia|]. split; [|done].
        by eapply Forall_forall in Hall.
    + split; [done|]. intros [[?|[HSk Hall]] _]; [done|].
      assert (Outcome.loop (Inputs.output_step cnt output_) (seq 0 k) st0
              = Outcome.Value
                  {| Inputs.out_ids :=
                       <[cnt := (Inputs.code <$> take k output_) ++ replicate (n - k) 0]>
                         (Inputs.out_ids st0);
                     Inputs.tok_ids :=
                       <[cnt := (Inputs.code <$> take k (drop 1 output_))
                                ++ replicate (n - k) 0]> (Inputs.tok_ids st0);
                     Inputs.tok_mask :=
                       <[cnt := Inputs.ones n (Nat.min k (String.length o))]>
                         (Inputs.tok_mask st0) |}) as Hloop; [|congruence].
      apply IH; [lia|]. split; [|done]. right. split; [lia|].
      rewrite Htake in Hall. by apply Forall_app in Hall as [Hall _].
Qed.

Lemma encoded_started (n : nat) (o : string) :
  (Inputs.code <$> list_ascii_of_string ("^" +:+ o)) ++ replicate (n - (String.length o + 1)) 0
  = Inputs.encoded n ("^" +:+ o).
Proof. unfold Inputs.encoded. by rewrite length_started. Qed.

Lemma encoded_ended (n : nat) (o : string) :
  (Inputs.code <$> list_ascii_of_string (o +:+ "$")) ++ replicate (n - (String.length o + 1)) 0
  = Inputs.encoded n (o +:+ "$").
Proof. unfold Inputs.encoded. by rewrite string_length_app. Qed.

Lemma fill_to_inv (cnt k : nat) (t t' : Inputs.table) (n : nat) :
  t !! cnt = Some (replicate n 0) → (k ≤ n)%nat →
  Inputs.fill_to cnt k t = Outcome.Value t' → t' = <[cnt := Inputs.ones n k]> t.
Proof. intros Hrow Hk. rewrite (fill_to_value _ n) by done. by intros [= <-]. Qed.

(** Lines 245-257 for the row [cnt], on blank rows of length [n]. *)
Lemma convert_row_reward_spec (n cnt : nat) (output_list : list string)
    (st st' : Inputs.reward_inputs) (i : string) :
  Inputs.input_ids st !! cnt = Some (replicate n 0) →
  Inputs.input_mask st !! cnt = Some (replicate n 0) →
  Inputs.output_ids st !! cnt = Some (replicate n 0) →
  Inputs.output_mask st !! cnt = Some (replicate n 0) →
  Inputs.token_ids st !! cnt = Some (replicate n 0) →
  Inputs.token_mask st !! cnt = Some (replicate n 0) →
  Inputs.convert_row_reward output_list st cnt i = Outcome.Value st'
  ↔ ∃ o, output_list !! cnt = Some o ∧ Inputs.fits_reward n i o ∧
         st' = {| Inputs.input_ids :=
                    <[cnt := Inputs.product_ids_row n (i, o)]> (Inputs.input_ids st);
                  Inputs.input_mask :=
                    <[cnt := Inputs.product_mask_row n (i, o)]> (Inputs.input_mask st);
                  Inputs.output_ids :=
                    <[cnt := Inputs.reactant_ids_row n (i, o)]> (Inputs.output_ids st);
                  Inputs.output_mask :=
                    <[cnt := Inputs.reactant_mask_row n (i, o)]> (Inputs.output_mask st);
                  Inputs.token_ids :=
                    <[cnt := Inputs.token_ids_row n (i, o)]> (Inputs.token_ids st);
                  Inputs.token_mask :=
                    <[cnt := Inputs.token_mask_row n (i, o)]> (Inputs.token_mask st) |}.
Proof.
  intros H1 H2 H3 H4 H5 H6. unfold Inputs.convert_row_reward.
  destruct (output_list !! cnt) as [o|]; [|split; [done|by intros (? & ? & _)]].
  assert (length (list_ascii_of_string ("^" +:+ o +:+ "$")) - 1
          = String.length o + 1)%nat as Hsteps
    by (rewrite length_list_ascii_of_string, length_framed; lia).
  assert (take (String.length o + 1) (list_ascii_of_string ("^" +:+ o +:+ "$"))
          = list_ascii_of_string ("^" +:+ o)) as Hpre.
  { rewrite <- Hsteps. apply symbols_but_last. }
  assert (take (String.length o + 1) (drop 1 (list_ascii_of_string ("^" +:+ o +:+ "$")))
          = list_ascii_of_string (o +:+ "$")) as Htok.
  { change ("^" +:+ o +:+ "$") with (String "^" (o +:+ "$")). simpl.
    apply take_ge. rewrite length_list_ascii_of_string, string_length_app. simpl. lia. }
  assert (take (S (String.length o + 1)) (list_ascii_of_string ("^" +:+ o +:+ "$"))
          = list_ascii_of_string ("^" +:+ o +:+ "$")) as Hall.
  { apply take_ge. rewrite length_list_ascii_of_string, length_framed. lia. }
  pose proof (output_loop_spec n cnt o
                {| Inputs.out_ids := Inputs.output_ids st;
                   Inputs.tok_ids := Inputs.token_ids st;
                   Inputs.tok_mask := Inputs.token_mask st |} H3 H5 H6
                (String.length o + 1)%nat) as Hloop.
  cbn zeta in Hloop. rewrite Hpre, Htok, Hall in Hloop.
  cbn [Inputs.out_ids Inputs.tok_ids Inputs.tok_mask] in Hloop.
  rewrite encoded_started, encoded_ended in Hloop.
  replace (Nat.min (String.length o + 1) (String.length o)) with (String.length o)
    in Hloop by lia.
  rewrite Hsteps.
  rewrite (length_list_ascii_of_string ("^" +:+ i +:+ "$")), length_framed.
  split.
  - intros Hrun. exists o. split; [done|].
    destruct (Inputs.write_symbols cnt 0 _ (Inputs.input_ids st)) as [iids|] eqn:E1;
      [|done].
    pose proof E1 as Hfit1. apply (write_row_inv _ n) in Hfit1 as [Hli Hki]; [|done..].
    rewrite (write_row_value _ n) in E1 by done. injection E1 as <-.
    rewrite length_framed in Hli.
    cbn [Outcome.outcome_bind] in Hrun.
    rewrite (fill_to_value _ n) in Hrun by (done || lia).
    cbn [Outcome.outcome_bind] in Hrun.
    remember (Outcome.loop (Inputs.output_step cnt _) _ _) as looped eqn:E3 in Hrun.
    symmetry in E3. destruct looped as [ot|]; [|done].
    apply Hloop in E3; [|lia]. destruct E3 as [[?|[Hlo Hko]] ->]; [lia|].
    cbn [Outcome.outcome_bind] in Hrun.
    rewrite (fill_to_value _ n) in Hrun by (done || lia).
    cbn [Outcome.outcome_bind Inputs.out_ids Inputs.tok_ids Inputs.tok_mask] in Hrun.
    injection Hrun as <-.
    split; [by repeat split|].
    unfold Inputs.product_ids_row, Inputs.product_mask_row, Inputs.reactant_ids_row,
      Inputs.reactant_mask_row, Inputs.token_ids_row, Inputs.token_mask_row.
    cbn [fst snd]. done.
  - intros (o' & [= <-] & (Hki & Hko & Hli & Hlo) & ->).
    rewrite (write_row_value _ n) by (done || rewrite length_framed; lia).
    cbn [Outcome.outcome_bind].
    rewrite (fill_to_value _ n) by (done || lia).
    cbn [Outcome.outcome_bind].
    destruct (Hloop {| Inputs.out_ids :=
                         <[cnt := Inputs.encoded n ("^" +:+ o)]> (Inputs.output_ids st);
                       Inputs.tok_ids :=
                         <[cnt := Inputs.encoded n (o +:+ "$")]> (Inputs.token_ids st);
                       Inputs.tok_mask :=
                         <[cnt := Inputs.ones n (String.length o)]>
                           (Inputs.token_mask st) |}) as [_ Hback]; [lia|].
    rewrite Hback by (split; [right; split; [lia|done]|done]).
    cbn [Outcome.outcome_bind].
    rewrite (fill_to_value _ n) by (done || lia).
    cbn [Outcome.outcome_bind Inputs.out_ids Inputs.tok_ids Inputs.tok_mask].
    unfold Inputs.product_ids_row, Inputs.product_mask_row, Inputs.reactant_ids_row,
      Inputs.reactant_mask_row, Inputs.token_ids_row, Inputs.token_mask_row.
    cbn [fst snd]. done.
Qed.

Lemma convert_rows_reward_spec (n : nat) (output_list : list string) (input_list : list string) :
  ∀ (done : list (string * string)) (t : Inputs.reward_inputs),
    Inputs.convert_rows_reward output_list (length done) input_list
      {| Inputs.input_ids :=
           (Inputs.product_ids_row n <$> done)
           ++ replicate (length input_list) (replicate n 0);
         Inputs.input_mask :=
           (Inputs.product_mask_row n <$> done)
           ++ replicate (length input_list) (replicate n 0);
         Inputs.output_ids :=
           (Inputs.reactant_ids_row n <$> done)
           ++ replicate (length input_list) (replicate n 0);
         Inputs.output_mask :=
           (Inputs.reactant_mask_row n <$> done)
           ++ replicate (length input_list) (replicate n 0);
         Inputs.token_ids :=
           (Inputs.token_ids_row n <$> done)
           ++ replicate (length input_list) (replicate n 0);
         Inputs.token_mask :=
           (Inputs.token_mask_row n <$> done)
           ++ replicate (length input_list) (replicate n 0) |}
    = Outcome.Value t
    ↔ Forall2 (Inputs.fits_reward n) input_list
        (take (length input_list) (drop (length done) output_list))
      ∧ t = Inputs.reward_rows_of n
              (done ++ zip input_list (drop (length done) output_list)).
Proof.
  induction input_list as [|i ins IH]; intros done t.
  - simpl. rewrite !app_nil_r. split.
    + intros [= <-]. split; [constructor|done].
    + intros [_ ->]. done.
  - cbn [Inputs.convert_rows_reward length replicate].
    set (st := {| Inputs.input_ids := _ |}).
    pose proof (λ st', convert_row_reward_spec n (length done) output_list st st' i
                  (blank_row_lookup _ _ _ _) (blank_row_lookup _ _ _ _)
                  (blank_row_lookup _ _ _ _) (blank_row_lookup _ _ _ _)
                  (blank_row_lookup _ _ _ _) (blank_row_lookup _ _ _ _)) as Hrow.
    destruct (Inputs.convert_row_reward output_list st (length done) i) as [st1|] eqn:E
      in |- *.
    + apply Hrow in E as (o & Ho & Hfits & ->). cbn [Outcome.outcome_bind].
      rewrite (drop_S _ o) by done. cbn [take zip zip_with].
      subst st. cbn [Inputs.input_ids Inputs.input_mask Inputs.output_ids
                     Inputs.output_mask Inputs.token_ids Inputs.token_mask].
      rewrite !blank_row_insert.
      specialize (IH (done ++ [(i, o)]) t).
      rewrite length_app in IH. simpl in IH.
      replace (length done + 1)%nat with (S (length done)) in IH by lia.
      rewrite IH. rewrite <- app_assoc. simpl.
      rewrite Forall2_cons. tauto.
    + cbn [Outcome.outcome_bind]. split; [done|].
      intros [Hall _].
      destruct (output_list !! length done) as [o|] eqn:Eo.
      * rewrite (drop_S _ o) in Hall by done. cbn [take] in Hall.
        apply Forall2_cons in Hall as [Hfits _].
        destruct (Hrow {| Inputs.input_ids :=
                            <[length done := Inputs.product_ids_row n (i, o)]>
                              (Inputs.input_ids st);
                          Inputs.input_mask :=
                            <[length done := Inputs.product_mask_row n (i, o)]>
                              (Inputs.input_mask st);
                          Inputs.output_ids :=
                            <[length done := Inputs.reactant_ids_row n (i, o)]>
                              (Inputs.output_ids st);
                          Inputs.output_mask :=
                            <[length done := Inputs.reactant_mask_row n (i, o)]>
                              (Inputs.output_mask st);
                          Inputs.token_ids :=
                            <[length done := Inputs.token_ids_row n (i, o)]>
                              (Inputs.token_ids st);
                          Inputs.token_mask :=
                            <[length done := Inputs.token_mask_row n (i, o)]>
                              (Inputs.token_mask st) |}) as [_ Hback].
        rewrite Hback in E; [done|]. by exists o.
      * apply lookup_ge_None in Eo.
        rewrite drop_ge in Hall by lia. rewrite take_nil in Hall. by inversion Hall.
Qed.

(** The whole of [convert_symbols_to_inputs_reward], on any lists. *)
Lemma convert_symbols_to_inputs_reward_iff (input_list output_list : list string)
    (max_length : Z) (t : Inputs.reward_inputs) :
  Inputs.convert_symbols_to_inputs_reward input_list output_list max_length = Outcome.Value t
  ↔ 0 ≤ max_length
    ∧ Forall2 (Inputs.fits_reward (Z.to_nat max_length)) input_list
        (take (length input_list) output_list)
    ∧ t = Inputs.reward_rows_of (Z.to_nat max_length) (zip input_list output_list).
Proof.
  unfold Inputs.convert_symbols_to_inputs_reward, Inputs.zeros.
  destruct (Z.ltb_spec max_length 0) as [Hneg|Hpos]; cbn [Outcome.outcome_bind].
  - split; [done|lia].
  - pose proof (convert_rows_reward_spec (Z.to_nat max_length) output_list input_list [] t)
      as Hspec.
    simpl in Hspec. rewrite Hspec. tauto.
Qed.

(** X16.  [convert_symbols_to_inputs_reward] returns its six arrays exactly
    when [max_length] is not negative, every input has its output, every symbol
    (with the start and end symbols) is a key of [char_to_ix], and every row
    fits: an input of [k] symbols needs [k + 2] columns, an output of [k]
    symbols needs [k + 1].  Row [cnt] then holds the indices of [^input$], of
    [^output] and, as targets, of [output$]: the target at a position is the
    symbol that follows.  The token mask keeps the symbols of the output and
    leaves the end symbol out. *)
Theorem convert_symbols_to_inputs_reward_spec (input_list output_list : list string)
    (max_length : Z) (t : Inputs.reward_inputs) :
  Inputs.convert_symbols_to_inputs_reward input_list output_list max_length = Outcome.Value t
  ↔ 0 ≤ max_length
    ∧ Forall2 (Inputs.fits_reward (Z.to_nat max_length)) input_list
        (take (length input_list) output_list)
    ∧ t = Inputs.reward_rows_of (Z.to_nat max_length) (zip input_list output_list).
Proof. apply convert_symbols_to_inputs_reward_iff. Qed.

Lemma longest_ge (l : list string) (s : string) :
  s ∈ l → (String.length s ≤ longest l)%nat.
Proof.
  unfold longest. induction l as [|x l IH]; intros Hs; [by apply elem_of_nil in Hs|].
  apply elem_of_cons in Hs as [->|Hs]; simpl; [lia|].
  apply IH in Hs. etrans; [exact Hs|apply Nat.le_max_r].
Qed.

(** X17.  The padded length that [get_rerank_scores] chooses always suffices:
    for lists of equal length, the arrays are made exactly when every symbol
    (with the start and end symbols) is a key of [char_to_ix]; no index goes
    past the end of a row. *)
Theorem rerank_inputs_fit (input_list output_list : list string) (t : Inputs.reward_inputs) :
  length input_list = length output_list →
  Inputs.rerank_inputs input_list output_list = Outcome.Value t
  ↔ Forall (λ i, Inputs.known ("^" +:+ i +:+ "$")) input_list
    ∧ Forall (λ o, Inputs.known ("^" +:+ o +:+ "$")) output_list
    ∧ t = Inputs.reward_rows_of
            (Nat.max (longest input_list) (longest output_list) + 2)
            (zip input_list output_list).
Proof.
  intros Hlen. unfold Inputs.rerank_inputs, Inputs.max_length_reward.
  rewrite convert_symbols_to_inputs_reward_iff.
  replace (Z.to_nat (Z.of_nat (Nat.max (longest input_list) (longest output_list)) + 2))
    with (Nat.max (longest input_list) (longest output_list) + 2)%nat by lia.
  rewrite Hlen, firstn_all.
  split.
  - intros (_ & Hall & ->). split; [|split; [|done]].
    + eapply Forall2_Forall_l; [exact Hall|]. apply Forall_forall. by intros o _ i (? & _).
    + eapply Forall2_Forall_r; [exact Hall|]. apply Forall_forall. by intros i _ o (_ & ? & _).
  - intros (Hi & Ho & ->). split; [lia|]. split; [|done].
    apply Forall2_same_length_lookup_2; [done|].
    intros k i o Hki Hko. repeat split.
    + eapply Forall_forall in Hi; [done|]. by eapply list_elem_of_lookup_2.
    + eapply Forall_forall in Ho; [done|]. by eapply list_elem_of_lookup_2.
    + apply list_elem_of_lookup_2, longest_ge in Hki. lia.
    + apply list_elem_of_lookup_2, longest_ge in Hko. lia.
Qed.

Lemma row_sum_replicate_0 (n : nat) : Inputs.row_sum (replicate n 0) = 0.
Proof. induction n as [|n IH]; simpl; [done|]. by rewrite IH. Qed.

Lemma row_sum_ones (n k : nat) : Inputs.row_sum (Inputs.ones n k) = Z.of_nat k.
Proof.
  unfold Inputs.ones.
  assert (∀ l1 l2, Inputs.row_sum (l1 ++ l2) = Inputs.row_sum l1 + Inputs.row_sum l2) as Happ.
  { intros l1 l2. induction l1 as [|v l1 IH]; simpl; [done|]. rewrite IH. lia. }
  rewrite Happ, row_sum_replicate_0.
  induction k as [|k IH]; simpl; [done|]. lia.
Qed.

(** X18.  In the arrays of the reward model, the token mask of a row sums to
    the number of symbols of its output, so the mean of line 291 divides by
    [0] for an empty output; under the mask the target at a position is the
    input symbol of the next position. *)
Theorem token_mask_counts_output (input_list output_list : list string) (max_length : Z)
    (t : Inputs.reward_inputs) (cnt : nat) (i o : string) :
  Inputs.convert_symbols_to_inputs_reward input_list output_list max_length
    = Outcome.Value t →
  input_list !! cnt = Some i → output_list !! cnt = Some o →
  ∃ mask targets inputs,
    Inputs.token_mask t !! cnt = Some mask ∧ Inputs.token_ids t !! cnt = Some targets ∧
    Inputs.output_ids t !! cnt = Some inputs ∧
    Inputs.row_sum mask = Z.of_nat (String.length o) ∧
    ∀ j, Z.of_nat j < max_length →
      mask !! j = Some (if decide (j < String.length o)%nat then 1 else 0) ∧
      ((j < String.length o)%nat → is_Some (targets !! j) ∧ targets !! j = inputs !! S j).
Proof.
  intros Hrun Hi Ho.
  apply convert_symbols_to_inputs_reward_iff in Hrun as (Hpos & Hfits & ->).
  assert (zip input_list output_list !! cnt = Some (i, o)) as Hio.
  { apply lookup_zip_with_Some. by exists i, o. }
  assert (String.length o + 1 ≤ Z.to_nat max_length)%nat as Hlo.
  { eapply Forall2_lookup_lr in Hfits as (_ & _ & _ & Hlo); [exact Hlo|exact Hi|].
    rewrite lookup_take_lt by (by eapply lookup_lt_Some). exact Ho. }
  exists (Inputs.token_mask_row (Z.to_nat max_length) (i, o)),
         (Inputs.token_ids_row (Z.to_nat max_length) (i, o)),
         (Inputs.reactant_ids_row (Z.to_nat max_length) (i, o)).
  unfold Inputs.reward_rows_of. cbn [Inputs.token_mask Inputs.token_ids Inputs.output_ids].
  rewrite !list_lookup_fmap, Hio. split; [done|]. split; [done|]. split; [done|].
  unfold Inputs.token_mask_row, Inputs.token_ids_row, Inputs.reactant_ids_row.
  cbn [fst snd]. split; [apply row_sum_ones|].
  intros j Hj. split; [apply lookup_ones; lia|].
  intros Hjo.
  destruct (lookup_lt_is_Some_2 (list_ascii_of_string o) j) as [c Hc];
    [by rewrite length_list_ascii_of_string|].
  rewrite (lookup_encoded _ _ _ c), (lookup_encoded _ _ _ c).
  - split; [by eexists|done].
  - change ("^" +:+ o) with (String "^" o). done.
  - rewrite list_ascii_of_string_app. by apply lookup_app_l_Some.
Qed.

End reward_inputs_facts.

Section empty_route.
Context `{SearchEnv} `{!Inputs.Vocabulary}.

(** X19.  A route without materials, as the first end-to-end scenario emits
    it, reaches the reward model with an empty output string, and the token
    mask of its row sums to [0]: line 291 divides by [0] for it. *)
Theorem empty_route_has_no_token (t : task) (a : answer) (max_length : Z)
    (x : Inputs.reward_inputs) :
  answer_materials a = [] →
  Inputs.convert_symbols_to_inputs_reward (rerank_input_list (dedup t [a]))
    (rerank_output_list (dedup t [a])) max_length = Outcome.Value x →
  rerank_output_list (dedup t [a]) = [EmptyString] ∧
  ∃ mask, Inputs.token_mask x = [mask] ∧ Inputs.row_sum mask = 0.
Proof.
  intros Hnone Hrun.
  assert (rerank_input_list (dedup t [a]) = [product t]
          ∧ rerank_output_list (dedup t [a]) = [EmptyString]) as [Hin Hout].
  { unfold dedup. simpl. unfold dedup_step. simpl.
    rewrite bool_decide_eq_true_2 by apply not_elem_of_empty. simpl.
    by rewrite Hnone. }
  split; [done|]. rewrite Hin, Hout in Hrun.
  apply convert_symbols_to_inputs_reward_iff in Hrun as (_ & _ & ->).
  eexists. split; [reflexivity|]. apply row_sum_ones.
Qed.

End empty_route.

(** ** The statements about the inputs at the small instances *)

Lemma toy_known (s : string) :
  forallb (λ symbol, bool_decide (is_Some (@Inputs.char_to_ix Toy.vocabulary !! symbol)))
    (list_ascii_of_string s) = true →
  @Inputs.known Toy.vocabulary s.
Proof.
  intros Hall. unfold Inputs.known. apply Forall_forall. intros c Hc.
  rewrite forallb_forall in Hall. eapply bool_decide_eq_true_1.
  apply Hall. by apply list_elem_of_In.
Qed.

Example toy_inputs :
  @Inputs.convert_symbols_to_inputs Toy.vocabulary ["CO"; "C"]%string ["C."; ""]%string 5
  = Outcome.Value
      {| Inputs.products_input_ids := [[1; 3; 4; 2; 0]; [1; 3; 2; 0; 0]];
         Inputs.products_input_mask := [[1; 1; 1; 1; 0]; [1; 1; 1; 0; 0]];
         Inputs.reactants_input_ids := [[1; 3; 5; 0; 0]; [1; 0; 0; 0; 0]];
         Inputs.reactants_input_mask := [[1; 1; 1; 0; 0]; [1; 0; 0; 0; 0]] |}.
Proof. vm_compute. reflexivity. Qed.

Example toy_inputs_errors :
  @Inputs.convert_symbols_to_inputs Toy.vocabulary ["CO"]%string ["C"]%string 3
  = Outcome.Error Outcome.IndexError
  ∧ @Inputs.convert_symbols_to_inputs Toy.vocabulary ["CN"]%string ["C"]%string 5
    = Outcome.Error (Outcome.KeyError "N")
  ∧ @Inputs.convert_symbols_to_inputs Toy.vocabulary ["C"]%string [] 5
    = Outcome.Error Outcome.IndexError
  ∧ @Inputs.convert_symbols_to_inputs Toy.vocabulary [] [] (-1)
    = Outcome.Error Outcome.RuntimeError.
Proof. repeat split; vm_compute; reflexivity. Qed.

Example toy_reward_inputs :
  @Inputs.rerank_inputs Toy.vocabulary ["CO"]%string ["C.O"]%string
  = Outcome.Value
      {| Inputs.input_ids := [[1; 3; 4; 2; 0]];
         Inputs.input_mask := [[1; 1; 1; 1; 0]];
         Inputs.output_ids := [[1; 3; 5; 4; 0]];
         Inputs.output_mask := [[1; 1; 1; 1; 0]];
         Inputs.token_ids := [[3; 5; 4; 2; 0]];
         Inputs.token_mask := [[1; 1; 1; 0; 0]] |}.
Proof. vm_compute. reflexivity. Qed.

Lemma get_output_probs_reads_last_position_witness :
  ∃ x row ids mask symbol,
    @Inputs.convert_symbols_to_inputs Toy.vocabulary ["CO"]%string ["C."]%string
      (@Inputs.max_length Example.int_scores Toy.vocabulary Toy.predictor)
    = Outcome.Value x ∧
    @Inputs.predict_model Example.int_scores Toy.vocabulary Toy.predictor x
      !! String.length "C." = Some row ∧
    [0; 0; 0; 0; 0; 0]
    = @Inputs.softmax Example.int_scores Toy.vocabulary Toy.predictor row ∧
    Inputs.reactants_input_ids x = [ids] ∧ Inputs.reactants_input_mask x = [mask] ∧
    last (list_ascii_of_string ("^" +:+ "C.")) = Some symbol ∧
    ids !! String.length "C." = Some (@Inputs.code Toy.vocabulary symbol) ∧
    mask !! String.length "C." = Some 1 ∧
    ∀ j, (String.length "C." < j)%nat →
         Z.of_nat j < @Inputs.max_length Example.int_scores Toy.vocabulary Toy.predictor →
         mask !! j = Some 0.
Proof.
  apply (@get_output_probs_reads_last_position Example.int_scores Toy.vocabulary
           Toy.predictor "CO" "C." [0; 0; 0; 0; 0; 0]).
  vm_compute. reflexivity.
Defined.

Lemma get_output_probs_long_product_witness :
  @Inputs.get_output_probs Example.int_scores Toy.vocabulary Toy.predictor "CCCCC" "C"
  = Outcome.Error Outcome.IndexError.
Proof.
  apply (@get_output_probs_long_product Example.int_scores Toy.vocabulary Toy.predictor).
  - simpl. lia.
  - apply toy_known. vm_compute. reflexivity.
  - simpl. lia.
Defined.

Lemma rerank_inputs_fit_witness :
  @Inputs.rerank_inputs Toy.vocabulary ["CO"; "C"]%string ["C.O"; ""]%string
  = Outcome.Value
      (@Inputs.reward_rows_of Toy.vocabulary 5 [("CO", "C.O"); ("C", "")]%string).
Proof.
  apply (@rerank_inputs_fit Toy.vocabulary ["CO"; "C"]%string ["C.O"; ""]%string);
    [reflexivity|].
  split; [|split; [|reflexivity]].
  - do 2 (constructor; [apply toy_known; vm_compute; reflexivity|]). constructor.
  - do 2 (constructor; [apply toy_known; vm_compute; reflexivity|]). constructor.
Defined.

Lemma token_mask_counts_output_witness :
  ∃ mask targets inputs,
    [[1; 1; 1; 0; 0]] !! 0%nat = Some mask ∧ [[3; 5; 4; 2; 0]] !! 0%nat = Some targets ∧
    [[1; 3; 5; 4; 0]] !! 0%nat = Some inputs ∧
    Inputs.row_sum mask = Z.of_nat (String.length "C.O") ∧
    ∀ j, Z.of_nat j < 5 →
      mask !! j = Some (if decide (j < String.length "C.O")%nat then 1 else 0) ∧
      ((j < String.length "C.O")%nat →
       is_Some (targets !! j) ∧ targets !! j = inputs !! S j).
Proof.
  apply (@token_mask_counts_output Toy.vocabulary ["CO"]%string ["C.O"]%string 5
           {| Inputs.input_ids := [[1; 3; 4; 2; 0]];
              Inputs.input_mask := [[1; 1; 1; 1; 0]];
              Inputs.output_ids := [[1; 3; 5; 4; 0]];
              Inputs.output_mask := [[1; 1; 1; 1; 0]];
              Inputs.token_ids := [[3; 5; 4; 2; 0]];
              Inputs.token_mask := [[1; 1; 1; 0; 0]] |} 0%nat "CO" "C.O").
  - vm_compute. reflexivity.
  - reflexivity.
  - reflexivity.
Defined.

Lemma empty_route_has_no_token_witness :
  let env := Example.stub_env 5 Example.AB_stock Example.empty_candidate in
  let a := @Build_answer Example.int_scores 0 [] in
  @rerank_output_list Example.int_scores
    (@dedup Example.int_scores env (Example.some_task 3) [a]) = [EmptyString] ∧
  ∃ mask, [[0; 0; 0]] = [mask] ∧ Inputs.row_sum mask = 0.
Proof.
  intros env a.
  apply (@empty_route_has_no_token Example.int_scores env Toy.vocabulary
           (Example.some_task 3) a 3
           {| Inputs.input_ids := [[1; 6; 2]];
              Inputs.input_mask := [[1; 1; 1]];
              Inputs.output_ids := [[1; 0; 0]];
              Inputs.output_mask := [[1; 0; 0]];
              Inputs.token_ids := [[2; 0; 0]];
              Inputs.token_mask := [[0; 0; 0]] |}).
  - reflexivity.
  - vm_compute. reflexivity.
Defined.

(** ** The lengths of the strings of the beam *)

Section beam_lengths.
Context `{Decoder.DecoderEnv}.

Lemma select_row_lengths (k : nat) (lines : Decoder.beam) (acc acc' : Decoder.selection)
    (row : score * Z) :
  (∀ j, String.length (Decoder.ix_to_char j) = 1%nat) →
  Forall (λ b, String.length b.1 = k) lines →
  Forall (λ b, String.length b.1 = S k) (Decoder.new_beams acc) ∧
  Forall (λ fb, (2 ≤ String.length fb.1 ≤ S k)%nat) (Decoder.final_beams acc) →
  Decoder.select_row lines acc row = Ok acc' →
  Forall (λ b, String.length b.1 = S k) (Decoder.new_beams acc') ∧
  Forall (λ fb, (2 ≤ String.length fb.1 ≤ S k)%nat) (Decoder.final_beams acc').
Proof.
  intros Hsym Hlines [Hnew Hfin] Hrow. unfold Decoder.select_row in Hrow.
  destruct (lines !! Z.to_nat (Decoder.beam_index row.2)) as [line|] eqn:Eline; [|done].
  assert (String.length line.1 = k) as Hline
    by (eapply Forall_forall in Hlines; [exact Hlines|by eapply list_elem_of_lookup_2]).
  assert (String.length (line.1 +:+ Decoder.ix_to_char (Decoder.symbol_index row.2)) = S k)
    as Hadded by (rewrite string_length_app, Hsym; lia).
  destruct (decide (Decoder.ix_to_char (Decoder.symbol_index row.2) = "$")) as [Hend|Hgo];
    injection Hrow as <-; simpl.
  - split; [done|].
    destruct (decide (line.1 +:+ Decoder.ix_to_char (Decoder.symbol_index row.2) = "$"))
      as [|Hne]; [done|].
    apply Forall_app. split; [done|]. constructor; [|constructor]. simpl.
    rewrite Hadded. split; [|done].
    destruct line.1 as [|c s] eqn:Es; [by rewrite Hend in Hne|]. simpl in Hline. lia.
  - split; [|done]. apply Forall_app. split; [done|]. by constructor.
Qed.

Lemma beam_step_lengths (product : string) (step : Z) (k : nat)
    (st st' : Decoder.beam_state) (stop : bool) :
  (∀ j, String.length (Decoder.ix_to_char j) = 1%nat) →
  Forall (λ b, String.length b.1 = k) (Decoder.lines st) →
  Forall (λ fb, (2 ≤ String.length fb.1 ≤ k)%nat) (Decoder.st_final_beams st) →
  Decoder.beam_step product step st = Ok (st', stop) →
  (if stop then Decoder.lines st' = []
   else Forall (λ b, String.length b.1 = S k) (Decoder.lines st')) ∧
  Forall (λ fb, (2 ≤ String.length fb.1 ≤ S k)%nat) (Decoder.st_final_beams st').
Proof.
  intros Hsym Hlines Hfin Hstep. unfold Decoder.beam_step in Hstep.
  assert (Forall (λ fb, (2 ≤ String.length fb.1 ≤ S k)%nat) (Decoder.st_final_beams st))
    as Hfin' by (eapply Forall_impl; [exact Hfin|]; simpl; lia).
  destruct (decide (length (Decoder.lines st) = 0%nat)) as [Hnone|_].
  - injection Hstep as <- <-. split; [|done]. by apply nil_length_inv.
  - bind_ok Hstep Esel. rename a into acc. injection Hstep as <- <-. simpl.
    unfold Decoder.select in Esel.
    apply (for_each_invariant _
             (λ acc, Forall (λ b, String.length b.1 = S k) (Decoder.new_beams acc) ∧
                     Forall (λ fb, (2 ≤ String.length fb.1 ≤ S k)%nat)
                       (Decoder.final_beams acc))) in Esel.
    + destruct Esel as [Hnew Hfinal]. split; [|done].
      case_bool_decide as Hstop; [by apply nil_length_inv|done].
    + intros acc0 i acc1 _ Hacc Hbody.
      destruct (Decoder.ranked _ !! Z.to_nat i) as [row|]; [|done].
      by eapply select_row_lengths.
    + simpl. split; [constructor|done].
Qed.

Lemma beam_loop_lengths (product : string) (steps : list Z) :
  ∀ (k : nat) (st st' : Decoder.beam_state),
    (∀ j, String.length (Decoder.ix_to_char j) = 1%nat) →
    Forall (λ b, String.length b.1 = k) (Decoder.lines st) →
    Forall (λ fb, (2 ≤ String.length fb.1 ≤ k)%nat) (Decoder.st_final_beams st) →
    Decoder.beam_loop product steps st = Ok st' →
    Forall (λ b, String.length b.1 = (k + length steps)%nat) (Decoder.lines st') ∧
    Forall (λ fb, (2 ≤ String.length fb.1 ≤ k + length steps)%nat)
      (Decoder.st_final_beams st').
Proof.
  induction steps as [|step steps IH]; intros k st st' Hsym Hlines Hfin Hrun;
    simpl in Hrun.
  - injection Hrun as <-. rewrite Nat.add_0_r. by split.
  - bind_ok Hrun Estep. destruct a as [st1 stop].
    apply (beam_step_lengths _ _ k) in Estep as [Hlines1 Hfin1]; [|done..].
    simpl in Hrun. destruct stop.
    + injection Hrun as <-. rewrite Hlines1. split; [constructor|].
      eapply Forall_impl; [exact Hfin1|]. simpl. lia.
    + apply (IH (S k)) in Hrun as [Hl Hf]; [|done..].
      simpl. rewrite Nat.add_succ_r. by split.
Qed.

(** X20.  When every symbol of the vocabulary is one character, the strings of
    the live beam have exactly [k] symbols after [k] steps, and a finished
    string has between 2 and [k] symbols, its end symbol included: the partial
    string handed to [get_output_probs] at step [k] has [k] symbols, and no
    finished string of [get_beam] is longer than [max_length]. *)
Theorem beam_strings_lengths (product : string) (beam_size k : Z) (st : Decoder.beam_state) :
  (∀ j, String.length (Decoder.ix_to_char j) = 1%nat) →
  Decoder.beam_loop product (Py.range k) (Decoder.initial beam_size) = Ok st →
  Forall (λ b, String.length b.1 = Z.to_nat k) (Decoder.lines st) ∧
  Forall (λ fb, (2 ≤ String.length fb.1 ≤ Z.to_nat k)%nat) (Decoder.st_final_beams st).
Proof.
  intros Hsym Hrun.
  apply (beam_loop_lengths _ _ 0) in Hrun; [|done| |by constructor].
  - by rewrite length_range in Hrun.
  - simpl. by apply Forall_replicate.
Qed.

End beam_lengths.

Lemma beam_strings_lengths_witness :
  ∃ st, @Decoder.beam_loop Example.int_scores Example.toy_decoder "T" (Py.range 2)
          (Decoder.initial 2) = Ok st ∧
        Decoder.lines st = [("CC", 4)]%string ∧
        Decoder.st_final_beams st = [("C$", 3)]%string ∧
        Forall (λ b, String.length b.1 = Z.to_nat 2) (Decoder.lines st) ∧
        Forall (λ fb, (2 ≤ String.length fb.1 ≤ Z.to_nat 2)%nat) (Decoder.st_final_beams st).
Proof.
  eexists. split; [vm_compute; reflexivity|]. split; [reflexivity|].
  split; [reflexivity|].
  apply (@beam_strings_lengths Example.int_scores Example.toy_decoder "T" 2 2).
  - intros j. unfold Decoder.ix_to_char. simpl. unfold Example.toy_symbol.
    repeat case_decide; reflexivity.
  - vm_compute. reflexivity.
Defined.

(** ** The strings of the beam as inputs of the step model *)

Section beam_inputs.
Context `{Decoder.DecoderEnv} `{!Inputs.Vocabulary}.

Lemma known_app (a b : string) : Inputs.known a → Inputs.known b → Inputs.known (a +:+ b).
Proof.
  unfold Inputs.known. rewrite list_ascii_of_string_app, Forall_app. by split.
Qed.

Lemma select_row_known (lines : Decoder.beam) (acc acc' : Decoder.selection)
    (row : score * Z) :
  (∀ j, Inputs.known (Decoder.ix_to_char j)) →
  Forall (λ b, Inputs.known b.1) lines →
  Forall (λ b, Inputs.known b.1) (Decoder.new_beams acc) →
  Decoder.select_row lines acc row = Ok acc' →
  Forall (λ b, Inputs.known b.1) (Decoder.new_beams acc').
Proof.
  intros Hsym Hlines Hnew Hrow. unfold Decoder.select_row in Hrow.
  destruct (lines !! Z.to_nat (Decoder.beam_index row.2)) as [line|] eqn:Eline; [|done].
  assert (Inputs.known line.1) as Hline
    by (eapply Forall_forall in Hlines; [exact Hlines|by eapply list_elem_of_lookup_2]).
  destruct (decide (Decoder.ix_to_char (Decoder.symbol_index row.2) = "$"));
    injection Hrow as <-; simpl; [done|].
  apply Forall_app. split; [done|]. constructor; [|constructor]. simpl.
  by apply known_app.
Qed.

Lemma beam_loop_known (product : string) (steps : list Z) :
  ∀ (st st' : Decoder.beam_state),
    (∀ j, Inputs.known (Decoder.ix_to_char j)) →
    Forall (λ b, Inputs.known b.1) (Decoder.lines st) →
    Decoder.beam_loop product steps st = Ok st' →
    Forall (λ b, Inputs.known b.1) (Decoder.lines st').
Proof.
  induction steps as [|step steps IH]; intros st st' Hsym Hlines Hrun; simpl in Hrun.
  - by injection Hrun as <-.
  - bind_ok Hrun Estep. destruct a as [st1 stop].
    assert (Forall (λ b, Inputs.known b.1) (Decoder.lines st1)) as Hlines1.
    { unfold Decoder.beam_step in Estep.
      destruct (decide (length (Decoder.lines st) = 0%nat)); [by injection Estep as <- _|].
      bind_ok Estep Esel. rename a into acc. injection Estep as <- _. simpl.
      unfold Decoder.select in Esel.
      apply (for_each_invariant _
               (λ acc, Forall (λ b, Inputs.known b.1) (Decoder.new_beams acc))) in Esel;
        [done| |by constructor].
      intros acc0 i acc1 _ Hacc Hbody.
      destruct (Decoder.ranked _ !! Z.to_nat i) as [row|]; [|done].
      eapply select_row_known; [exact Hsym|exact Hlines|exact Hacc|exact Hbody]. }
    simpl in Hrun. destruct stop; [by injection Hrun as <-|]. by eapply IH.
Qed.

(** X30.  When the symbols of the vocabulary are single characters and keys
    of [char_to_ix], as the start symbol is, and the product fits a row, then
    every string of the live beam before a step of [get_beam] fits a row too:
    the inputs of every call of [get_output_probs] are made without an
    exception. *)
Theorem beam_lines_fit (product : string) (beam_size k : Z) (st : Decoder.beam_state) :
  (∀ j, String.length (Decoder.ix_to_char j) = 1%nat) →
  (∀ j, Inputs.known (Decoder.ix_to_char j)) →
  Inputs.known "^" →
  Inputs.known ("^" +:+ product +:+ "$") →
  Z.of_nat (String.length product) + 2 ≤ Decoder.max_length →
  0 ≤ k < Decoder.max_length →
  Decoder.beam_loop product (Py.range k) (Decoder.initial beam_size) = Ok st →
  Forall (λ b, Inputs.fits (Z.to_nat Decoder.max_length) product b.1) (Decoder.lines st).
Proof.
  intros Hone Hsym Hstart Hproduct Hlen Hk Hrun.
  pose proof Hrun as Hknown.
  apply beam_loop_known in Hknown; [|done|].
  2:{ simpl. apply Forall_replicate. simpl. constructor. }
  apply (beam_loop_lengths _ _ 0) in Hrun as [Hlines _]; [|done| |by constructor].
  2:{ simpl. by apply Forall_replicate. }
  rewrite length_range in Hlines.
  apply Forall_forall. intros b Hb.
  eapply Forall_forall in Hknown; [|exact Hb].
  eapply Forall_forall in Hlines; [|exact Hb]. simpl in Hknown, Hlines.
  split; [done|]. split; [by apply known_app|]. split; lia.
Qed.

End beam_inputs.

Lemma beam_lines_fit_witness :
  ∃ st, @Decoder.beam_loop Example.int_scores Example.toy_decoder "T" (Py.range 2)
          (Decoder.initial 2) = Ok st ∧
        Decoder.lines st = [("CC", 4)]%string ∧
        Forall (λ b, @Inputs.fits Toy.vocabulary
                       (Z.to_nat (@Decoder.max_length Example.int_scores Example.toy_decoder))
                       "T" b.1)
          (Decoder.lines st).
Proof.
  eexists. split; [vm_compute; reflexivity|]. split; [reflexivity|].
  apply (@beam_lines_fit Example.int_scores Example.toy_decoder Toy.vocabulary "T" 2 2).
  - intros j. unfold Decoder.ix_to_char. simpl. unfold Example.toy_symbol.
    repeat case_decide; reflexivity.
  - intros j. apply toy_known. unfold Decoder.ix_to_char. simpl.
    unfold Example.toy_symbol. repeat case_decide; vm_compute; reflexivity.
  - apply toy_known. vm_compute. reflexivity.
  - apply toy_known. vm_compute. reflexivity.
  - simpl. lia.
  - simpl. lia.
  - vm_compute. reflexivity.
Defined.

(** ** The report of the results *)

Section report_facts.

Lemma lookup_add_from (start k : nat) (row : list Z) :
  Report.add_from start row !! k
  = if decide (k < start)%nat then row !! k else (λ v, v + 1) <$> row !! k.
Proof.
  unfold Report.add_from. destruct (decide (k < start)%nat) as [Hk|Hk].
  - destruct (decide (k < length row)%nat).
    + rewrite lookup_app_l by (rewrite length_take; lia). by apply lookup_take_lt.
    + rewrite (lookup_ge_None_2 row k) by lia. apply lookup_ge_None_2.
      rewrite length_app, length_take, length_fmap, length_drop. lia.
  - destruct (decide (start ≤ length row)%nat).
    + rewrite lookup_app_r by (rewrite length_take; lia).
      rewrite length_take, list_lookup_fmap, lookup_drop. do 2 f_equal. lia.
    + rewrite (lookup_ge_None_2 row k) by lia. apply lookup_ge_None_2.
      rewrite length_app, length_take, length_fmap, length_drop. lia.
Qed.

Lemma count_cons {A} (P : A → Prop) `{∀ x, Decision (P x)} (x : A) (l : list A) :
  Report.count P (x :: l) = (if decide (P x) then 1 else 0) + Report.count P l.
Proof.
  unfold Report.count. rewrite filter_cons. destruct (decide (P x)); simpl; lia.
Qed.

Lemma count_bounds {A} (P : A → Prop) `{∀ x, Decision (P x)} (l : list A) :
  0 ≤ Report.count P l ≤ Z.of_nat (length l).
Proof. unfold Report.count. pose proof (length_filter P l). lia. Qed.

Lemma count_mono {A} (P Q : A → Prop) `{∀ x, Decision (P x)} `{∀ x, Decision (Q x)}
    (l : list A) :
  (∀ x, P x → Q x) → Report.count P l ≤ Report.count Q l.
Proof.
  intros HPQ. induction l as [|x l IH]; [done|]. rewrite !count_cons.
  destruct (decide (P x)) as [HP|]; destruct (decide (Q x)) as [|HQ]; try lia.
  by apply HPQ in HP.
Qed.

Lemma record_inv (st st' : Report.tally) (result : Z * option nat) :
  Report.record st result = Outcome.Value st' →
  ∃ d, Report.axis_index 15 result.1 = Outcome.Value d ∧
    st' = match result.2 with
          | None =>
              {| Report.overall_result :=
                   alter (λ v, v + 1) 1%nat <$> Report.overall_result st;
                 Report.depth_hit :=
                   alter (alter (Report.add_from 0) d) 1%nat (Report.depth_hit st) |}
          | Some rank =>
              {| Report.overall_result :=
                   take rank (alter (λ v, v + 1) 1%nat <$> Report.overall_result st)
                   ++ (alter (λ v, v + 1) 0%nat
                         <$> drop rank (alter (λ v, v + 1) 1%nat
                                          <$> Report.overall_result st));
                 Report.depth_hit :=
                   alter (alter (Report.add_from rank) d) 0%nat
                     (alter (alter (Report.add_from 0) d) 1%nat (Report.depth_hit st)) |}
          end.
Proof.
  unfold Report.record. destruct (Report.axis_index 15 result.1) as [d|]; [|done].
  cbn [Outcome.outcome_bind]. intros Hst. exists d. split; [done|].
  destruct result.2; by injection Hst as <-.
Qed.

Lemma axis_index_range (n : nat) (i : Z) :
  (∃ d, Report.axis_index n i = Outcome.Value d ∧ (d < n)%nat) ↔ - Z.of_nat n ≤ i < Z.of_nat n.
Proof.
  unfold Report.axis_index.
  destruct (decide (0 ≤ i < Z.of_nat n)); [split; [lia|]; intros _; eexists; split; [done|lia]|].
  destruct (decide (- Z.of_nat n ≤ i < 0));
    [split; [lia|]; intros _; eexists; split; [done|lia]|].
  split; [by intros (? & ? & _)|lia].
Qed.

Lemma axis_index_error (n : nat) (i : Z) :
  ¬ (- Z.of_nat n ≤ i < Z.of_nat n) → Report.axis_index n i = Outcome.Error Outcome.IndexError.
Proof.
  intros Hout. unfold Report.axis_index.
  rewrite decide_False by lia. by rewrite decide_False by lia.
Qed.

(** One result, seen at the row [k] of [overall_result]. *)
Lemma record_overall (st st' : Report.tally) (result : Z * option nat) (k : nat) (h n : Z) :
  Report.record st result = Outcome.Value st' →
  Report.overall_result st !! k = Some [h; n] →
  Report.overall_result st' !! k
  = Some [h + (if decide (Report.within k result) then 1 else 0); n + 1].
Proof.
  intros Hrec Hrow. apply record_inv in Hrec as (d & _ & ->).
  assert ((alter (λ v, v + 1) 1%nat <$> Report.overall_result st) !! k = Some [h; n + 1])
    as Hrow1 by (by rewrite list_lookup_fmap, Hrow).
  apply lookup_lt_Some in Hrow1 as Hlen.
  destruct result as [max_depth [rank|]];
    destruct (decide (Report.within k _)) as [Hw|Hw];
    unfold Report.within in Hw; simpl in Hw; simpl; [| |done|].
  - rewrite lookup_app_r by (rewrite length_take; lia).
    rewrite length_take, list_lookup_fmap, lookup_drop.
    replace (rank + (k - Nat.min rank _))%nat with k by lia.
    by rewrite Hrow1.
  - rewrite lookup_app_l by (rewrite length_take; lia).
    rewrite lookup_take_lt by lia. rewrite Hrow1. do 3 f_equal. lia.
  - rewrite Hrow1. do 3 f_equal. lia.
Qed.

Lemma loop_record_overall (results : list (Z * option nat)) :
  ∀ (st st' : Report.tally) (k : nat) (h n : Z),
    Outcome.loop Report.record results st = Outcome.Value st' →
    Report.overall_result st !! k = Some [h; n] →
    Report.overall_result st' !! k
    = Some [h + Report.count (Report.within k) results; n + Z.of_nat (length results)].
Proof.
  induction results as [|r results IH]; intros st st' k h n Hrun Hrow; simpl in Hrun.
  - injection Hrun as <-. rewrite Hrow. unfold Report.count. simpl. do 3 f_equal; lia.
  - destruct (Report.record st r) as [st1|] eqn:Erec; [|done].
    cbn [Outcome.outcome_bind] in Hrun.
    eapply record_overall in Erec; [|exact Hrow].
    eapply IH in Hrun; [|exact Erec]. rewrite Hrun, count_cons.
    f_equal. f_equal; [lia|]. f_equal. simpl length. lia.
Qed.

(** One result, seen at a counter of [depth_hit]. *)
Lemma record_counter (st st' : Report.tally) (result : Z * option nat) (d k : nat) :
  Report.record st result = Outcome.Value st' →
  Report.counter st' 1 d k
  = (λ v, v + (if decide (Report.at_depth d result) then 1 else 0))
      <$> Report.counter st 1 d k
  ∧ Report.counter st' 0 d k
    = (λ v, v + (if decide (Report.at_depth d result ∧ Report.within k result)
                 then 1 else 0))
        <$> Report.counter st 0 d k.
Proof.
  intros Hrec. apply record_inv in Hrec as (d' & Hd' & ->).
  assert (∀ f a (tables : list (list (list Z))),
            match alter (alter f d') a tables !! a with
            | Some table => match table !! d with Some row => row !! k | None => None end
            | None => None
            end
            = match tables !! a with
              | Some table =>
                  match table !! d with
                  | Some row => if decide (d = d') then f row !! k else row !! k
                  | None => None
                  end
              | None => None
              end) as Halter.
  { intros f a tables. rewrite list_lookup_alter_eq.
    destruct (tables !! a) as [table|]; simpl; [|done].
    destruct (decide (d = d')) as [->|Hne].
    - rewrite list_lookup_alter_eq. by destruct (table !! d').
    - by rewrite list_lookup_alter_ne. }
  assert (Report.at_depth d result ↔ d = d') as Hat.
  { unfold Report.at_depth. rewrite Hd'. split; [by intros [= ->]|by intros ->]. }
  unfold Report.counter.
  destruct result as [max_depth [rank|]]; cbn [snd Report.depth_hit]; split.
  - rewrite list_lookup_alter_ne by done. rewrite Halter.
    destruct (Report.depth_hit st !! 1%nat) as [table|]; simpl; [|done].
    destruct (table !! d) as [row|]; simpl; [|done].
    rewrite lookup_add_from. simpl.
    destruct (decide (d = d')), (decide (Report.at_depth d _)); try tauto;
      destruct (row !! k); simpl; f_equal; lia.
  - rewrite Halter. rewrite list_lookup_alter_ne by done.
    destruct (Report.depth_hit st !! 0%nat) as [table|]; simpl; [|done].
    destruct (table !! d) as [row|]; simpl; [|done].
    rewrite lookup_add_from.
    destruct (decide (d = d')), (decide (_ ∧ _)) as [[Ha Hw]|Hn];
      try (unfold Report.within in Hw; simpl in Hw);
      try tauto; destruct (decide (k < rank)%nat); try lia;
      try (exfalso; apply Hn; split; [tauto|unfold Report.within; simpl; lia]);
      destruct (row !! k); simpl; f_equal; lia.
  - rewrite Halter.
    destruct (Report.depth_hit st !! 1%nat) as [table|]; simpl; [|done].
    destruct (table !! d) as [row|]; simpl; [|done].
    rewrite lookup_add_from. simpl.
    destruct (decide (d = d')), (decide (Report.at_depth d _)); try tauto;
      destruct (row !! k); simpl; f_equal; lia.
  - rewrite list_lookup_alter_ne by done.
    destruct (Report.depth_hit st !! 0%nat) as [table|]; simpl; [|done].
    destruct (table !! d) as [row|]; simpl; [|done].
    destruct (decide (_ ∧ _)) as [[_ Hw]|_]; [done|].
    destruct (row !! k); simpl; f_equal; lia.
Qed.

Lemma loop_record_counter (results : list (Z * option nat)) :
  ∀ (st st' : Report.tally) (d k : nat),
    Outcome.loop Report.record results st = Outcome.Value st' →
    Report.counter st' 1 d k
    = (λ v, v + Report.count (Report.at_depth d) results) <$> Report.counter st 1 d k
    ∧ Report.counter st' 0 d k
      = (λ v, v + Report.count (λ r, Report.at_depth d r ∧ Report.within k r) results)
          <$> Report.counter st 0 d k.
Proof.
  induction results as [|r results IH]; intros st st' d k Hrun; simpl in Hrun.
  - injection Hrun as <-. unfold Report.count. simpl.
    split.
    + destruct (Report.counter st 1 d k); simpl; f_equal; lia.
    + destruct (Report.counter st 0 d k); simpl; f_equal; lia.
  - destruct (Report.record st r) as [st1|] eqn:Erec; [|done].
    cbn [Outcome.outcome_bind] in Hrun.
    apply (record_counter _ _ _ d k) in Erec as [E1 E0].
    apply (IH _ _ d k) in Hrun as [H1 H0].
    rewrite H1, H0, E1, E0, !count_cons.
    split.
    + destruct (Report.counter st 1 d k) as [v|]; cbn [fmap option_fmap option_map];
        [f_equal; symmetry; apply Z.add_assoc|reflexivity].
    + destruct (Report.counter st 0 d k) as [v|]; cbn [fmap option_fmap option_map];
        [f_equal; symmetry; apply Z.add_assoc|reflexivity].
Qed.

Lemma loop_record_returns (results : list (Z * option nat)) :
  ∀ st, Forall (λ r, -15 ≤ r.1 < 15) results →
        ∃ st', Outcome.loop Report.record results st = Outcome.Value st'.
Proof.
  induction results as [|r results IH]; intros st Hall; simpl; [by eexists|].
  apply Forall_cons in Hall as [Hr Hall].
  destruct (proj2 (axis_index_range 15 r.1)) as (d & Hd & _); [simpl; lia|].
  unfold Report.record at 1. rewrite Hd. cbn [Outcome.outcome_bind].
  destruct r.2; cbn [Outcome.outcome_bind]; apply IH, Hall.
Qed.

Lemma loop_record_raises (results : list (Z * option nat)) :
  ∀ st, ¬ Forall (λ r, -15 ≤ r.1 < 15) results →
        Outcome.loop Report.record results st = Outcome.Error Outcome.IndexError.
Proof.
  induction results as [|r results IH]; intros st Hnot; simpl.
  - exfalso. apply Hnot. constructor.
  - destruct (decide (-15 ≤ r.1 < 15)) as [Hr|Hr].
    + destruct (proj2 (axis_index_range 15 r.1)) as (d & Hd & _); [simpl; lia|].
      unfold Report.record at 1. rewrite Hd. cbn [Outcome.outcome_bind].
      destruct r.2; cbn [Outcome.outcome_bind]; apply IH; intros Hall; apply Hnot;
        by constructor.
    + unfold Report.record at 1. rewrite axis_index_error by (simpl; lia). done.
Qed.

(** X21.  Row [k] of [overall_result] holds, after the loop over the tasks,
    the number of tasks whose route was found at a rank of at most [k] and
    the number of all tasks: the hits are cumulative in [k], and never more
    than the tasks. *)
Theorem overall_result_counts (beam_size : Z) (results : list (Z * option nat))
    (st : Report.tally) (k : nat) :
  Report.report beam_size results = Outcome.Value st →
  Z.of_nat k < beam_size →
  Report.overall_result st !! k
  = Some [Report.count (Report.within k) results; Z.of_nat (length results)]
  ∧ Report.count (Report.within k) results ≤ Report.count (Report.within (S k)) results
  ∧ Report.count (Report.within k) results ≤ Z.of_nat (length results).
Proof.
  intros Hrun Hk. unfold Report.report, Report.initial in Hrun.
  destruct (Z.ltb_spec beam_size 0) as [|Hpos]; [done|].
  cbn [Outcome.outcome_bind] in Hrun.
  split; [|split].
  - eapply (loop_record_overall _ _ _ k 0 0) in Hrun.
    + by rewrite Hrun.
    + simpl. apply lookup_replicate_2. lia.
  - apply count_mono. unfold Report.within. intros r. destruct r.2; [lia|done].
  - apply count_bounds.
Qed.

(** X22.  With a beam width that is not negative, the report is made exactly
    when every task has a depth from [-15] to [14]; any other depth raises
    [IndexError] at line 481. *)
Theorem report_depth_range (beam_size : Z) (results : list (Z * option nat)) :
  0 ≤ beam_size →
  (Forall (λ r, -15 ≤ r.1 < 15) results →
   ∃ st, Report.report beam_size results = Outcome.Value st)
  ∧ (¬ Forall (λ r, -15 ≤ r.1 < 15) results →
     Report.report beam_size results = Outcome.Error Outcome.IndexError).
Proof.
  intros Hpos. unfold Report.report, Report.initial.
  destruct (Z.ltb_spec beam_size 0) as [|_]; [lia|]. cbn [Outcome.outcome_bind].
  split; [apply loop_record_returns|apply loop_record_raises].
Qed.

(** X23.  The counter [depth_hit[1, d, k]] holds the number of tasks whose
    depth stands for the row [d] (a depth [-1] stands for the row 14), and
    [depth_hit[0, d, k]] the number of those whose route was found at a rank
    of at most [k]. *)
Theorem depth_hit_counts (beam_size : Z) (results : list (Z * option nat))
    (st : Report.tally) (d k : nat) :
  Report.report beam_size results = Outcome.Value st →
  (d < 15)%nat → Z.of_nat k < beam_size →
  Report.counter st 1 d k = Some (Report.count (Report.at_depth d) results)
  ∧ Report.counter st 0 d k
    = Some (Report.count (λ r, Report.at_depth d r ∧ Report.within k r) results).
Proof.
  intros Hrun Hd Hk. unfold Report.report, Report.initial in Hrun.
  destruct (Z.ltb_spec beam_size 0) as [|Hpos]; [done|].
  cbn [Outcome.outcome_bind] in Hrun.
  apply (loop_record_counter _ _ _ d k) in Hrun as [H1 H0].
  rewrite H1, H0. unfold Report.counter. cbn [Report.depth_hit].
  rewrite !(lookup_replicate_2 2) by lia. cbv beta iota.
  rewrite !(lookup_replicate_2 15) by lia. cbv beta iota.
  rewrite !lookup_replicate_2 by lia.
  cbn [fmap option_fmap option_map]. split; f_equal; lia.
Qed.

End report_facts.

Section report_of_search.
Context `{SearchEnv}.

Lemma main_loop_last_row (fuel : nat) (tasks : list task) :
  ∀ (st st' : Report.tally) (h n : Z),
    1 ≤ beam_size →
    Report.main_loop fuel tasks st = Some (Outcome.Value st') →
    Report.overall_result st !! Z.to_nat (beam_size - 1) = Some [h; n] →
    Report.overall_result st' !! Z.to_nat (beam_size - 1)
    = Some [h + Report.count (Report.solved fuel) tasks; n + Z.of_nat (length tasks)].
Proof.
  induction tasks as [|t tasks IH]; intros st st' h n HB Hrun Hrow; simpl in Hrun.
  - injection Hrun as <-. rewrite Hrow. unfold Report.count. simpl.
    f_equal. f_equal; [lia|]. f_equal. lia.
  - rewrite count_cons.
    destruct (decide (Report.solved fuel t)) as [Hs|Hs]; unfold Report.solved in Hs;
      destruct (get_route_result fuel t) as [[result|]|] eqn:Eres; try done;
      destruct (Report.record st result) as [st1|] eqn:Erec; try done;
      eapply record_overall in Erec; try exact Hrow;
      eapply IH in Hrun; try exact Erec; try done; rewrite Hrun;
      destruct (decide (Report.within _ result)) as [Hw|Hw];
      unfold Report.within in Hw;
      try (f_equal; f_equal; [lia|]; f_equal; simpl length; lia).
    + exfalso. destruct result as [d [rank|]]; simpl in *; [|by destruct Hs].
      apply get_route_result_rank in Eres; [|lia]. lia.
    + exfalso. destruct result as [d [rank|]]; simpl in *; [|done].
      apply Hs. by eexists.
Qed.

(** X24.  With a beam width of at least 1, the last row of [overall_result]
    counts every task for which a matching route was found: a rank that
    [get_route_result] returns is never outside the table. *)
Theorem last_row_counts_solved_tasks (fuel : nat) (tasks : list task)
    (st0 st : Report.tally) :
  1 ≤ beam_size →
  Report.initial beam_size = Outcome.Value st0 →
  Report.main_loop fuel tasks st0 = Some (Outcome.Value st) →
  Report.overall_result st !! Z.to_nat (beam_size - 1)
  = Some [Report.count (Report.solved fuel) tasks; Z.of_nat (length tasks)].
Proof.
  intros HB Hinit Hrun.
  eapply (main_loop_last_row _ _ _ _ 0 0) in Hrun; [|done|].
  - by rewrite Hrun.
  - unfold Report.initial in Hinit.
    destruct (Z.ltb_spec beam_size 0) as [|_]; [lia|]. injection Hinit as <-.
    simpl. apply lookup_replicate_2. lia.
Qed.

End report_of_search.

(** ** The statements about the report at small instances *)

Example report_of_three_tasks :
  Report.report 3 [(2, Some 0%nat); (-1, None); (2, Some 2%nat)]
  = Outcome.Value
      {| Report.overall_result := [[1; 3]; [1; 3]; [2; 3]];
         Report.depth_hit :=
           [ replicate 2 [0; 0; 0] ++ [[1; 1; 2]] ++ replicate 12 [0; 0; 0];
             replicate 2 [0; 0; 0] ++ [[2; 2; 2]] ++ replicate 11 [0; 0; 0]
             ++ [[1; 1; 1]] ] |}.
Proof. vm_compute. reflexivity. Qed.

Lemma overall_result_counts_witness :
  ∃ st, Report.report 3 [(2, Some 0%nat); (-1, None); (2, Some 2%nat)] = Outcome.Value st ∧
    Report.overall_result st !! 1%nat = Some [1; 3] ∧
    (Report.overall_result st !! 1%nat
     = Some [Report.count (Report.within 1)
               [(2, Some 0%nat); (-1, None); (2, Some 2%nat)]; Z.of_nat 3]
     ∧ Report.count (Report.within 1) [(2, Some 0%nat); (-1, None); (2, Some 2%nat)]
       ≤ Report.count (Report.within 2) [(2, Some 0%nat); (-1, None); (2, Some 2%nat)]
     ∧ Report.count (Report.within 1) [(2, Some 0%nat); (-1, None); (2, Some 2%nat)]
       ≤ Z.of_nat 3).
Proof.
  eexists. split; [vm_compute; reflexivity|]. split; [reflexivity|].
  apply (overall_result_counts 3 [(2, Some 0%nat); (-1, None); (2, Some 2%nat)]).
  - vm_compute. reflexivity.
  - simpl. lia.
Defined.

Lemma report_depth_range_witness :
  (Forall (λ r : Z * option nat, -15 ≤ r.1 < 15) [(14, None); (15, Some 0%nat)] →
   ∃ st, Report.report 2 [(14, None); (15, Some 0%nat)] = Outcome.Value st)
  ∧ (¬ Forall (λ r : Z * option nat, -15 ≤ r.1 < 15) [(14, None); (15, Some 0%nat)] →
     Report.report 2 [(14, None); (15, Some 0%nat)] = Outcome.Error Outcome.IndexError).
Proof. apply (report_depth_range 2 [(14, None); (15, Some 0%nat)]). lia. Defined.

Lemma depth_hit_counts_witness :
  ∃ st, Report.report 3 [(2, Some 0%nat); (-1, None); (2, Some 2%nat)] = Outcome.Value st ∧
    Report.counter st 1 14 0 = Some 1 ∧ Report.counter st 0 2 1 = Some 1 ∧
    (Report.counter st 1 2 1
     = Some (Report.count (Report.at_depth 2)
               [(2, Some 0%nat); (-1, None); (2, Some 2%nat)])
     ∧ Report.counter st 0 2 1
       = Some (Report.count (λ r, Report.at_depth 2 r ∧ Report.within 1 r)
                 [(2, Some 0%nat); (-1, None); (2, Some 2%nat)])).
Proof.
  eexists. split; [vm_compute; reflexivity|]. split; [reflexivity|].
  split; [reflexivity|].
  apply (depth_hit_counts 3 [(2, Some 0%nat); (-1, None); (2, Some 2%nat)]).
  - vm_compute. reflexivity.
  - lia.
  - simpl. lia.
Defined.

Lemma last_row_counts_solved_tasks_witness :
  let env := Example.stub_env 5 Example.AB_stock Example.two_steps in
  let tasks := [Example.some_task 3; Example.some_task 0] in
  ∃ st0 st,
    Report.initial 5 = Outcome.Value st0 ∧
    @Report.main_loop Example.int_scores env 5 tasks st0 = Some (Outcome.Value st) ∧
    Report.overall_result st !! 4%nat = Some [1; 2] ∧
    Report.overall_result st !! Z.to_nat (@beam_size Example.int_scores env - 1)
    = Some [Report.count (@Report.solved Example.int_scores env 5) tasks;
            Z.of_nat (length tasks)].
Proof.
  intros env tasks. eexists. eexists.
  split; [vm_compute; reflexivity|].
  split; [vm_compute; reflexivity|].
  split; [reflexivity|].
  eapply (@last_row_counts_solved_tasks Example.int_scores env 5 tasks).
  - simpl. lia.
  - vm_compute. reflexivity.
  - vm_compute. reflexivity.
Defined.

(** ** The functions around RDKit *)

Section chem_facts.
Context `{Chem.RDKit}.

Lemma lookup_set_bits (onbits : list nat) :
  ∀ (arr : list bool) (i : nat),
    foldl (λ a j, <[j := true]> a) arr onbits !! i
    = if decide (i ∈ onbits) then (λ _, true) <$> arr !! i else arr !! i.
Proof.
  induction onbits as [|j onbits IH]; intros arr i; simpl.
  - done.
  - rewrite IH. destruct (decide (i = j)) as [->|Hne].
    + rewrite (decide_True (P := j ∈ j :: onbits)) by constructor.
      destruct (decide (j < length arr)%nat).
      * rewrite list_lookup_insert_eq by done.
        destruct (lookup_lt_is_Some_2 arr j) as [b ->]; [done|].
        by destruct (decide (j ∈ onbits)).
      * rewrite list_insert_ge by lia. rewrite (lookup_ge_None_2 arr j) by lia.
        by destruct (decide (j ∈ onbits)).
    + rewrite list_lookup_insert_ne by done.
      destruct (decide (i ∈ onbits)) as [Hin|Hnin].
      * by rewrite decide_True by (by right).
      * rewrite decide_False; [done|]. intros Hin. apply elem_of_cons in Hin as [?|?]; done.
Qed.

Lemma length_set_bits (onbits : list nat) :
  ∀ arr : list bool, length (foldl (λ a j, <[j := true]> a) arr onbits) = length arr.
Proof.
  induction onbits as [|j onbits IH]; intros arr; simpl; [done|].
  by rewrite IH, length_insert.
Qed.

(** X25.  Without packing, [smiles_to_fp] returns the indicator vector of the
    on bits of the Morgan fingerprint of radius 2: as many entries as the
    fingerprint has bits, a [1] at the on bits and [0] elsewhere.  It raises
    [ArgumentError] for a string that RDKit does not parse. *)
Theorem smiles_to_fp_indicator (s : string) (fp_dim : Z) :
  match Chem.smiles_to_fp s fp_dim false with
  | Outcome.Value v =>
      ∃ m fp, Chem.MolFromSmiles s = Outcome.Value (Some m) ∧
              Chem.GetMorganFingerprintAsBitVect m 2 fp_dim = Outcome.Value fp ∧
              length v = Chem.num_bits fp ∧
              ∀ i, (i < Chem.num_bits fp)%nat →
                   v !! i = Some (if decide (i ∈ Chem.on_bits fp) then 1 else 0)
  | Outcome.Error e =>
      Chem.MolFromSmiles s = Outcome.Value None → e = Outcome.ArgumentError
  end.
Proof.
  unfold Chem.smiles_to_fp.
  destruct (Chem.MolFromSmiles s) as [[m|]|]; cbn [Outcome.outcome_bind Chem.some_mol];
    [|done..].
  destruct (Chem.GetMorganFingerprintAsBitVect m 2 fp_dim) as [fp|] eqn:Efp;
    cbn [Outcome.outcome_bind]; [|done].
  unfold Chem.set_bits.
  destruct (decide (Forall _ (Chem.on_bits fp))); cbn [Outcome.outcome_bind]; [|done].
  exists m, fp. split; [done|]. split; [done|].
  split; [by rewrite length_fmap, length_set_bits, length_replicate|].
  intros i Hi. rewrite list_lookup_fmap, lookup_set_bits.
  rewrite lookup_replicate_2 by done. by destruct (decide (i ∈ Chem.on_bits fp)).
Qed.

(** X26.  [cano_smiles] never raises.  When a step of RDKit fails or raises
    it returns no molecule and the string it was given, unchanged; else it
    returns a molecule and the form RDKit prints for it. *)
Theorem cano_smiles_returns (smiles : string) :
  ∃ r, Chem.cano_smiles smiles = Outcome.Value r ∧
       match r.1 with
       | None => r.2 = smiles
       | Some m => Chem.MolToSmiles m = Outcome.Value r.2
       end.
Proof.
  unfold Chem.cano_smiles.
  destruct (Chem.MolFromSmiles smiles) as [[tmp|]|];
    cbn [Outcome.outcome_bind Chem.catch]; [|by eexists..].
  destruct (Chem.RemoveHs tmp) as [[tmp'|]|];
    cbn [Outcome.outcome_bind Chem.catch]; [|by eexists..].
  destruct (Chem.clear_atom_maps tmp') as [cleared|];
    cbn [Outcome.outcome_bind Chem.catch]; [|by eexists].
  destruct (Chem.MolToSmiles cleared) as [printed|] eqn:E;
    cbn [Outcome.outcome_bind Chem.catch]; [|by eexists].
  by eexists.
Qed.

Lemma loop_materials (rt : Chem.reaction_trees) (indices : list Z) :
  ∀ (acc materials_list : list (list string)),
    Outcome.loop (Chem.materials_of rt) indices acc = Outcome.Value materials_list →
    ∃ found, materials_list = acc ++ (Chem.materials <$> found) ∧
             Forall2 (λ i t, Chem.trees rt !! pretty i = Some t) indices found.
Proof.
  induction indices as [|i indices IH]; intros acc materials_list Hrun; simpl in Hrun.
  - injection Hrun as <-. exists []. by rewrite app_nil_r.
  - unfold Chem.materials_of at 1, Chem.get_tree in Hrun.
    destruct (Chem.trees rt !! pretty i) as [t|] eqn:Et; [|done].
    cbn [Outcome.outcome_bind] in Hrun.
    apply IH in Hrun as (found & -> & Hfound).
    exists (t :: found). rewrite <- app_assoc. split; [done|]. by constructor.
Qed.

Lemma loop_materials_missing (rt : Chem.reaction_trees) (indices : list Z) (i : Z) :
  ∀ acc : list (list string),
    i ∈ indices → Chem.trees rt !! pretty i = None →
    ∃ j : Z, Outcome.loop (Chem.materials_of rt) indices acc
         = Outcome.Error (Outcome.KeyError (pretty j)).
Proof.
  induction indices as [|k indices IH]; intros acc Hin Hnone; [by apply elem_of_nil in Hin|].
  simpl. unfold Chem.materials_of at 1, Chem.get_tree.
  destruct (Chem.trees rt !! pretty k) as [t|] eqn:Et; cbn [Outcome.outcome_bind].
  - apply IH; [|done]. apply elem_of_cons in Hin as [->|Hin]; [congruence|done].
  - by exists k.
Qed.

Lemma elem_of_range_from_1 (n i : Z) :
  i ∈ (λ i, i + 1) <$> Py.range n ↔ 1 ≤ i ≤ n.
Proof.
  rewrite list_elem_of_fmap. setoid_rewrite elem_of_range. split.
  - intros (j & -> & Hj). lia.
  - intros Hi. exists (i - 1). split; lia.
Qed.

(** X27.  An entry of the data set that [load_dataset] accepts gives a task
    whose targets are the materials of the trees ["1"] to ["n"], in this
    order, for [n = num_reaction_trees], and whose depth is that of the entry.
    The tree ["1"] is read even when [n] is [0]: an entry without it raises
    [KeyError]; so does an entry that lacks a tree up to [n], from what the
    first part says. *)
Theorem load_entry_targets (rt : Chem.reaction_trees) :
  (∀ t, Chem.load_entry rt = Outcome.Value t →
        task_depth t = Chem.depth_of_trees rt ∧
        length (targets t) = Z.to_nat (Chem.num_reaction_trees rt) ∧
        ∀ i, 1 ≤ i ≤ Chem.num_reaction_trees rt →
             ∃ tr, Chem.trees rt !! pretty i = Some tr ∧
                   targets t !! Z.to_nat (i - 1) = Some (Chem.materials tr))
  ∧ (Chem.trees rt !! "1"%string = None →
     Chem.load_entry rt = Outcome.Error (Outcome.KeyError "1")).
Proof.
  split.
  - intros t Hrun. unfold Chem.load_entry in Hrun.
    destruct (Chem.get_tree rt "1") as [t1|]; [|done]. cbn [Outcome.outcome_bind] in Hrun.
    destruct (Chem.first_reaction t1) as [reaction|]; [|done].
    cbn [Outcome.outcome_bind] in Hrun.
    destruct (Py.split ">" reaction) as [|text _]; [done|].
    destruct (Chem.MolFromSmiles text) as [[m|]|]; [|done..].
    cbn [Outcome.outcome_bind Chem.some_mol] in Hrun.
    destruct (Chem.MolToInchi m) as [inchi|]; [|done]. cbn [Outcome.outcome_bind] in Hrun.
    destruct (Chem.MolFromInchi inchi) as [[pm|]|]; [|done..].
    cbn [Outcome.outcome_bind Chem.some_mol] in Hrun.
    destruct (Chem.MolToSmiles pm) as [printed|]; [|done].
    cbn [Outcome.outcome_bind] in Hrun.
    destruct (Chem.cano_smiles printed) as [cano|]; [|done].
    cbn [Outcome.outcome_bind] in Hrun.
    destruct (Outcome.loop _ _ _) as [materials_list|] eqn:Eloop; [|done].
    cbn [Outcome.outcome_bind] in Hrun. injection Hrun as <-. simpl.
    apply loop_materials in Eloop as (found & -> & Hfound). simpl.
    pose proof (Forall2_length _ _ _ Hfound) as Hlen.
    rewrite length_fmap, length_range in Hlen.
    split; [done|]. split; [by rewrite length_fmap|].
    intros i Hi.
    assert (((λ i, i + 1) <$> Py.range (Chem.num_reaction_trees rt)) !! Z.to_nat (i - 1)
            = Some i) as Hidx.
    { rewrite list_lookup_fmap.
      rewrite (proj2 (lookup_range _ (Z.to_nat (i - 1)) (i - 1))) by lia.
      simpl. f_equal. lia. }
    eapply Forall2_lookup_l in Hfound as (tr & Htr & Hi'); [|exact Hidx].
    exists tr. split; [done|]. by rewrite list_lookup_fmap, Htr.
  - intros Hnone. unfold Chem.load_entry, Chem.get_tree. by rewrite Hnone.
Qed.

(** The entries are loaded in their order: as many tasks as entries. *)
Lemma load_dataset_length (dataset : list (string * Chem.reaction_trees)) :
  ∀ (acc tasks : list task),
    Outcome.loop (λ acc entry, Outcome.outcome_bind (Chem.load_entry entry.2)
                                 (λ t, Outcome.Value (acc ++ [t]))) dataset acc
    = Outcome.Value tasks →
    length tasks = (length acc + length dataset)%nat.
Proof.
  induction dataset as [|entry dataset IH]; intros acc tasks Hrun; simpl in Hrun.
  - injection Hrun as <-. simpl. lia.
  - destruct (Chem.load_entry entry.2) as [t|]; [|done].
    cbn [Outcome.outcome_bind] in Hrun. apply IH in Hrun.
    rewrite length_app in Hrun. simpl in *. lia.
Qed.

Lemma foldl_bits_snoc (l : list bool) (x : bool) :
  foldl (λ acc b, 2 * acc + Z.b2z b) 0 (l ++ [x])
  = 2 * foldl (λ acc b, 2 * acc + Z.b2z b) 0 l + Z.b2z x.
Proof. by rewrite foldl_app. Qed.

(** The bits of a number that is written bit by bit, the highest first. *)
Lemma testbit_foldl_bits (l : list bool) :
  ∀ (j : nat) (b : bool),
    l !! j = Some b →
    Z.testbit (foldl (λ acc b, 2 * acc + Z.b2z b) 0 l) (Z.of_nat (length l - 1 - j)) = b.
Proof.
  induction l as [|x l IH] using rev_ind; intros j b Hj; [done|].
  rewrite foldl_bits_snoc, length_app. simpl length.
  destruct (decide (j = length l)) as [->|Hne].
  - rewrite lookup_app_r, Nat.sub_diag in Hj by lia. injection Hj as <-.
    replace (length l + 1 - 1 - length l)%nat with 0%nat by lia.
    apply Z.testbit_0_r.
  - assert (j < length l)%nat as Hlt.
    { apply lookup_lt_Some in Hj. rewrite length_app in Hj. simpl in Hj. lia. }
    rewrite lookup_app_l in Hj by done.
    replace (Z.of_nat (length l + 1 - 1 - j)) with (Z.succ (Z.of_nat (length l - 1 - j)))
      by lia.
    rewrite Z.testbit_succ_r by lia. by apply IH.
Qed.

Lemma foldl_bits_bounds (l : list bool) :
  0 ≤ foldl (λ acc b, 2 * acc + Z.b2z b) 0 l < 2 ^ Z.of_nat (length l).
Proof.
  induction l as [|x l IH] using rev_ind; [simpl; lia|].
  rewrite foldl_bits_snoc, length_app. simpl length.
  replace (Z.of_nat (length l + 1)) with (Z.succ (Z.of_nat (length l))) by lia.
  rewrite Z.pow_succ_r by lia. destruct x; simpl Z.b2z; lia.
Qed.

Lemma lookup_packbits (arr : list bool) (i : nat) (b : bool) :
  arr !! i = Some b →
  ∃ byte, Chem.packbits arr !! (i / 8)%nat = Some byte ∧ 0 ≤ byte < 256 ∧
          Z.testbit byte (Z.of_nat (7 - i mod 8)) = b.
Proof.
  intros Hi. apply lookup_lt_Some in Hi as Hlen.
  pose proof (Nat.div_mod_eq i 8) as Hdiv.
  pose proof (Nat.mod_upper_bound i 8) as Hmod.
  set (chunk := take 8 (drop (8 * (i / 8)) arr)).
  assert (length chunk ≤ 8)%nat as Hchunk by (unfold chunk; rewrite length_take; lia).
  assert (length (chunk ++ replicate (8 - length chunk) false) = 8%nat) as Hfull
    by (rewrite length_app, length_replicate; lia).
  exists (Chem.byte_of chunk). split; [|split].
  - unfold Chem.packbits. rewrite list_lookup_fmap.
    rewrite lookup_seq_lt; [done|].
    apply Nat.Div0.div_lt_upper_bound.
    pose proof (Nat.div_mod_eq (length arr + 7) 8).
    pose proof (Nat.mod_upper_bound (length arr + 7) 8). lia.
  - pose proof (foldl_bits_bounds (chunk ++ replicate (8 - length chunk) false)) as Hb.
    rewrite Hfull in Hb. unfold Chem.byte_of. simpl in Hb. lia.
  - unfold Chem.byte_of.
    replace (7 - i mod 8)%nat
      with (length (chunk ++ replicate (8 - length chunk) false) - 1 - i mod 8)%nat
      by (rewrite Hfull; lia).
    apply testbit_foldl_bits. apply lookup_app_l_Some. unfold chunk.
    rewrite lookup_take_lt by lia. rewrite lookup_drop. rewrite <- Hi. f_equal. lia.
Qed.

(** X28.  With packing, [smiles_to_fp] returns one byte for every eight bits
    of the fingerprint, rounded up; bit [i] of the fingerprint is the bit
    [7 - i % 8] of the byte [i // 8], set exactly for the on bits. *)
Theorem smiles_to_fp_packed (s : string) (fp_dim : Z) (v : list Z) :
  Chem.smiles_to_fp s fp_dim true = Outcome.Value v →
  ∃ m fp, Chem.MolFromSmiles s = Outcome.Value (Some m) ∧
          Chem.GetMorganFingerprintAsBitVect m 2 fp_dim = Outcome.Value fp ∧
          length v = ((Chem.num_bits fp + 7) / 8)%nat ∧
          ∀ i, (i < Chem.num_bits fp)%nat →
               ∃ byte, v !! (i / 8)%nat = Some byte ∧ 0 ≤ byte < 256 ∧
                       Z.testbit byte (Z.of_nat (7 - i mod 8))
                       = bool_decide (i ∈ Chem.on_bits fp).
Proof.
  unfold Chem.smiles_to_fp.
  destruct (Chem.MolFromSmiles s) as [[m|]|]; cbn [Outcome.outcome_bind Chem.some_mol];
    [|done..].
  destruct (Chem.GetMorganFingerprintAsBitVect m 2 fp_dim) as [fp|] eqn:Efp;
    cbn [Outcome.outcome_bind]; [|done].
  unfold Chem.set_bits.
  destruct (decide (Forall _ (Chem.on_bits fp))); cbn [Outcome.outcome_bind]; [|done].
  intros [= <-]. exists m, fp. split; [done|]. split; [done|]. split.
  - unfold Chem.packbits.
    by rewrite length_fmap, length_seq, length_set_bits, length_replicate.
  - intros i Hi. apply lookup_packbits.
    rewrite lookup_set_bits, lookup_replicate_2 by done.
    by destruct (decide (i ∈ Chem.on_bits fp)); simpl;
      [rewrite bool_decide_eq_true_2|rewrite bool_decide_eq_false_2].
Qed.

End chem_facts.

(** ** The value model *)

Section value_facts.
Context {rate : Type}.

Lemma output_width_blocks (latent_dim : Z) (p : rate) (k : nat) (rest : list Value.layer) :
  Value.output_width latent_dim
    (mjoin (replicate k [Value.Linear latent_dim latent_dim; Value.ReLU; Value.Dropout p])
     ++ rest)
  = Value.output_width latent_dim rest.
Proof.
  induction k as [|k IH]; simpl; [done|]. by rewrite decide_True.
Qed.

Lemma fmap_const_range {A} (x : A) (n : Z) :
  (λ _, x) <$> Py.range n = replicate (Z.to_nat n) x.
Proof.
  unfold Py.range. rewrite <- list_fmap_compose.
  generalize 0%nat. induction (Z.to_nat n) as [|k IH]; intros start; simpl; [done|].
  by rewrite IH.
Qed.

Lemma length_mjoin_replicate {A} (block : list A) (k : nat) :
  length (mjoin (replicate k block)) = (k * length block)%nat.
Proof. induction k as [|k IH]; simpl; [done|]. rewrite length_app, IH. lia. Qed.

(** X29.  The stack of layers that [ValueMLP.__init__] builds fits together
    for every [n_layers]: it takes a vector of [fp_dim] entries to one number,
    through [max(n_layers, 1)] hidden layers, with [3 * max(n_layers, 1) + 1]
    modules in all. *)
Theorem value_layers_fit (n_layers fp_dim latent_dim : Z) (dropout_rate : rate) :
  Value.output_width fp_dim (Value.layers n_layers fp_dim latent_dim dropout_rate) = Some 1
  ∧ Z.of_nat (length (Value.layers n_layers fp_dim latent_dim dropout_rate))
    = 3 * Z.max n_layers 1 + 1.
Proof.
  unfold Value.layers. rewrite fmap_const_range. split.
  - simpl. rewrite decide_True by done.
    rewrite output_width_blocks. simpl. by rewrite decide_True.
  - rewrite !length_app, length_mjoin_replicate. simpl. lia.
Qed.

End value_facts.

(** ** The statements about the functions around RDKit at the small instances *)

Example toy_fingerprint :
  @Chem.smiles_to_fp Toy.rdkit "C" 10 false = Outcome.Value [0; 1; 0; 0; 0; 0; 0; 0; 0; 1]
  ∧ @Chem.smiles_to_fp Toy.rdkit "C" 10 true = Outcome.Value [64; 64]
  ∧ @Chem.smiles_to_fp Toy.rdkit "C" 8 false = Outcome.Error Outcome.IndexError
  ∧ @Chem.smiles_to_fp Toy.rdkit "?" 10 false = Outcome.Error Outcome.ArgumentError.
Proof. repeat split; vm_compute; reflexivity. Qed.

Example toy_cano_smiles :
  @Chem.cano_smiles Toy.rdkit "C" = Outcome.Value (Some "C", "C")%string
  ∧ @Chem.cano_smiles Toy.rdkit "?" = Outcome.Value (None, "?")%string
  ∧ @Chem.cano_smiles Toy.rdkit "X" = Outcome.Value (None, "X")%string.
Proof. repeat split; vm_compute; reflexivity. Qed.

Example toy_load_entry :
  @Chem.load_entry Toy.rdkit Toy.entry
  = Outcome.Value {| product := "T"; targets := [["A"; "B"]; ["C"]]; task_depth := 2 |}%string
  ∧ @Chem.load_entry Toy.rdkit
      {| Chem.trees := Chem.trees Toy.entry; Chem.num_reaction_trees := 3;
         Chem.depth_of_trees := 2 |}
    = Outcome.Error (Outcome.KeyError "3")
  ∧ @Chem.load_entry Toy.rdkit
      {| Chem.trees := ∅; Chem.num_reaction_trees := 0; Chem.depth_of_trees := 2 |}
    = Outcome.Error (Outcome.KeyError "1").
Proof. repeat split; vm_compute; reflexivity. Qed.

Example value_layers_of_two :
  @Value.layers Z 2 2048 128 1
  = [Value.Linear 2048 128; Value.ReLU; Value.Dropout 1;
     Value.Linear 128 128; Value.ReLU; Value.Dropout 1; Value.Linear 128 1].
Proof. reflexivity. Qed.

Lemma smiles_to_fp_packed_witness :
  ∃ m fp, @Chem.MolFromSmiles Toy.rdkit "C" = Outcome.Value (Some m) ∧
          @Chem.GetMorganFingerprintAsBitVect Toy.rdkit m 2 10 = Outcome.Value fp ∧
          length [64; 64] = ((Chem.num_bits fp + 7) / 8)%nat ∧
          ∀ i, (i < Chem.num_bits fp)%nat →
               ∃ byte, [64; 64] !! (i / 8)%nat = Some byte ∧ 0 ≤ byte < 256 ∧
                       Z.testbit byte (Z.of_nat (7 - i mod 8))
                       = bool_decide (i ∈ Chem.on_bits fp).
Proof.
  apply (@smiles_to_fp_packed Toy.rdkit "C" 10 [64; 64]). vm_compute. reflexivity.
Defined.

(** ** The decoder over the step model *)

Section script_decoder.
Context `{Script.Symbols}.

#[local] Existing Instance Script.view.

Lemma entry_loop {A} (prob : list score) (f : score → Z → A) (js : list Z) :
  Forall (λ j, (Z.to_nat j < length prob)%nat) js →
  ∀ acc,
    Outcome.loop
      (λ result j, Outcome.outcome_bind (Script.entry prob j)
                     (λ p, Outcome.Value (result ++ [f p j]))) js acc
    = Outcome.Value (acc ++ ((λ j, f (default s0 (prob !! Z.to_nat j)) j) <$> js)).
Proof.
  induction 1 as [|j js Hj _ IH]; intros acc; simpl.
  - by rewrite app_nil_r.
  - unfold Script.entry at 1.
    destruct (lookup_lt_is_Some_2 prob (Z.to_nat j) Hj) as [p Hp]. rewrite Hp. simpl.
    rewrite IH, <- app_assoc. done.
Qed.

Lemma range_in_row (prob : list score) :
  (Z.to_nat Script.vocab_size ≤ length prob)%nat →
  Forall (λ j, (Z.to_nat j < length prob)%nat) (Py.range Script.vocab_size).
Proof.
  intros Hrow. apply Forall_forall. intros j Hj. apply elem_of_range in Hj. lia.
Qed.

(** With a model of the right shape, [get_output_probs] returns a
    distribution over the symbols for a pair that fits. *)
Lemma get_output_probs_value (product res : string) :
  Script.well_shaped →
  Inputs.fits (Z.to_nat Inputs.max_length) product res →
  ∃ prob, Inputs.get_output_probs product res = Outcome.Value prob ∧
          (Z.to_nat Script.vocab_size ≤ length prob)%nat.
Proof.
  intros Hshape Hfits.
  assert (0 ≤ Inputs.max_length) as Hpos by (destruct Hfits as (_ & _ & _ & ?); lia).
  rewrite get_output_probs_fits by done.
  destruct (Hshape (Inputs.rows_of (Z.to_nat Inputs.max_length) [(product, res)]))
    as [Hrows Hrow].
  destruct (lookup_lt_is_Some_2
              (Inputs.predict_model
                 (Inputs.rows_of (Z.to_nat Inputs.max_length) [(product, res)]))
              (String.length res)) as [row Hr].
  { destruct Hfits as (_ & _ & _ & ?). lia. }
  rewrite Hr. exists (Inputs.softmax row). split; [done|].
  apply Hrow. by eapply list_elem_of_lookup_2.
Qed.

Lemma first_rows_refines (product : string) :
  0 ≤ Script.vocab_size →
  Script.well_shaped →
  Inputs.fits (Z.to_nat Inputs.max_length) product "" →
  Script.first_rows product = Outcome.Value (Decoder.first_rows product).
Proof.
  intros Hvocab Hshape Hfits.
  destruct (get_output_probs_value product "" Hshape Hfits) as (prob & Hprob & Hlen).
  unfold Script.first_rows, Decoder.first_rows. rewrite Hprob. simpl.
  unfold Script.table_of_size. destruct (Z.ltb_spec Script.vocab_size 0); [lia|]. simpl.
  rewrite (entry_loop prob (λ p i, (neg_log10 p, i))) by by apply range_in_row.
  simpl. f_equal. apply list_fmap_ext. intros _ j _. by rewrite Hprob.
Qed.

Lemma rows_of_line_refines (product : string) (i : nat) (b : string * score)
    (acc : list (score * Z)) :
  Script.well_shaped →
  Inputs.fits (Z.to_nat Inputs.max_length) product b.1 →
  Script.rows_of_line product acc (i, b)
  = Outcome.Value (acc ++ Decoder.rows_of_line product i b).
Proof.
  intros Hshape Hfits.
  destruct (get_output_probs_value product b.1 Hshape Hfits) as (prob & Hprob & Hlen).
  unfold Script.rows_of_line, Decoder.rows_of_line. simpl. rewrite Hprob. simpl.
  rewrite (entry_loop prob (λ p j, (sadd (neg_log10 p) b.2, Decoder.pack (Z.of_nat i) j)))
    by by apply range_in_row.
  done.
Qed.

Lemma beam_rows_refines (product : string) (lines : Decoder.beam) :
  0 ≤ Script.vocab_size →
  Script.well_shaped →
  Forall (λ b, Inputs.fits (Z.to_nat Inputs.max_length) product b.1) lines →
  Script.beam_rows product lines = Outcome.Value (Decoder.beam_rows product lines).
Proof.
  intros Hvocab Hshape Hlines.
  unfold Script.beam_rows, Decoder.beam_rows, Script.table_of_size.
  destruct (Z.ltb_spec (Z.of_nat (length lines) * Script.vocab_size) 0) as [|_]; [nia|].
  simpl.
  assert (∀ (g : nat → nat) acc,
            Outcome.loop (Script.rows_of_line product) (imap (λ i b, (g i, b)) lines) acc
            = Outcome.Value
                (acc ++ mjoin (imap (λ i b, Decoder.rows_of_line product (g i) b) lines)))
    as Hgen.
  { induction Hlines as [|b lines Hb _ IH]; intros g acc; simpl.
    - by rewrite app_nil_r.
    - rewrite rows_of_line_refines by done. simpl.
      rewrite (IH (g ∘ S)). by rewrite <- app_assoc. }
  exact (Hgen id []).
Qed.

Lemma beam_step_refines (product : string) (step : Z) (st : Decoder.beam_state) :
  0 ≤ Script.vocab_size →
  Script.well_shaped →
  Inputs.fits (Z.to_nat Inputs.max_length) product "" →
  Forall (λ b, Inputs.fits (Z.to_nat Inputs.max_length) product b.1) (Decoder.lines st) →
  Script.beam_step product step st = Script.of_res (Decoder.beam_step product step st).
Proof.
  intros Hvocab Hshape Hfirst Hlines. unfold Script.beam_step, Decoder.beam_step.
  assert ((if decide (step = 0) then Script.first_rows product
           else Script.beam_rows product (Decoder.lines st))
          = Outcome.Value (if decide (step = 0) then Decoder.first_rows product
                           else Decoder.beam_rows product (Decoder.lines st))) as ->.
  { destruct (decide (step = 0)); [by apply first_rows_refines|by apply beam_rows_refines]. }
  simpl. destruct (decide (length (Decoder.lines st) = 0%nat)); [done|].
  by destruct (Decoder.select _ _ _ _).
Qed.

Lemma beam_step_known (product : string) (step : Z) (st st' : Decoder.beam_state)
    (stop : bool) :
  (∀ j, Inputs.known (Script.ix_to_char j)) →
  Forall (λ b, Inputs.known b.1) (Decoder.lines st) →
  Decoder.beam_step product step st = Ok (st', stop) →
  Forall (λ b, Inputs.known b.1) (Decoder.lines st').
Proof.
  intros Hsym Hlines Hstep. unfold Decoder.beam_step in Hstep.
  destruct (decide (length (Decoder.lines st) = 0%nat)); [by injection Hstep as <- _|].
  bind_ok Hstep Esel. rename a into acc. injection Hstep as <- _. simpl.
  unfold Decoder.select in Esel.
  apply (for_each_invariant _
           (λ acc, Forall (λ b, Inputs.known b.1) (Decoder.new_beams acc))) in Esel;
    [done| |by constructor].
  intros acc0 i acc1 _ Hacc Hbody.
  destruct (Decoder.ranked _ !! Z.to_nat i) as [row|]; [|done].
  eapply select_row_known; [exact Hsym|exact Hlines|exact Hacc|exact Hbody].
Qed.

Lemma beam_loop_refines (product : string) (steps : list Z) :
  0 ≤ Script.vocab_size →
  Script.well_shaped →
  Script.fitting product →
  ∀ (k : nat) (st : Decoder.beam_state),
    Z.of_nat (k + length steps) ≤ Inputs.max_length →
    Forall (λ b, String.length b.1 = k) (Decoder.lines st) →
    Forall (λ fb, (2 ≤ String.length fb.1 ≤ k)%nat) (Decoder.st_final_beams st) →
    Forall (λ b, Inputs.known b.1) (Decoder.lines st) →
    Script.beam_loop product steps st = Script.of_res (Decoder.beam_loop product steps st).
Proof.
  intros Hvocab Hshape (Hone & Hsym & Hstart & Hproduct & Hlen).
  induction steps as [|step steps IH]; intros k st Hk Hlines Hfin Hknown; simpl; [done|].
  simpl in Hk.
  rewrite beam_step_refines; [|done|done| |].
  - destruct (Decoder.beam_step product step st) as [[st1 stop]|] eqn:Estep; simpl; [|done].
    destruct stop; [done|].
    pose proof (beam_step_known _ _ _ _ _ Hsym Hknown Estep) as Hknown1.
    apply (beam_step_lengths _ _ k) in Estep as [Hlines1 Hfin1]; [|done..].
    apply (IH (S k)); [lia|done..].
  - split; [done|]. split; [done|]. simpl. lia.
  - apply Forall_forall. intros b Hb.
    eapply Forall_forall in Hlines; [|exact Hb].
    eapply Forall_forall in Hknown; [|exact Hb]. simpl in Hlines, Hknown.
    split; [done|]. split; [by apply known_app|]. lia.
Qed.

(** The two models of [get_beam] agree on a product that fits. *)
Lemma get_beam_refines (product : string) (beam_size : Z) :
  0 ≤ Script.vocab_size →
  Script.well_shaped →
  Script.fitting product →
  Script.get_beam product beam_size = Script.of_res (Decoder.get_beam product beam_size).
Proof.
  intros Hvocab Hshape Hfit.
  unfold Script.get_beam, Decoder.get_beam, Decoder.finished_pool.
  rewrite (beam_loop_refines product _ Hvocab Hshape Hfit 0).
  - by destruct (Decoder.beam_loop _ _ _).
  - rewrite length_range. destruct Hfit as (_ & _ & _ & _ & ?). lia.
  - simpl. by apply Forall_replicate.
  - constructor.
  - simpl. apply Forall_replicate. simpl. constructor.
Qed.

(** X1.  [get_beam] with the calls of [get_output_probs] that may raise:
    when the symbols of the vocabulary are single characters and keys of
    [char_to_ix], as the start symbol is, the product fits a row, the step
    model gives a row of at least [vocab_size] entries for each of the
    [max_length] positions, the vocabulary has at most 100 symbols and the
    beam is not wider than the vocabulary, [get_beam] raises nothing and
    returns its candidates, those of the first model over the entries of the
    distributions. *)
Theorem get_beam_returns (product : string) (beam_size : Z) :
  Script.fitting product →
  Script.well_shaped →
  0 ≤ Script.vocab_size ≤ 100 → beam_size ≤ Script.vocab_size →
  ∃ answer, Script.get_beam product beam_size = Outcome.Value answer ∧
            Decoder.get_beam product beam_size = Ok answer.
Proof.
  intros Hfit Hshape Hvocab Hbeam.
  destruct (decoder_returns product beam_size) as [answer Hanswer]; [simpl; lia..|].
  exists answer. split; [|done].
  rewrite get_beam_refines by (done || lia). by rewrite Hanswer.
Qed.

(** X4.  For a product that fits and a step model of the right shape, a beam
    wider than the vocabulary makes step 0 ask the ranked table, which has one
    row per symbol, for more rows than it has: [get_beam] raises
    [IndexError]. *)
Theorem get_beam_wide_beam_raises (product : string) (beam_size : Z) :
  Script.fitting product →
  Script.well_shaped →
  0 ≤ Script.vocab_size ≤ 100 → Script.vocab_size < beam_size →
  Script.get_beam product beam_size = Outcome.Error Outcome.IndexError.
Proof.
  intros Hfit Hshape Hvocab Hwide.
  rewrite get_beam_refines by (done || lia).
  rewrite decoder_wide_beam_raises; [done|simpl; lia..|].
  simpl. destruct Hfit as (_ & _ & _ & _ & ?). lia.
Qed.

End script_decoder.

(** ** The evaluation, and the whole of [get_route_result] *)

Section script_search.
Context `{SearchEnv} `{!Inputs.Vocabulary}.

(** A ground-truth set of line 385 is the set of the identity keys of one of
    the task's lists of targets: a candidate matches when its keys are, as a
    set, those keys. *)
Lemma matches_targets (t : task) (a : ranked_answer) :
  matches (ground_truth_keys_list t) a = true ↔
  ∃ tg, tg ∈ targets t ∧ ∀ key, key ∈ answer_keys a ↔ ∃ m, m ∈ tg ∧ key = inchikey14 m.
Proof.
  rewrite matches_spec. unfold ground_truth_keys_list, identity_key_set. split.
  - intros (gt & Hgt & Heq). apply list_elem_of_fmap in Hgt as (tg & -> & Htg).
    exists tg. split; [done|]. intros key.
    assert (key ∈ (list_to_set (inchikey14 <$> tg) : gset string)
            ↔ key ∈ (list_to_set (answer_keys a) : gset string)) as Hiff by by rewrite Heq.
    rewrite !elem_of_list_to_set, list_elem_of_fmap in Hiff. rewrite <- Hiff.
    split; intros (m & ? & ?); by exists m.
  - intros (tg & Htg & Hkeys). exists (list_to_set (inchikey14 <$> tg)).
    split; [apply list_elem_of_fmap; by exists tg|].
    apply set_eq. intros key.
    rewrite !elem_of_list_to_set, list_elem_of_fmap, Hkeys.
    split; intros (m & ? & ?); by exists m.
Qed.

(** What the second model returns is what the first one does. *)
Lemma script_rerank (d : dedup_state) :
  Script.rerank d
  = Outcome.outcome_bind (Inputs.rerank_inputs (rerank_input_list d) (rerank_output_list d))
      (λ _, Outcome.Value (rerank d)).
Proof.
  unfold Script.rerank, Script.get_rerank_scores.
  by destruct (Inputs.rerank_inputs _ _).
Qed.

Lemma script_result_value (fuel : nat) (t : task) (v : Z * option nat) :
  Script.get_route_result fuel t = Some (Outcome.Value v) →
  get_route_result fuel t = Some (Ok v).
Proof.
  unfold Script.get_route_result, get_route_result.
  destruct (search fuel t) as [[st|e]|]; simpl; [|done..].
  rewrite script_rerank.
  destruct (Inputs.rerank_inputs _ _); simpl; [|done].
  intros Hv. by simplify_eq.
Qed.

(** C8.  The evaluation returns the pair of the task's depth and the index,
    from 0, of the first candidate whose identity keys are, as a set, the
    identity keys ([inchikey14]) of one of the task's lists of targets, or
    [None] when no candidate is such.  And the whole of [get_route_result]
    returns: with enough fuel the search ends; from the state it ends in,
    the result is that pair for the ranked candidates when the arrays of the
    reward model are made, and the exception of the arrays otherwise; when the
    search has emitted no route the arrays are empty and the result is
    [(max_depth, None)], not an exception.  An exception of the decoder is
    passed on. *)
Theorem evaluation_rank (t : task) :
  (∀ final : list ranked_answer,
     let hit (a : ranked_answer) :=
       ∃ tg, tg ∈ targets t ∧
             ∀ key, key ∈ answer_keys a ↔ ∃ m, m ∈ tg ∧ key = inchikey14 m in
     ∃ rank, evaluate t final = (task_depth t, rank) ∧
       match rank with
       | Some k => (∃ a, final !! k = Some a ∧ hit a) ∧
                   ∀ j b, (j < k)%nat → final !! j = Some b → ¬ hit b
       | None => ∀ a, a ∈ final → ¬ hit a
       end)
  ∧ (∀ fuel, (enough_fuel t ≤ fuel)%nat →
       ∃ r, search fuel t = Some r ∧
         match r with
         | Ok st =>
             let d := dedup t (answer_set st) in
             match Inputs.rerank_inputs (rerank_input_list d) (rerank_output_list d) with
             | Outcome.Value _ =>
                 Script.get_route_result fuel t
                 = Some (Outcome.Value (evaluate t (ranked_candidates t (answer_set st))))
             | Outcome.Error e => Script.get_route_result fuel t = Some (Outcome.Error e)
             end
             ∧ (answer_set st = [] →
                Script.get_route_result fuel t = Some (Outcome.Value (task_depth t, None)))
         | Raise _ => Script.get_route_result fuel t = Some (Outcome.Error Outcome.IndexError)
         end).
Proof.
  split.
  - intros final hit. exists (first_match (ground_truth_keys_list t) 0 final).
    split; [done|].
    pose proof (first_match_spec (ground_truth_keys_list t) final 0) as Hspec.
    destruct (first_match (ground_truth_keys_list t) 0 final) as [k|].
    + destruct Hspec as (i & a & -> & Hi & Ha & Hbefore). simpl. split.
      * exists a. split; [done|]. by apply matches_targets.
      * intros j b Hj Hb Hhit. apply matches_targets in Hhit.
        rewrite (Hbefore j b Hj Hb) in Hhit. done.
    + intros a Ha Hhit. apply matches_targets in Hhit.
      rewrite (Hspec a Ha) in Hhit. done.
  - intros fuel Hfuel. destruct (search_ends t fuel Hfuel) as [r Hr].
    exists r. split; [done|]. unfold Script.get_route_result. rewrite Hr.
    destruct r as [st|e]; simpl; [|done].
    rewrite script_rerank. split.
    + unfold ranked_candidates. by destruct (Inputs.rerank_inputs _ _).
    + intros ->. simpl. unfold evaluate, rerank, Py.slice_to. simpl.
      destruct (beam_size <? 0); [done|]. by rewrite take_nil.
Qed.

(** X11.  With a beam width that is not negative, the final list holds at most
    [beam_size] candidates, whatever the task and the routes found, and a rank
    that [get_route_result] returns is below [beam_size], in the first model
    and in the one whose arrays may raise. *)
Theorem rank_below_beam_size :
  0 ≤ beam_size →
  (∀ (t : task) (answers : list answer),
     Z.of_nat (length (ranked_candidates t answers)) ≤ beam_size) ∧
  (∀ (fuel : nat) (t : task) (max_depth : Z) (rank : nat),
     get_route_result fuel t = Some (Ok (max_depth, Some rank)) →
     Z.of_nat rank < beam_size) ∧
  (∀ (fuel : nat) (t : task) (max_depth : Z) (rank : nat),
     Script.get_route_result fuel t = Some (Outcome.Value (max_depth, Some rank)) →
     Z.of_nat rank < beam_size).
Proof.
  intros HB. split; [|split].
  - intros t answers. unfold ranked_candidates, rerank.
    rewrite slice_to_length by done. lia.
  - intros fuel t max_depth rank. by apply get_route_result_rank.
  - intros fuel t max_depth rank Hrun. apply script_result_value in Hrun.
    by eapply get_route_result_rank.
Qed.

End script_search.

(** ** The second model at the small instances *)

Lemma toy_symbol_one (j : Z) : String.length (Example.toy_symbol j) = 1%nat.
Proof. unfold Example.toy_symbol. repeat case_decide; reflexivity. Qed.

Lemma toy_fitting : @Script.fitting Example.int_scores Toy.vocabulary ToyScript.predictor
                      ToyScript.symbols "T".
Proof.
  split; [exact toy_symbol_one|]. split.
  { intros j. apply toy_known. unfold Script.ix_to_char. simpl.
    unfold Example.toy_symbol. repeat case_decide; vm_compute; reflexivity. }
  split; [apply toy_known; vm_compute; reflexivity|].
  split; [apply toy_known; vm_compute; reflexivity|].
  simpl. lia.
Defined.

Lemma toy_well_shaped : @Script.well_shaped Example.int_scores Toy.vocabulary ToyScript.predictor
                          ToyScript.symbols.
Proof.
  intros x. split; [simpl; lia|].
  intros row Hrow. unfold Inputs.predict_model in Hrow. simpl in Hrow.
  repeat (apply elem_of_cons in Hrow as [->|Hrow]; [simpl; lia|]).
  by apply elem_of_nil in Hrow.
Defined.

(** The exceptions of [get_output_probs] come out of [get_beam]: a product
    with a symbol that [char_to_ix] does not have, and a product that is too
    long for a row. *)
Example get_beam_unknown_symbol :
  @Script.get_beam Example.int_scores Toy.vocabulary ToyScript.predictor ToyScript.symbols
    "X" 2
  = Outcome.Error (Outcome.KeyError "X").
Proof. vm_compute. reflexivity. Qed.

Example get_beam_long_product :
  @Script.get_beam Example.int_scores Toy.vocabulary ToyScript.predictor ToyScript.symbols
    "TTT" 2
  = Outcome.Error Outcome.IndexError.
Proof. vm_compute. reflexivity. Qed.

Lemma get_beam_returns_witness :
  ∃ answer,
    @Script.get_beam Example.int_scores Toy.vocabulary ToyScript.predictor ToyScript.symbols
      "T" 2
    = Outcome.Value answer ∧
    @Decoder.get_beam Example.int_scores
      (@Script.view Example.int_scores Toy.vocabulary ToyScript.predictor ToyScript.symbols)
      "T" 2
    = Ok answer ∧
    answer = [(["C"], 1); (["CC"], 1)]%string.
Proof.
  destruct (@get_beam_returns Example.int_scores Toy.vocabulary ToyScript.predictor
              ToyScript.symbols "T" 2) as (answer & Hscript & Hdecoder).
  - exact toy_fitting.
  - exact toy_well_shaped.
  - simpl. lia.
  - simpl. lia.
  - exists answer. split; [exact Hscript|]. split; [exact Hdecoder|].
    vm_compute in Hscript. injection Hscript as <-. reflexivity.
Defined.

Lemma get_beam_wide_beam_raises_witness :
  @Script.get_beam Example.int_scores Toy.vocabulary ToyScript.predictor ToyScript.symbols
    "T" 5
  = Outcome.Error Outcome.IndexError.
Proof.
  apply (@get_beam_wide_beam_raises Example.int_scores Toy.vocabulary ToyScript.predictor
           ToyScript.symbols "T" 5).
  - exact toy_fitting.
  - exact toy_well_shaped.
  - simpl. lia.
  - simpl. lia.
Defined.

(** A symbol of a route that [char_to_ix] does not have: the arrays of the
    reward model raise, and so does [get_route_result]; without a route the
    arrays are empty and nothing is looked up. *)
Example route_result_unknown_symbol :
  @Script.get_route_result Example.int_scores
    (Example.stub_env 5 Example.AB_stock Example.two_steps) ToyScript.no_B 5
    (Example.some_task 3)
  = Some (Outcome.Error (Outcome.KeyError "B"))
  ∧ @Script.get_route_result Example.int_scores
      (Example.stub_env 5 Example.AB_stock Example.no_decoder) ToyScript.no_B 5
      (Example.some_task 3)
    = Some (Outcome.Value (3, None)).
Proof. split; vm_compute; reflexivity. Qed.

Lemma evaluation_rank_witness :
  let env := Example.stub_env 5 Example.AB_stock Example.two_steps in
  let t := Example.some_task 3 in
  @Script.get_route_result Example.int_scores env ToyScript.letters 5 t
  = Some (Outcome.Value (3, Some 0%nat))
  ∧ ∃ st a,
      @search Example.int_scores env 5 t = Some (Ok st) ∧
      @ranked_candidates Example.int_scores env t (answer_set st) !! 0%nat = Some a ∧
      answer_keys a = ["A"; "B"]%string ∧
      ∃ tg, tg ∈ targets t ∧
            ∀ key, key ∈ answer_keys a
                   ↔ ∃ m, m ∈ tg ∧ key = @inchikey14 Example.int_scores env m.
Proof.
  intros env t.
  destruct (@evaluation_rank Example.int_scores env ToyScript.letters t) as [Hrank Hrun].
  destruct (Hrun 5%nat) as (r & Hr & Hresult); [vm_compute; lia|].
  pose proof Hr as Hstate. vm_compute in Hstate. injection Hstate as <-.
  cbv beta iota zeta in Hresult. destruct Hresult as [Hresult _].
  destruct (Inputs.rerank_inputs _ _) as [x|e] eqn:Hx in Hresult;
    [|vm_compute in Hx; discriminate Hx].
  split; [rewrite Hresult; vm_compute; reflexivity|].
  eexists.
  destruct (Hrank (@ranked_candidates Example.int_scores env t
                     [ @Build_answer Example.int_scores 5 ["A"; "B"]%string ]))
    as (rank & Heval & Hhit).
  vm_compute in Heval. injection Heval as <-.
  destruct Hhit as [(a & Ha & Htargets) _].
  exists a. split; [exact Hr|].
  split; [exact Ha|]. split; [|exact Htargets].
  vm_compute in Ha. injection Ha as <-. reflexivity.
Defined.

Lemma rank_below_beam_size_witness :
  let env := Example.stub_env 5 Example.AB_stock Example.two_steps in
  let t := Example.some_task 3 in
  Z.of_nat (length (@ranked_candidates Example.int_scores env t Example.twice_A))
  ≤ @beam_size Example.int_scores env
  ∧ @get_route_result Example.int_scores env 5 t = Some (Ok (3, Some 0%nat))
  ∧ @Script.get_route_result Example.int_scores env ToyScript.letters 5 t
    = Some (Outcome.Value (3, Some 0%nat))
  ∧ Z.of_nat 0 < @beam_size Example.int_scores env.
Proof.
  intros env t.
  destruct (@rank_below_beam_size Example.int_scores env ToyScript.letters)
    as (Hlist & Hfirst & Hsecond); [simpl; lia|].
  split; [apply Hlist|].
  split; [vm_compute; reflexivity|].
  split; [vm_compute; reflexivity|].
  apply (Hsecond 5%nat t 3 0%nat). vm_compute. reflexivity.
Defined.
